(** * tuning-core: Harmonic, Spectrum and IntervalSet over exact fractions

    A shallow embedding of the three classes of the library and of the
    parts of their collaborators that the classes call: JavaScript's
    [Map], [Array.prototype.sort], [Math] functions and numbers, and the
    [Fraction] type of fraction.js.

    - A JavaScript number is an IEEE 754 binary64 value: Rocq's primitive
      [float]. The places where the classes compute with doubles
      ([valueOf], the bounds of [range], the tests of [transpose], the
      threshold and the means of [densify]) compute with doubles here.
    - A [Fraction] is a rational in lowest terms: [Qc].
    - A [Map<string, V>] is an association list in insertion order.
    - A method that mutates its receiver is a function from the receiver's
      state to an outcome (returned value or thrown error) and the
      receiver's state afterwards: what was assigned before a [throw]
      stays assigned.
    - A loop that counts with doubles or runs until a flag clears takes a
      bound on its iterations and answers [None] when it has not finished
      within the bound.
    - A [Spectrum] is the map from keys to the present state of the
      harmonics it holds. The methods that write the map store a harmonic
      under the key of its frequency and never change the frequency of a
      stored harmonic ([transposeHarmonic] stores a transposed clone);
      the invariant [keyed] says so. The stored harmonics are shared with
      the caller, though: [forEach] hands them to a callback, [get] and
      [getHarmonics] return them and [add] stores the caller's object. A
      caller that sets the frequency of one of them leaves it under the
      key of the frequency it had. *)

From Stdlib Require Import ZArith QArith Qcanon Floats List String Ascii Bool Lia.
From Stdlib Require Import DecimalString DecimalZ DecimalPos DecimalFacts.
From Stdlib Require Import Permutation Sorted.
Import ListNotations.

Set Implicit Arguments.

(** ** Outcomes and receivers *)

(** What a call does: it returns a value, or throws an [Error] with a
    message. *)
Inductive result (A : Type) : Type :=
| Ok (a : A)
| Throw (msg : string).

Arguments Ok {A} a.
Arguments Throw {A} msg.

(** A method with receiver state [S] and return type [A]. *)
Definition M (S A : Type) : Type := S -> result A * S.

Definition ret {S A} (a : A) : M S A := fun s => (Ok a, s).

Definition bind {S A B} (c : M S A) (k : A -> M S B) : M S B :=
  fun s =>
    match c s with
    | (Ok a, s') => k a s'
    | (Throw e, s') => (Throw e, s')
    end.

Definition throw {S A} (msg : string) : M S A := fun s => (Throw msg, s).

(** Reading and assigning the receiver. *)
Definition receiver {S} : M S S := fun s => (Ok s, s).
Definition assign {S} (s' : S) : M S unit := fun _ => (Ok tt, s').

Definition modify {S} (f : S -> S) : M S unit := fun s => (Ok tt, f s).

(** A call that does not touch the receiver, and a method that only reads
    it. *)
Definition lift {S A} (r : result A) : M S A := fun s => (r, s).
Definition read {S A} (f : S -> result A) : M S A := fun s => (f s, s).

(** [new C(...)]: the constructor body runs on the fresh object; a throw
    leaves no object. *)
Definition construct {S A} (init : S) (body : M S A) : result S :=
  match body init with
  | (Ok _, s) => Ok s
  | (Throw e, _) => Throw e
  end.

Declare Scope js_scope.
Delimit Scope js_scope with js.
Notation "x <- c ;; k" := (bind c (fun x => k))
  (at level 61, c at next level, right associativity) : js_scope.
Notation "c ;;; k" := (bind c (fun _ => k))
  (at level 61, right associativity) : js_scope.

(** [for (const x of xs) body(x)]: stops at the first throw. *)
Fixpoint for_of {S A} (xs : list A) (body : A -> M S unit) : M S unit :=
  match xs with
  | [] => ret tt
  | x :: xs' => bind (body x) (fun _ => for_of xs' body)
  end.

(** The same for calls without a receiver. *)
Definition bindr {A B} (r : result A) (k : A -> result B) : result B :=
  match r with
  | Ok a => k a
  | Throw e => Throw e
  end.

(** The state a method leaves and the value it returns. *)
Definition state_after {S A} (c : M S A) (s : S) : S := snd (c s).
Definition outcome {S A} (c : M S A) (s : S) : result A := fst (c s).

(** ** Map<string, V> *)

Module JsMap.
Section Ops.
Variable V : Type.

(** Entries in insertion order. *)
Definition t := list (string * V).

Definition empty : t := [].

Fixpoint get (k : string) (m : t) : option V :=
  match m with
  | [] => None
  | (k', v) :: m' => if String.eqb k' k then Some v else get k m'
  end.

Definition has (k : string) (m : t) : bool :=
  match get k m with Some _ => true | None => false end.

(** [set] keeps the position of a key that is present and appends a new
    key. *)
Fixpoint set (k : string) (v : V) (m : t) : t :=
  match m with
  | [] => [(k, v)]
  | (k', v') :: m' =>
      if String.eqb k' k then (k, v) :: m' else (k', v') :: set k v m'
  end.

Fixpoint delete (k : string) (m : t) : t :=
  match m with
  | [] => []
  | (k', v') :: m' =>
      if String.eqb k' k then m' else (k', v') :: delete k m'
  end.

Definition keys (m : t) : list string := map fst m.
Definition values (m : t) : list V := map snd m.
Definition size (m : t) : nat := List.length m.

End Ops.
End JsMap.

(** ** Array.prototype.sort *)

(** A comparator answers with a negative number, zero or a positive
    number: [Lt], [Eq], [Gt]. The sort is stable. *)
Section Sort.
Variable A : Type.
Variable cmp : A -> A -> comparison.

Fixpoint insert_sorted (x : A) (l : list A) : list A :=
  match l with
  | [] => [x]
  | y :: l' =>
      match cmp x y with
      | Gt => y :: insert_sorted x l'
      | _ => x :: l
      end
  end.

Fixpoint array_sort (l : list A) : list A :=
  match l with
  | [] => []
  | x :: l' => insert_sorted x (array_sort l')
  end.

End Sort.

(** ** Arrays *)

(** [xs[i]] and [xs.at(i)] for an integer [i]: [undefined] outside the
    array; [at] counts a negative index from the end. *)
Definition array_index {A} (xs : list A) (i : Z) : option A :=
  if (i <? 0)%Z then None else nth_error xs (Z.to_nat i).

Definition array_at {A} (xs : list A) (i : Z) : option A :=
  array_index xs (if (i <? 0)%Z then (Z.of_nat (List.length xs) + i)%Z else i).

(** [xs.forEach((x, index) => body)]: a throw of the callback ends the
    iteration. *)
Fixpoint forEach_from {S A} (index : nat) (xs : list A)
  (body : A -> nat -> M S unit) : M S unit :=
  match xs with
  | [] => ret tt
  | x :: xs' => bind (body x index) (fun _ => forEach_from (Datatypes.S index) xs' body)
  end.

Definition array_forEach {S A} (xs : list A) (body : A -> nat -> M S unit)
  : M S unit :=
  forEach_from 0 xs body.

(** ** Numbers *)

Module Js.

(** [Number(z)] for a bigint [z]: the nearest double, ties to even. *)
Definition Number (z : Z) : float :=
  SF2Prim (binary_normalize prec emax z 0 false).

(** [Math.PI]. *)
Definition Math_PI : float := 0x1.921fb54442d18p+1%float.

Definition is_neg_zero (x : float) : bool :=
  PrimFloat.is_zero x && PrimFloat.get_sign x.

(** [Math.max] and [Math.min] of two numbers: NaN when either is NaN, and
    -0 below +0. *)
Definition Math_max (x y : float) : float :=
  if PrimFloat.is_nan x || PrimFloat.is_nan y then PrimFloat.nan
  else if PrimFloat.ltb x y then y
  else if PrimFloat.ltb y x then x
  else if is_neg_zero x then y else x.

Definition Math_min (x y : float) : float :=
  if PrimFloat.is_nan x || PrimFloat.is_nan y then PrimFloat.nan
  else if PrimFloat.ltb x y then x
  else if PrimFloat.ltb y x then y
  else if is_neg_zero x then x else y.

(** The integer part of a finite double towards minus infinity, and the
    double's exact integer value when it has one. *)
Definition floorZ (x : float) : option Z :=
  match Prim2SF x with
  | S754_zero _ => Some 0%Z
  | S754_finite s m e =>
      let n := if s then Z.neg m else Z.pos m in
      Some (if (0 <=? e)%Z then Z.shiftl n e else Z.shiftr n (- e))
  | _ => None
  end.

Definition ceilZ (x : float) : option Z :=
  option_map Z.opp (floorZ (PrimFloat.opp x)).

(** [Math.floor] and [Math.ceil]: NaN and the infinities are returned as
    they are; so is a double that is an integer already (which keeps the
    sign of zero and every double from 2^52 on). *)
Definition Math_floor (x : float) : float :=
  match floorZ x, ceilZ x with
  | Some lo, Some hi => if (lo =? hi)%Z then x else Number lo
  | _, _ => x
  end.

Definition Math_ceil (x : float) : float :=
  match floorZ x, ceilZ x with
  | Some lo, Some hi =>
      if (lo =? hi)%Z then x
      else if (hi =? 0)%Z then (-0)%float else Number hi
  | _, _ => x
  end.

(** [x % 1 === 0] and [BigInt(x)] for a number [x]. *)
Definition integer_value (x : float) : option Z :=
  match floorZ x, ceilZ x with
  | Some lo, Some hi => if (lo =? hi)%Z then Some lo else None
  | _, _ => None
  end.

End Js.

(** ** Fraction *)

(** Modelled from the spec: the rational primitive ([Fraction] of
    fraction.js) is an external collaborator whose source is not part of
    the repository. The model follows its contract: a value is a rational
    in lowest terms with a positive denominator; construction reduces and
    refuses a zero denominator; [compare], [mul] and [div] are exact;
    [toFraction] renders the reduced numerator and denominator; [valueOf]
    is the quotient of the numerator and the denominator as doubles. *)
Module Fraction.

Definition t : Type := Qc.

(** [FractionInput], for the shapes the classes pass on: a [Fraction], an
    integer-valued number or a bigint, a pair [[n, d]] or [{n, d}], and
    the strings ["n"] and ["n/d"]. *)
Inductive Input : Type :=
| OfFraction (f : t)
| OfInteger (z : Z)
| OfPair (n d : Z)
| OfString (s : string).

Definition DivisionByZero : string := "Division by Zero".
Definition InvalidParameter : string := "Invalid argument".
Definition NonIntegerParameter : string := "Parameters must be integer".

Definition make (n d : Z) : result t :=
  if (d =? 0)%Z then Throw DivisionByZero
  else Ok (Q2Qc (inject_Z n / inject_Z d)).

Definition of_Z (z : Z) : t := Q2Qc (inject_Z z).

Fixpoint split_slash (s : string) : option (string * string) :=
  match s with
  | EmptyString => None
  | String c s' =>
      if Ascii.eqb c "/" then Some (EmptyString, s')
      else match split_slash s' with
           | Some (a, b) => Some (String c a, b)
           | None => None
           end
  end.

Definition parse_integer (s : string) : option Z :=
  option_map Z.of_int (NilZero.int_of_string s).

Definition parse (s : string) : result t :=
  match split_slash s with
  | None =>
      match parse_integer s with
      | Some n => Ok (of_Z n)
      | None => Throw InvalidParameter
      end
  | Some (a, b) =>
      match parse_integer a, parse_integer b with
      | Some n, Some d => make n d
      | _, _ => Throw InvalidParameter
      end
  end.

(** [new Fraction(x)]. *)
Definition new (x : Input) : result t :=
  match x with
  | OfFraction f => Ok f
  | OfInteger z => Ok (of_Z z)
  | OfPair n d => make n d
  | OfString s => parse s
  end.

(** [new Fraction(n, d)] for two numbers. *)
Definition of_numbers (n d : float) : result t :=
  if PrimFloat.is_nan n || PrimFloat.is_nan d then Throw InvalidParameter
  else match Js.integer_value n, Js.integer_value d with
       | Some n', Some d' => make n' d'
       | _, _ => Throw NonIntegerParameter
       end.

(** [a.compare(b)]: negative, zero or positive. *)
Definition compare (a b : t) : comparison := (a ?= b)%Qc.

(** [a.mul(b)] parses [b] first. *)
Definition mul (a : t) (b : Input) : result t :=
  bindr (new b) (fun b' => Ok (a * b')%Qc).

(** [a.div(b)] for a [Fraction] [b]. *)
Definition div (a b : t) : result t :=
  if Qc_eq_dec b 0%Qc then Throw DivisionByZero else Ok (a / b)%Qc.

(** [a.valueOf()]. *)
Definition valueOf (a : t) : float :=
  PrimFloat.div (Js.Number (Qnum a)) (Js.Number (Z.pos (Qden a))).

Definition string_of_Z (z : Z) : string := NilZero.string_of_int (Z.to_int z).

(** [a.toFraction()]: ["n"] when the denominator is 1, ["n/d"] otherwise. *)
Definition toFraction (a : t) : string :=
  if (Qden a =? 1)%positive then string_of_Z (Qnum a)
  else (string_of_Z (Qnum a) ++ "/" ++ string_of_Z (Z.pos (Qden a)))%string.

End Fraction.

(** ** Harmonic *)

Module Harmonic.

(** The private fields of a [Harmonic]. *)
Record t : Type := mk {
  _frequency : Fraction.t;
  _amplitude : float;
  _phase : float
}.

(** [HarmonicData]. *)
Record Data : Type := mkData {
  data_n : Z;
  data_d : Z;
  data_amplitude : float;
  data_phase : float
}.

(** The constructor's two signatures. An absent [amplitude] or [phase] is
    [None]. *)
Inductive Args : Type :=
| OfData (d : Data)
| OfParts (frequency : Fraction.Input) (amplitude phase : option float).

Definition frequency (h : t) : Fraction.t := _frequency h.
Definition frequencyNum (h : t) : float := Fraction.valueOf (_frequency h).
Definition frequencyStr (h : t) : string := Fraction.toFraction (_frequency h).
Definition amplitude (h : t) : float := _amplitude h.
Definition phase (h : t) : float := _phase h.

Definition not_positive (c : comparison) : bool :=
  match c with Gt => false | _ => true end.

Definition bad_amplitude (a : float) : bool :=
  PrimFloat.ltb a 0 || PrimFloat.ltb 1 a.

Definition bad_phase (p : float) : bool :=
  PrimFloat.ltb p 0 || PrimFloat.leb (PrimFloat.mul 2 Js.Math_PI) p.

Definition validate (h : t) : result unit :=
  if not_positive (Fraction.compare (_frequency h) (Fraction.of_Z 0))
  then Throw "Frequency must be positive"
  else if bad_amplitude (_amplitude h)
  then Throw "Amplitude must be between 0 and 1"
  else if bad_phase (_phase h)
  then Throw "Phase must be between 0 and 2π"
  else Ok tt.

Definition default (o : option float) (d : float) : float :=
  match o with Some x => x | None => d end.

(** [new Harmonic(...)]. *)
Definition new (args : Args) : result t :=
  bindr
    (match args with
     | OfData d =>
         bindr (Fraction.new (Fraction.OfPair (data_n d) (data_d d)))
           (fun f => Ok (mk f (data_amplitude d) (data_phase d)))
     | OfParts frequency amplitude phase =>
         bindr (Fraction.new frequency)
           (fun f => Ok (mk f (default amplitude 1) (default phase 0)))
     end)
    (fun h => bindr (validate h) (fun _ => Ok h)).

Local Open Scope js_scope.

Definition setFrequency (frequency : Fraction.Input) : M t unit :=
  f <- lift (Fraction.new frequency) ;;
  h <- receiver ;;
  assign (mk f (_amplitude h) (_phase h)) ;;;
  if not_positive (Fraction.compare f (Fraction.of_Z 0))
  then throw "Frequency must be positive"
  else ret tt.

Definition setAmplitude (amplitude : float) : M t unit :=
  if bad_amplitude amplitude
  then throw "Amplitude must be between 0 and 1"
  else h <- receiver ;;
       assign (mk (_frequency h) amplitude (_phase h)).

Definition setPhase (phase : float) : M t unit :=
  if bad_phase phase
  then throw "Phase must be between 0 and 2π"
  else h <- receiver ;;
       assign (mk (_frequency h) (_amplitude h) phase).

Definition transpose (ratio : Fraction.Input) : M t unit :=
  h <- receiver ;;
  f <- lift (Fraction.mul (_frequency h) ratio) ;;
  assign (mk f (_amplitude h) (_phase h)).

Definition scale (factor : float) : M t unit :=
  h <- receiver ;;
  assign (mk (_frequency h)
            (Js.Math_max 0 (Js.Math_min 1 (PrimFloat.mul (_amplitude h) factor)))
            (_phase h)).

Definition clone (h : t) : result t :=
  new (OfParts (Fraction.OfFraction (_frequency h))
         (Some (_amplitude h)) (Some (_phase h))).

(** [this.clone().transpose(ratio)]: the receiver is not touched; the
    result is the new object. *)
Definition toTransposed (ratio : Fraction.Input) (h : t) : result t :=
  bindr (clone h) (fun c =>
    match transpose ratio c with
    | (Ok _, c') => Ok c'
    | (Throw e, _) => Throw e
    end).

Definition compareFrequency (a b : t) : comparison :=
  Fraction.compare (_frequency a) (_frequency b).

End Harmonic.

(** ** Spectrum *)

Module Spectrum.

(** The private field [harmonics]: canonical frequency key to harmonic. *)
Definition t : Type := JsMap.t Harmonic.t.

(** [Harmonic | FractionInput]. *)
Inductive Ref : Type :=
| ByHarmonic (h : Harmonic.t)
| ByFrequency (x : Fraction.Input).

(** The three signatures of [add]. *)
Inductive AddArgs : Type :=
| AddHarmonic (h : Harmonic.t)
| AddData (d : Harmonic.Data)
| AddParts (frequency : Fraction.Input) (amplitude phase : option float).

Local Open Scope js_scope.

Definition size (m : t) : nat := JsMap.size m.

Definition addHarmonic (harmonic : Harmonic.t) : M t unit :=
  let key := Harmonic.frequencyStr harmonic in
  modify (JsMap.set key harmonic).

Definition new (data : option (list Harmonic.Data)) : result t :=
  construct (JsMap.empty Harmonic.t)
    (match data with
     | None => ret tt
     | Some ds =>
         for_of ds (fun harmonicData =>
           harmonic <- lift (Harmonic.new (Harmonic.OfData harmonicData)) ;;
           addHarmonic harmonic)
     end).

Definition add (x : AddArgs) : M t unit :=
  match x with
  | AddHarmonic h => addHarmonic h
  | AddData d =>
      harmonic <- lift (Harmonic.new (Harmonic.OfData d)) ;;
      addHarmonic harmonic
  | AddParts frequency amplitude phase =>
      harmonic <- lift (Harmonic.new
                          (Harmonic.OfParts frequency
                             (Some (Harmonic.default amplitude 1))
                             (Some (Harmonic.default phase 0)))) ;;
      addHarmonic harmonic
  end.

(** The key that [get], [has] and [remove] look up. *)
Definition key_of (x : Ref) : result string :=
  match x with
  | ByHarmonic h => Ok (Harmonic.frequencyStr h)
  | ByFrequency f =>
      bindr (Fraction.new f) (fun f' => Ok (Fraction.toFraction f'))
  end.

Definition get (x : Ref) (m : t) : result (option Harmonic.t) :=
  bindr (key_of x) (fun key => Ok (JsMap.get key m)).

Definition has (x : Ref) (m : t) : result bool :=
  bindr (key_of x) (fun key => Ok (JsMap.has key m)).

Definition remove (x : Ref) : M t unit :=
  key <- lift (key_of x) ;;
  modify (JsMap.delete key).

Definition getHarmonics (m : t) : list Harmonic.t :=
  array_sort Harmonic.compareFrequency (JsMap.values m).

Definition getKeys (m : t) : list string := JsMap.keys m.

Definition isEmpty (m : t) : bool := Nat.eqb (size m) 0.

Definition clear : M t unit := assign (JsMap.empty Harmonic.t).

Definition transposeHarmonic (x : Ref) (ratio : Fraction.Input) : M t unit :=
  oldHarmonic <- read (get x) ;;
  match oldHarmonic with
  | None => ret tt
  | Some oldHarmonic =>
      let oldKey := Harmonic.frequencyStr oldHarmonic in
      newHarmonic <- lift (Harmonic.toTransposed ratio oldHarmonic) ;;
      let newKey := Harmonic.frequencyStr newHarmonic in
      if String.eqb oldKey newKey then ret tt
      else modify (JsMap.delete oldKey) ;;;
           modify (JsMap.set newKey newHarmonic)
  end.

Definition transpose (ratio : Fraction.Input) : M t unit :=
  r <- lift (Fraction.new ratio) ;;
  let ratioValue := Fraction.valueOf r in
  if PrimFloat.eqb ratioValue 1 then ret tt
  else if PrimFloat.leb ratioValue 0 then throw "Ratio must be greater than 0"
  else
    allHarmonics <- read (fun m => Ok (getHarmonics m)) ;;
    if PrimFloat.ltb 1 ratioValue
    then for_of (rev allHarmonics) (fun h =>
           transposeHarmonic (ByHarmonic h) (Fraction.OfFraction r))
    else for_of allHarmonics (fun h =>
           transposeHarmonic (ByHarmonic h) (Fraction.OfFraction r)).

Definition scaleAmplitudes (factor : float) : M t unit :=
  modify (map (fun e : string * Harmonic.t =>
                 (fst e, state_after (Harmonic.scale factor) (snd e)))).

Definition clone (m : t) : result t :=
  construct (JsMap.empty Harmonic.t)
    (for_of (JsMap.values m) (fun harmonic =>
       c <- lift (Harmonic.clone harmonic) ;;
       addHarmonic c)).

(** [this.clone().transpose(ratio)]. *)
Definition toTransposed (ratio : Fraction.Input) (m : t) : result t :=
  bindr (clone m) (fun copy =>
    match transpose ratio copy with
    | (Ok _, copy') => Ok copy'
    | (Throw e, _) => Throw e
    end).

Definition getLowestHarmonic (m : t) : option Harmonic.t :=
  let sorted := getHarmonics m in
  array_index sorted 0.

Definition getHighestHarmonic (m : t) : option Harmonic.t :=
  let sorted := getHarmonics m in
  array_index sorted (Z.of_nat (List.length sorted) - 1).

(** [xs?.[i]] for an optional array of numbers. *)
Definition optional_at (xs : option (list float)) (i : nat) : option float :=
  match xs with
  | Some l => nth_error l i
  | None => None
  end.

(** The static [fromFrequencies]: a frequency is a [FractionInput], so
    [add] takes its third signature. *)
Definition fromFrequencies (frequencies : list Fraction.Input)
  (amplitudes phases : option (list float)) : result t :=
  bindr (new None) (fun spectrum =>
    construct spectrum
      (array_forEach frequencies (fun frequency i =>
         let amp := Harmonic.default (optional_at amplitudes i) 1 in
         let phase := Harmonic.default (optional_at phases i) 0 in
         add (AddParts frequency (Some amp) (Some phase))))).

(** [this.harmonics.forEach(callback)]: the callback receives each stored
    harmonic, the object itself and not a copy, with its key, in
    insertion order. What the callback does to the harmonic is done to
    the entry of the map, which stays under its key; a throw ends the
    iteration. The callbacks modelled are those that act on the harmonic
    they are handed and on nothing else: [Map.prototype.forEach] also
    hands over the map, and a callback can call the methods of the
    spectrum it iterates; such a callback is not a [callback] here. *)
Fixpoint forEach (callback : string -> M Harmonic.t unit) (m : t)
  : result unit * t :=
  match m with
  | [] => (Ok tt, [])
  | (key, harmonic) :: rest =>
      match callback key harmonic with
      | (Ok _, harmonic') =>
          let (r, rest') := forEach callback rest in
          (r, (key, harmonic') :: rest')
      | (Throw e, harmonic') => (Throw e, (key, harmonic') :: rest)
      end
  end.

End Spectrum.

(** ** IntervalSet *)

Module IntervalSet.

(** The private field [ratios]: canonical key to fraction. *)
Definition t : Type := JsMap.t Fraction.t.

Local Open Scope js_scope.

Definition add (ratio : Fraction.Input) : M t unit :=
  f <- lift (Fraction.new ratio) ;;
  modify (JsMap.set (Fraction.toFraction f) f).

Definition new (ratios : option (list Fraction.Input)) : result t :=
  construct (JsMap.empty Fraction.t)
    (match ratios with
     | None => ret tt
     | Some rs => for_of rs add
     end).

Definition has (ratio : Fraction.Input) (m : t) : result bool :=
  bindr (Fraction.new ratio) (fun f =>
    Ok (JsMap.has (Fraction.toFraction f) m)).

Definition delete (ratio : Fraction.Input) : M t unit :=
  f <- lift (Fraction.new ratio) ;;
  modify (JsMap.delete (Fraction.toFraction f)).

Definition get (ratio : Fraction.Input) (m : t) : result (option Fraction.t) :=
  bindr (Fraction.new ratio) (fun f =>
    Ok (JsMap.get (Fraction.toFraction f) m)).

Definition size (m : t) : nat := JsMap.size m.

Definition isEmpty (m : t) : bool := Nat.eqb (JsMap.size m) 0.

Definition getRatios (m : t) : list Fraction.t :=
  array_sort Fraction.compare (JsMap.values m).

Definition clear : M t unit := assign (JsMap.empty Fraction.t).

Definition clone (m : t) : result t :=
  new (Some (map Fraction.OfFraction (JsMap.values m))).

Definition min (m : t) : option Fraction.t := array_at (getRatios m) 0.

Definition max (m : t) : option Fraction.t := array_at (getRatios m) (-1).

(** [toSpectrum(amp)]: [spectrum.add(ratio, amp(ratio, index))] takes the
    third signature of [add], with no phase. *)
Definition toSpectrum (amp : Fraction.t -> nat -> float) (m : t)
  : result Spectrum.t :=
  bindr (Spectrum.new None) (fun spectrum =>
    construct spectrum
      (array_forEach (getRatios m) (fun ratio index =>
         Spectrum.add (Spectrum.AddParts (Fraction.OfFraction ratio)
                         (Some (amp ratio index)) None)))).

Definition toStrings (m : t) : list string :=
  map Fraction.toFraction (getRatios m).

(** The loop of [equals]: the first ratio that [other] lacks ends it. *)
Fixpoint equals_loop (ratios : list Fraction.t) (other : t) : result bool :=
  match ratios with
  | [] => Ok true
  | ratio :: rest =>
      bindr (has (Fraction.OfFraction ratio) other) (fun found =>
        if negb found then Ok false else equals_loop rest other)
  end.

Definition equals (m other : t) : result bool :=
  if negb (Nat.eqb (size m) (size other)) then Ok false
  else equals_loop (getRatios m) other.

(** The receiver of the loop in [toSweepIntervals] is the local array
    [intervals]; [ratios[i]] outside the array is [undefined], whose
    [div] is a TypeError. *)
Definition push_interval (ratios : list Fraction.t) (i : nat)
  : M (list Fraction.t) unit :=
  match nth_error ratios i, nth_error ratios (i - 1) with
  | Some cur, Some prev =>
      q <- lift (Fraction.div cur prev) ;;
      modify (fun intervals => intervals ++ [q])
  | _, _ => throw "Cannot read properties of undefined"
  end.

Definition toSweepIntervals (m : t) : result (list Fraction.t) :=
  let ratios := getRatios m in
  construct []
    (if Nat.eqb (List.length ratios) 0 then ret tt
     else modify (fun intervals => intervals ++ [Fraction.of_Z 1]) ;;;
          for_of (seq 1 (List.length ratios - 1)) (push_interval ratios)).

Definition at_least (c : comparison) : bool :=
  match c with Lt => false | _ => true end.

Definition at_most (c : comparison) : bool :=
  match c with Gt => false | _ => true end.

(** The two loops of [range] count with doubles. [fuel] bounds the number
    of iterations of each loop; [None] is a loop that has not finished
    within it. *)
Fixpoint range_numerators (fuel : nat) (minFraction maxFraction : Fraction.t)
  (denominator numerator maxNumerator : float) (intervalSet : t)
  : option (result t) :=
  if PrimFloat.leb numerator maxNumerator then
    match fuel with
    | O => None
    | S fuel' =>
        match Fraction.of_numbers numerator denominator with
        | Throw e => Some (Throw e)
        | Ok fraction =>
            range_numerators fuel' minFraction maxFraction denominator
              (PrimFloat.add numerator 1) maxNumerator
              (if at_least (Fraction.compare fraction minFraction)
                  && at_most (Fraction.compare fraction maxFraction)
               then state_after (add (Fraction.OfFraction fraction)) intervalSet
               else intervalSet)
        end
    end
  else Some (Ok intervalSet).

Fixpoint range_denominators (fuel inner : nat)
  (minFraction maxFraction : Fraction.t)
  (denominator maxDenominator : float) (intervalSet : t)
  : option (result t) :=
  if PrimFloat.leb denominator maxDenominator then
    match fuel with
    | O => None
    | S fuel' =>
        let minNumerator :=
          Js.Math_max 1
            (Js.Math_ceil
               (PrimFloat.mul (Fraction.valueOf minFraction) denominator)) in
        let maxNumerator :=
          Js.Math_floor
            (PrimFloat.mul (Fraction.valueOf maxFraction) denominator) in
        match range_numerators inner minFraction maxFraction denominator
                minNumerator maxNumerator intervalSet with
        | Some (Ok intervalSet') =>
            range_denominators fuel' inner minFraction maxFraction
              (PrimFloat.add denominator 1) maxDenominator intervalSet'
        | other => other
        end
    end
  else Some (Ok intervalSet).

Definition range (fuel : nat) (min max : Fraction.Input)
  (maxDenominator : float) : option (result t) :=
  if PrimFloat.ltb maxDenominator 1
  then Some (Throw "maxDenominator must be at least 1")
  else
    match Fraction.new min with
    | Throw e => Some (Throw e)
    | Ok minFraction =>
        match Fraction.new max with
        | Throw e => Some (Throw e)
        | Ok maxFraction =>
            match Fraction.compare minFraction maxFraction with
            | Gt => Some (Throw "min must be less than or equal to max")
            | _ =>
                range_denominators fuel fuel minFraction maxFraction
                  1 maxDenominator (JsMap.empty Fraction.t)
            end
        end
    end.

(** [minMax] deletes while it iterates the live map; a [Map] iterator
    goes on to the entries that are left, so every entry present at the
    start is visited once. *)
Definition minMax (min max : Fraction.Input) : M t unit :=
  minFraction <- lift (Fraction.new min) ;;
  maxFraction <- lift (Fraction.new max) ;;
  match Fraction.compare minFraction maxFraction with
  | Gt => throw "min must be less than or equal to max"
  | _ =>
      m <- receiver ;;
      for_of (JsMap.values m) (fun ratio =>
        if negb (at_least (Fraction.compare ratio minFraction))
           || negb (at_most (Fraction.compare ratio maxFraction))
        then modify (JsMap.delete (Fraction.toFraction ratio))
        else ret tt)
  end.

Definition affinitive (context complement : Spectrum.t) : result t :=
  let harmonics1 := Spectrum.getHarmonics context in
  let harmonics2 := Spectrum.getHarmonics complement in
  construct (JsMap.empty Fraction.t)
    (for_of harmonics1 (fun h1 =>
       for_of harmonics2 (fun h2 =>
         ratio <- lift (Fraction.div (Harmonic.frequency h2)
                          (Harmonic.frequency h1)) ;;
         add (Fraction.OfFraction ratio)))).

(** [densify] calls two functions that have no definition to translate:
    [Math.pow], which a platform may approximate as it sees fit, and
    [new Fraction(x)] for a double [x] that is not an integer, which
    fraction.js approximates by a fraction. Both are parameters. A double
    that is an integer is converted exactly, and NaN is refused.
    [Math.sqrt] is the correctly rounded square root. *)
Section Densify.
Variable Math_pow : float -> float -> float.
Variable approximate : float -> result Fraction.t.

(** [new Fraction(x)] for a number [x]. *)
Definition of_number (x : float) : result Fraction.t :=
  if PrimFloat.is_nan x then Throw Fraction.InvalidParameter
  else match Js.integer_value x with
       | Some z => Ok (Fraction.of_Z z)
       | None => approximate x
       end.

(** [this.add(x)] for a number [x]. *)
Definition add_number (x : float) : M t unit :=
  f <- lift (of_number x) ;;
  modify (JsMap.set (Fraction.toFraction f) f).

(** The receiver of a pass: the set and the local [needsMorePoints]. *)
Definition on_set {A} (c : M t A) : M (t * bool) A :=
  fun s => let (r, m') := c (fst s) in (r, (m', snd s)).

Definition check_gap (maxGapRatio : float) (sorted : list Fraction.t) (i : nat)
  : M (t * bool) unit :=
  match nth_error sorted i, nth_error sorted (i + 1) with
  | Some lo, Some hi =>
      q <- lift (Fraction.div hi lo) ;;
      let gapRatio := Fraction.valueOf q in
      if PrimFloat.ltb maxGapRatio gapRatio then
        let geometricMean :=
          PrimFloat.sqrt
            (PrimFloat.mul (Fraction.valueOf lo) (Fraction.valueOf hi)) in
        on_set (add_number geometricMean) ;;;
        modify (fun s => (fst s, true))
      else ret tt
  | _, _ => throw "Cannot read properties of undefined"
  end.

Definition densify_pass (maxGapRatio : float) : M (t * bool) unit :=
  s <- receiver ;;
  let sorted := getRatios (fst s) in
  modify (fun s => (fst s, false)) ;;;
  for_of (seq 0 (List.length sorted - 1)) (check_gap maxGapRatio sorted).

(** [while (needsMorePoints)]: [fuel] bounds the number of passes; [None]
    is a loop that has not finished within it. *)
Fixpoint densify_loop (fuel : nat) (maxGapRatio : float) (m : t)
  : option (result unit * t) :=
  match fuel with
  | O => None
  | S fuel' =>
      match densify_pass maxGapRatio (m, true) with
      | (Ok _, (m', true)) => densify_loop fuel' maxGapRatio m'
      | (Ok _, (m', false)) => Some (Ok tt, m')
      | (Throw e, (m', _)) => Some (Throw e, m')
      end
  end.

Definition densify (fuel : nat) (maxGapCents : float) (m : t)
  : option (result unit * t) :=
  if PrimFloat.leb maxGapCents 0
  then Some (Throw "maxGapCents must be positive", m)
  else densify_loop fuel (Math_pow 2 (PrimFloat.div maxGapCents 1200)) m.

End Densify.

End IntervalSet.

(** ** Class invariants *)

(** A [Map] holds a key once. *)
Definition distinct_keys {V} (m : JsMap.t V) : Prop := NoDup (JsMap.keys m).

(** Every ratio of an [IntervalSet] is stored under its own canonical key:
    [add] is the only writer of the map. *)
Definition interval_set_ok (m : IntervalSet.t) : Prop :=
  distinct_keys m /\
  Forall (fun e : string * Fraction.t => fst e = Fraction.toFraction (snd e)) m.

(** Every harmonic of a [Spectrum] is stored under the canonical key of
    the frequency it has now. [addHarmonic] and [transposeHarmonic], the
    only writers of the map, store it so. *)
Definition keyed (m : Spectrum.t) : Prop :=
  distinct_keys m /\
  Forall (fun e : string * Harmonic.t => fst e = Harmonic.frequencyStr (snd e)) m.

(** The stored harmonics pass [Harmonic.validate]. *)
Definition valid_harmonics (m : Spectrum.t) : Prop :=
  Forall (fun h => Harmonic.validate h = Ok tt) (JsMap.values m).

Definition spectrum_ok (m : Spectrum.t) : Prop :=
  keyed m /\ valid_harmonics m.

(** The spectra and interval sets that the classes make: by a constructor
    or a factory, and from there by the methods that write the map. The
    factories [Spectrum.harmonic], [Spectrum.fromFrequencies] and
    [IntervalSet.toSpectrum] are a [new Spectrum()] followed by calls of
    [add]. Calls on a stored harmonic from outside the class, as through
    [Spectrum.forEach], are not among them. *)
Inductive spectrum_built : Spectrum.t -> Prop :=
| built_new data m :
    Spectrum.new data = Ok m -> spectrum_built m
| built_add x m :
    spectrum_built m -> spectrum_built (state_after (Spectrum.add x) m)
| built_remove x m :
    spectrum_built m -> spectrum_built (state_after (Spectrum.remove x) m)
| built_clear m :
    spectrum_built m -> spectrum_built (state_after Spectrum.clear m)
| built_transposeHarmonic x ratio m :
    spectrum_built m ->
    spectrum_built (state_after (Spectrum.transposeHarmonic x ratio) m)
| built_transpose ratio m :
    spectrum_built m -> spectrum_built (state_after (Spectrum.transpose ratio) m)
| built_scaleAmplitudes factor m :
    spectrum_built m ->
    spectrum_built (state_after (Spectrum.scaleAmplitudes factor) m)
| built_clone m m' :
    spectrum_built m -> Spectrum.clone m = Ok m' -> spectrum_built m'.

Inductive interval_set_built : IntervalSet.t -> Prop :=
| made_new ratios m :
    IntervalSet.new ratios = Ok m -> interval_set_built m
| made_range fuel min max maxDenominator m :
    IntervalSet.range fuel min max maxDenominator = Some (Ok m) ->
    interval_set_built m
| made_add ratio m :
    interval_set_built m -> interval_set_built (state_after (IntervalSet.add ratio) m)
| made_delete ratio m :
    interval_set_built m ->
    interval_set_built (state_after (IntervalSet.delete ratio) m)
| made_affinitive context complement m :
    IntervalSet.affinitive context complement = Ok m -> interval_set_built m
| made_minMax min max m :
    interval_set_built m ->
    interval_set_built (state_after (IntervalSet.minMax min max) m)
| made_clear m :
    interval_set_built m -> interval_set_built (state_after IntervalSet.clear m)
| made_clone m m' :
    interval_set_built m -> IntervalSet.clone m = Ok m' -> interval_set_built m'
| made_densify Math_pow approximate fuel maxGapCents m r m' :
    interval_set_built m ->
    IntervalSet.densify Math_pow approximate fuel maxGapCents m = Some (r, m') ->
    interval_set_built m'.

(** The three tests that [Spectrum.transpose] makes on the double
    [r.valueOf()] answer as the same tests on [r] itself. *)
Definition is_eq (c : comparison) : bool :=
  match c with Eq => true | _ => false end.

Definition is_gt (c : comparison) : bool :=
  match c with Gt => true | _ => false end.

Definition double_agrees (r : Fraction.t) : Prop :=
  PrimFloat.eqb (Fraction.valueOf r) 1 = is_eq (Fraction.compare r (Fraction.of_Z 1)) /\
  PrimFloat.leb (Fraction.valueOf r) 0 = Harmonic.not_positive (Fraction.compare r (Fraction.of_Z 0)) /\
  PrimFloat.ltb 1 (Fraction.valueOf r) = is_gt (Fraction.compare r (Fraction.of_Z 1)).

(** The harmonic [h] moved by the ratio [r]. *)
Definition moved (r : Fraction.t) (h : Harmonic.t) : Harmonic.t :=
  Harmonic.mk (Harmonic._frequency h * r)%Qc
    (Harmonic._amplitude h) (Harmonic._phase h).

(** [h] is the harmonic that [add(x)] stores: the harmonic it is called
    with, or the one it constructs from the data or from the frequency,
    amplitude and phase. *)
Definition added (x : Spectrum.AddArgs) (h : Harmonic.t) : Prop :=
  match x with
  | Spectrum.AddHarmonic g => g = h
  | Spectrum.AddData d => Harmonic.new (Harmonic.OfData d) = Ok h
  | Spectrum.AddParts frequency amplitude phase =>
      Harmonic.new
        (Harmonic.OfParts frequency
           (Some (Harmonic.default amplitude 1))
           (Some (Harmonic.default phase 0))) = Ok h
  end.

(** [m'] is [m] re-keyed by [r]: its keys are the keys of the moved
    frequencies, each moved harmonic is found under its key with the
    amplitude and phase it had, and nothing is lost. *)
Definition rekeyed (r : Fraction.t) (m m' : Spectrum.t) : Prop :=
  (forall k, In k (JsMap.keys m') <->
             exists h, In h (JsMap.values m) /\
                       k = Fraction.toFraction (Harmonic._frequency h * r)%Qc) /\
  (forall h, In h (JsMap.values m) ->
             JsMap.get (Harmonic.frequencyStr (moved r h)) m' = Some (moved r h)) /\
  Spectrum.size m' = Spectrum.size m.

(** [S.clone().transpose(r).transpose(1/r)]. *)
Definition there_and_back (r : Fraction.t) (m : Spectrum.t) : result Spectrum.t :=
  bindr (Spectrum.clone m) (fun copy =>
    construct copy
      (bind (Spectrum.transpose (Fraction.OfFraction r)) (fun _ =>
         Spectrum.transpose (Fraction.OfFraction (/ r)%Qc)))).

(** Same keys, in any order. *)
Definition same_keys {V} (m m' : JsMap.t V) : Prop :=
  forall k, In k (JsMap.keys m) <-> In k (JsMap.keys m').

(** Comparing by a rational key, as [compareFrequency] does with the
    frequency; ascending and strictly ascending by that key. *)
Section ByKey.
Variable A : Type.
Variable key : A -> Fraction.t.

Definition by_key (a b : A) : comparison := Fraction.compare (key a) (key b).
Definition key_le (a b : A) : Prop := (key a <= key b)%Qc.
Definition key_lt (a b : A) : Prop := (key a < key b)%Qc.

End ByKey.

(** The entry under which a harmonic is stored. *)
Definition entry (h : Harmonic.t) : string * Harmonic.t :=
  (Harmonic.frequencyStr h, h).

(** ** Sample values *)

(** The ratio (2^53 + 1) / 2^53: above 1, and 1 as a double. *)
Definition near_one : Fraction.t :=
  Q2Qc (9007199254740993 # 9007199254740992).

Definition unison : Harmonic.t := Harmonic.mk (Fraction.of_Z 1) 0.5 0.

(** The harmonic at 1 after [transpose(0)]: its frequency is 0. *)
Definition silenced : Harmonic.t :=
  state_after (Harmonic.transpose (Fraction.OfInteger 0)) unison.

(** Harmonics at 1, 2 and 4, inserted in a shuffled order. *)
Definition octaves : Spectrum.t :=
  map entry [Harmonic.mk (Fraction.of_Z 2) 0.5 0;
             Harmonic.mk (Fraction.of_Z 4) 0.25 0;
             Harmonic.mk (Fraction.of_Z 1) 1 0].

(** [octaves] after [forEach(h => h.setFrequency(5))]: three harmonics
    with the frequency 5, under the keys they were stored with. *)
Definition retuned : Spectrum.t :=
  state_after
    (Spectrum.forEach (fun _ => Harmonic.setFrequency (Fraction.OfInteger 5)))
    octaves.

(** The ratios 2^53 and 2^53 + 2: neighbours among the doubles. *)
Definition wide_pair : IntervalSet.t :=
  [("9007199254740992"%string, Fraction.of_Z 9007199254740992);
   ("9007199254740994"%string, Fraction.of_Z 9007199254740994)].

(** The ratios 0 and 1. *)
Definition zero_and_one : IntervalSet.t :=
  [("0"%string, Fraction.of_Z 0); ("1"%string, Fraction.of_Z 1)].

(** The ratios 1, 5/4, 3/2 and 2, inserted in a shuffled order. *)
Definition major_chord : IntervalSet.t :=
  [("3/2"%string, Q2Qc (3 # 2)); ("1"%string, Fraction.of_Z 1);
   ("2"%string, Fraction.of_Z 2); ("5/4"%string, Q2Qc (5 # 4))].

(** ** Strings of fractions *)

Section Strings.

Lemma split_slash_digits (d : Decimal.uint) :
  Fraction.split_slash (NilEmpty.string_of_uint d) = None.
Proof.
  induction d; simpl; try rewrite IHd; reflexivity.
Qed.

Lemma split_slash_uint (d : Decimal.uint) :
  Fraction.split_slash (NilZero.string_of_uint d) = None.
Proof.
  destruct d; try reflexivity; apply (split_slash_digits (_ d)).
Qed.

Lemma split_slash_integer (z : Z) :
  Fraction.split_slash (Fraction.string_of_Z z) = None.
Proof.
  unfold Fraction.string_of_Z, NilZero.string_of_int.
  destruct (Z.to_int z) as [d | d].
  - apply split_slash_uint.
  - simpl. now rewrite split_slash_uint.
Qed.

Lemma split_slash_append (a b : string) :
  Fraction.split_slash a = None ->
  Fraction.split_slash (a ++ "/" ++ b) = Some (a, b).
Proof.
  change ("/" ++ b)%string with (String "/" b).
  induction a as [| c a IH]; simpl; intros H.
  - reflexivity.
  - destruct (Ascii.eqb c "/"); [discriminate |].
    destruct (Fraction.split_slash a) as [[] |]; [discriminate |].
    now rewrite IH.
Qed.

Lemma parse_integer_string_of_Z (z : Z) :
  Fraction.parse_integer (Fraction.string_of_Z z) = Some z.
Proof.
  unfold Fraction.parse_integer, Fraction.string_of_Z.
  rewrite NilZero.isi.
  - simpl. now rewrite DecimalZ.of_to.
  - destruct z; simpl; try discriminate.
    intros [= H]. now apply Unsigned.to_uint_nonnil in H.
  - destruct z; simpl; try discriminate.
    intros [= H]. now apply Unsigned.to_uint_nonnil in H.
Qed.

Lemma of_Z_numerator (a : Fraction.t) :
  Qden a = 1%positive -> Fraction.of_Z (Qnum a) = a.
Proof.
  intros H. apply Qc_is_canon. unfold Fraction.of_Z, Q2Qc, this.
  etransitivity; [apply Qred_correct |].
  destruct a as [[n d] c]. simpl in *. subst d. reflexivity.
Qed.

Lemma make_numerator_denominator (a : Fraction.t) :
  Fraction.make (Qnum a) (Z.pos (Qden a)) = Ok a.
Proof.
  unfold Fraction.make. simpl. apply (f_equal Ok). apply Qc_is_canon.
  unfold Q2Qc, this. etransitivity; [apply Qred_correct |].
  destruct a as [[n d] c]. unfold Qeq, Qdiv, Qmult, Qinv, inject_Z. simpl. lia.
Qed.

(** Parsing the canonical string of a fraction gives the fraction back. *)
Lemma parse_toFraction (a : Fraction.t) :
  Fraction.parse (Fraction.toFraction a) = Ok a.
Proof.
  unfold Fraction.parse, Fraction.toFraction.
  destruct (Pos.eqb_spec (Qden a) 1) as [H | H].
  - rewrite split_slash_integer, parse_integer_string_of_Z.
    now rewrite of_Z_numerator.
  - rewrite split_slash_append by apply split_slash_integer.
    rewrite !parse_integer_string_of_Z.
    apply make_numerator_denominator.
Qed.

(** Two fractions with the same canonical string are the same fraction. *)
Lemma toFraction_inj (a b : Fraction.t) :
  Fraction.toFraction a = Fraction.toFraction b -> a = b.
Proof.
  intros H. pose proof (parse_toFraction a) as Ha.
  rewrite H, parse_toFraction in Ha. now injection Ha.
Qed.

Lemma toFraction_eqb (a b : Fraction.t) :
  String.eqb (Fraction.toFraction a) (Fraction.toFraction b) = true <-> a = b.
Proof.
  rewrite String.eqb_eq. split; [apply toFraction_inj | now intros ->].
Qed.

End Strings.

(** ** Map<string, V>: lookup, insertion, deletion *)

Section MapFacts.
Variable V : Type.
Implicit Types (m : JsMap.t V) (k : string) (v : V).

Lemma get_some_in m k v : JsMap.get k m = Some v -> In (k, v) m.
Proof.
  induction m as [| [k' v'] m IH]; simpl; [discriminate |].
  destruct (String.eqb_spec k' k) as [-> | Hk].
  - intros [= ->]. now left.
  - intros H. right. now apply IH.
Qed.

Lemma get_none_iff m k : JsMap.get k m = None <-> ~ In k (JsMap.keys m).
Proof.
  induction m as [| [k' v'] m IH]; simpl.
  - tauto.
  - destruct (String.eqb_spec k' k) as [-> | Hk].
    + split; [discriminate | intros H; exfalso; apply H; now left].
    + rewrite IH. tauto.
Qed.

Lemma get_in m k v :
  distinct_keys m -> In (k, v) m -> JsMap.get k m = Some v.
Proof.
  unfold distinct_keys.
  induction m as [| [k' v'] m IH]; simpl; [tauto |].
  intros Hnd [H | H]; inversion Hnd as [| ? ? Hnotin Hnd']; subst.
  - injection H as -> ->. now rewrite String.eqb_refl.
  - destruct (String.eqb_spec k' k) as [-> | Hk].
    + exfalso. apply Hnotin. change k with (fst (k, v)). now apply in_map.
    + now apply IH.
Qed.

Lemma has_true_iff m k : JsMap.has k m = true <-> In k (JsMap.keys m).
Proof.
  unfold JsMap.has. destruct (JsMap.get k m) eqn:E.
  - split; [intros _ | reflexivity].
    apply get_some_in in E. change k with (fst (k, v)). now apply in_map.
  - split; [discriminate |]. now apply get_none_iff in E.
Qed.

Lemma set_fresh m k v :
  ~ In k (JsMap.keys m) -> JsMap.set k v m = m ++ [(k, v)].
Proof.
  induction m as [| [k' v'] m IH]; simpl; [reflexivity |].
  intros H. destruct (String.eqb_spec k' k) as [-> | Hk].
  - exfalso. apply H. now left.
  - f_equal. apply IH. tauto.
Qed.

Lemma keys_set_present m k v :
  In k (JsMap.keys m) -> JsMap.keys (JsMap.set k v m) = JsMap.keys m.
Proof.
  induction m as [| [k' v'] m IH]; simpl; [tauto |].
  intros H. destruct (String.eqb_spec k' k) as [-> | Hk]; simpl.
  - reflexivity.
  - f_equal. apply IH. destruct H; [contradiction | assumption].
Qed.

Lemma keys_set m k v :
  JsMap.keys (JsMap.set k v m) =
  if JsMap.has k m then JsMap.keys m else JsMap.keys m ++ [k].
Proof.
  destruct (JsMap.has k m) eqn:E.
  - apply keys_set_present. now apply has_true_iff.
  - rewrite set_fresh.
    + unfold JsMap.keys. now rewrite map_app.
    + rewrite <- has_true_iff. congruence.
Qed.

Lemma size_set m k v :
  JsMap.size (JsMap.set k v m) =
  if JsMap.has k m then JsMap.size m else S (JsMap.size m).
Proof.
  unfold JsMap.size. rewrite <- !(length_map fst).
  change (map fst ?x) with (JsMap.keys x). rewrite keys_set.
  destruct (JsMap.has k m); [reflexivity |].
  rewrite length_app. simpl. lia.
Qed.

Lemma get_set m k k' v :
  JsMap.get k' (JsMap.set k v m) =
  if String.eqb k k' then Some v else JsMap.get k' m.
Proof.
  induction m as [| [k0 v0] m IH]; simpl.
  - reflexivity.
  - destruct (String.eqb_spec k0 k) as [-> | Hk]; simpl.
    + destruct (String.eqb_spec k k'); reflexivity.
    + rewrite IH. destruct (String.eqb_spec k0 k') as [-> | Hk'].
      * destruct (String.eqb_spec k k'); [congruence | reflexivity].
      * reflexivity.
Qed.

Lemma distinct_keys_set m k v :
  distinct_keys m -> distinct_keys (JsMap.set k v m).
Proof.
  unfold distinct_keys. intros H. rewrite keys_set.
  destruct (JsMap.has k m) eqn:E; [assumption |].
  apply NoDup_app; [assumption | repeat constructor; tauto |].
  intros x Hx [<- | []].
  apply has_true_iff in Hx. congruence.
Qed.

Lemma in_set m k v e :
  In e (JsMap.set k v m) -> e = (k, v) \/ In e m.
Proof.
  induction m as [| [k0 v0] m IH]; simpl.
  - intros [<- | []]. now left.
  - destruct (String.eqb_spec k0 k) as [-> | Hk]; simpl.
    + intros [<- | H]; tauto.
    + intros [<- | H]; [tauto |]. apply IH in H. tauto.
Qed.

Lemma in_delete m k e : In e (JsMap.delete k m) -> In e m.
Proof.
  induction m as [| [k0 v0] m IH]; simpl; [tauto |].
  destruct (String.eqb_spec k0 k) as [-> | Hk]; simpl; [tauto |].
  intros [<- | H]; [tauto |]. right. now apply IH.
Qed.

Lemma delete_absent m k :
  ~ In k (JsMap.keys m) -> JsMap.delete k m = m.
Proof.
  induction m as [| [k0 v0] m IH]; simpl; [reflexivity |].
  intros H. destruct (String.eqb_spec k0 k) as [-> | Hk].
  - exfalso. apply H. now left.
  - f_equal. apply IH. tauto.
Qed.

(** Deleting a key that is present takes its entry out and leaves the
    others in place. *)
Lemma delete_present m k v :
  distinct_keys m -> In (k, v) m ->
  Permutation m ((k, v) :: JsMap.delete k m) /\
  ~ In k (JsMap.keys (JsMap.delete k m)).
Proof.
  unfold distinct_keys.
  induction m as [| [k0 v0] m IH]; simpl; [tauto |].
  intros Hnd Hin. inversion Hnd as [| ? ? Hnotin Hnd']; subst.
  destruct (String.eqb_spec k0 k) as [-> | Hk].
  - destruct Hin as [[= ->] | Hin].
    + split; [reflexivity | assumption].
    + exfalso. apply Hnotin. change k with (fst (k, v)). now apply in_map.
  - destruct Hin as [[= -> ->] | Hin]; [congruence |].
    destruct (IH Hnd' Hin) as [Hp Hn]. split.
    + rewrite perm_swap. now apply perm_skip.
    + simpl. intros [H | H]; [congruence | contradiction].
Qed.

Lemma distinct_keys_delete m k :
  distinct_keys m -> distinct_keys (JsMap.delete k m).
Proof.
  unfold distinct_keys.
  induction m as [| [k0 v0] m IH]; simpl; [trivial |].
  intros Hnd. inversion Hnd as [| ? ? Hnotin Hnd']; subst.
  destruct (String.eqb_spec k0 k) as [-> | Hk]; [assumption |].
  simpl. constructor; [| now apply IH].
  intros H. apply Hnotin.
  apply in_map_iff in H. destruct H as [e [He Hin]].
  apply in_delete in Hin. rewrite <- He. now apply in_map.
Qed.

Lemma distinct_keys_perm m m' :
  Permutation m m' -> distinct_keys m -> distinct_keys m'.
Proof.
  unfold distinct_keys, JsMap.keys. intros Hp.
  apply Permutation_NoDup. now apply Permutation_map.
Qed.

End MapFacts.

(** ** Array.prototype.sort with a comparator on a rational key *)

Section SortFacts.
Variable A : Type.
Variable key : A -> Fraction.t.

Local Abbreviation by_key := (by_key key).
Local Abbreviation key_le := (key_le key).
Local Abbreviation key_lt := (key_lt key).

Lemma insert_sorted_perm (x : A) (l : list A) :
  Permutation (insert_sorted by_key x l) (x :: l).
Proof.
  induction l as [| y l IH]; simpl; [reflexivity |].
  destruct (by_key x y); try reflexivity.
  rewrite perm_swap. now apply perm_skip.
Qed.

Lemma array_sort_perm (l : list A) : Permutation (array_sort by_key l) l.
Proof.
  induction l as [| x l IH]; simpl; [reflexivity |].
  rewrite insert_sorted_perm. now apply perm_skip.
Qed.

Lemma array_sort_length (l : list A) :
  List.length (array_sort by_key l) = List.length l.
Proof. apply Permutation_length, array_sort_perm. Qed.

Lemma insert_sorted_sorted (x : A) (l : list A) :
  StronglySorted key_le l -> StronglySorted key_le (insert_sorted by_key x l).
Proof.
  induction l as [| y l IH]; simpl; intros Hs.
  - repeat constructor.
  - inversion Hs as [| ? ? Hs' Hall]; subst.
    unfold by_key, Fraction.compare at 1.
    destruct (key x ?= key y)%Qc eqn:E.
    + apply Qceq_alt in E. constructor; [assumption |].
      constructor; [unfold key_le; rewrite E; apply Qcle_refl |].
      eapply Forall_impl; [| exact Hall].
      intros a Ha. unfold key_le in *. now rewrite E.
    + apply Qclt_alt in E. constructor; [assumption |].
      constructor; [now apply Qclt_le_weak |].
      eapply Forall_impl; [| exact Hall].
      intros a Ha. unfold key_le in *.
      eapply Qcle_trans; [apply Qclt_le_weak; exact E | exact Ha].
    + apply Qcgt_alt in E. constructor; [now apply IH |].
      eapply Permutation_Forall; [symmetry; apply insert_sorted_perm |].
      constructor; [now apply Qclt_le_weak | assumption].
Qed.

Lemma array_sort_sorted (l : list A) :
  StronglySorted key_le (array_sort by_key l).
Proof.
  induction l as [| x l IH]; simpl; [constructor |].
  now apply insert_sorted_sorted.
Qed.

(** Sorted and without a repeated key: strictly ascending. *)
Lemma sorted_distinct_strict (l : list A) :
  StronglySorted key_le l -> NoDup (map key l) -> StronglySorted key_lt l.
Proof.
  induction 1 as [| x l Hs IH Hall]; simpl; intros Hnd; [constructor |].
  inversion Hnd as [| ? ? Hnotin Hnd']; subst.
  constructor; [now apply IH |].
  rewrite Forall_forall in *. intros y Hy.
  specialize (Hall y Hy). unfold key_le, key_lt in *.
  apply Qcle_lt_or_eq in Hall. destruct Hall as [Hlt | Heq]; [assumption |].
  exfalso. apply Hnotin. rewrite Heq. now apply in_map.
Qed.

Lemma array_sort_strict (l : list A) :
  NoDup (map key l) -> StronglySorted key_lt (array_sort by_key l).
Proof.
  intros Hnd. apply sorted_distinct_strict; [apply array_sort_sorted |].
  eapply Permutation_NoDup; [| exact Hnd].
  apply Permutation_map. symmetry. apply array_sort_perm.
Qed.

(** Two strictly ascending arrangements of the same elements are the same
    list. *)
Lemma strict_sorted_unique (l l' : list A) :
  StronglySorted key_lt l -> StronglySorted key_lt l' ->
  Permutation l l' -> l = l'.
Proof.
  revert l'. induction l as [| x l IH]; intros l' Hs Hs' Hp.
  - now apply Permutation_nil in Hp.
  - destruct l' as [| y l'].
    + symmetry in Hp. now apply Permutation_nil in Hp.
    + inversion Hs as [| ? ? Hs1 Hall]; subst.
      inversion Hs' as [| ? ? Hs1' Hall']; subst.
      rewrite Forall_forall in Hall, Hall'.
      assert (x = y) as ->.
      { assert (In x (y :: l')) as Hx
          by (eapply Permutation_in; [exact Hp | now left]).
        assert (In y (x :: l)) as Hy
          by (eapply Permutation_in; [symmetry; exact Hp | now left]).
        destruct Hx as [-> | Hx]; [reflexivity |].
        destruct Hy as [-> | Hy]; [reflexivity |].
        exfalso. specialize (Hall y Hy). specialize (Hall' x Hx).
        unfold key_lt in *.
        apply (Qclt_not_le _ _ Hall). now apply Qclt_le_weak. }
      f_equal. apply IH; try assumption.
      now apply Permutation_cons_inv in Hp.
Qed.

(** The sorted snapshot does not depend on the order of insertion. *)
Lemma array_sort_order_free (l l' : list A) :
  NoDup (map key l) -> Permutation l l' ->
  array_sort by_key l = array_sort by_key l'.
Proof.
  intros Hnd Hp. apply strict_sorted_unique.
  - now apply array_sort_strict.
  - apply array_sort_strict.
    eapply Permutation_NoDup; [| exact Hnd]. now apply Permutation_map.
  - rewrite !array_sort_perm. exact Hp.
Qed.

End SortFacts.

(** ** Fractions: order and products *)

Section FractionFacts.
Implicit Types (a b r : Qc).

Lemma compare_zero_positive a :
  Harmonic.not_positive (Fraction.compare a (Fraction.of_Z 0)) = false <->
  (0 < a)%Qc.
Proof.
  unfold Fraction.compare. change (Fraction.of_Z 0) with 0%Qc.
  destruct (a ?= 0)%Qc eqn:E; simpl.
  - apply Qceq_alt in E. subst. split; [discriminate |].
    intros H. now apply Qclt_not_eq in H.
  - apply Qclt_alt in E. split; [discriminate |].
    intros H. exfalso. apply (Qclt_not_le _ _ H). now apply Qclt_le_weak.
  - apply Qcgt_alt in E. tauto.
Qed.

Lemma mul_cancel_r a b r : r <> 0%Qc -> (a * r = b * r)%Qc -> a = b.
Proof.
  intros Hr H.
  assert ((a - b) * r = 0)%Qc as H0
    by (replace ((a - b) * r)%Qc with (a * r - b * r)%Qc by ring;
        rewrite H; ring).
  apply Qcmult_integral in H0. destruct H0 as [H0 | H0]; [| contradiction].
  rewrite <- (Qcplus_0_r b), <- H0. ring.
Qed.

Lemma mul_grows a r : (0 < a)%Qc -> (1 < r)%Qc -> (a < a * r)%Qc.
Proof.
  intros Ha Hr. pose proof (Qcmult_lt_compat_r 1 r a Ha Hr) as H.
  now rewrite Qcmult_1_l, Qcmult_comm in H.
Qed.

Lemma mul_shrinks a r : (0 < a)%Qc -> (r < 1)%Qc -> (a * r < a)%Qc.
Proof.
  intros Ha Hr. pose proof (Qcmult_lt_compat_r r 1 a Ha Hr) as H.
  now rewrite Qcmult_1_l, Qcmult_comm in H.
Qed.

Lemma mul_positive a r : (0 < a)%Qc -> (0 < r)%Qc -> (0 < a * r)%Qc.
Proof.
  intros Ha Hr. pose proof (Qcmult_lt_compat_r 0 a r Hr Ha) as H.
  now rewrite Qcmult_0_l in H.
Qed.

Lemma mul_fraction a r :
  Fraction.mul a (Fraction.OfFraction r) = Ok (a * r)%Qc.
Proof. reflexivity. Qed.

End FractionFacts.

(** ** Harmonic: validation, clone and transposed copies *)

Section HarmonicFacts.
Implicit Types (h : Harmonic.t) (r : Qc).

Lemma validate_ok h :
  Harmonic.validate h = Ok tt <->
  (0 < Harmonic._frequency h)%Qc /\
  Harmonic.bad_amplitude (Harmonic._amplitude h) = false /\
  Harmonic.bad_phase (Harmonic._phase h) = false.
Proof.
  unfold Harmonic.validate. rewrite <- compare_zero_positive.
  destruct (Harmonic.not_positive _); [intuition discriminate |].
  destruct (Harmonic.bad_amplitude _); [intuition discriminate |].
  destruct (Harmonic.bad_phase _); intuition discriminate.
Qed.

Lemma new_of_fields h :
  Harmonic.validate h = Ok tt ->
  Harmonic.new (Harmonic.OfParts (Fraction.OfFraction (Harmonic._frequency h))
                  (Some (Harmonic._amplitude h)) (Some (Harmonic._phase h)))
  = Ok h.
Proof.
  intros Hv. unfold Harmonic.new. simpl.
  destruct h as [f a p]. simpl in *. now rewrite Hv.
Qed.

Lemma clone_valid h : Harmonic.validate h = Ok tt -> Harmonic.clone h = Ok h.
Proof. apply new_of_fields. Qed.

Lemma toTransposed_valid h r :
  Harmonic.validate h = Ok tt ->
  Harmonic.toTransposed (Fraction.OfFraction r) h = Ok (moved r h).
Proof.
  intros Hv. unfold Harmonic.toTransposed. now rewrite (clone_valid h Hv).
Qed.

Lemma validate_moved h r :
  Harmonic.validate h = Ok tt -> (0 < r)%Qc ->
  Harmonic.validate (moved r h) = Ok tt.
Proof.
  rewrite !validate_ok. simpl. intros [Hf [Ha Hp]] Hr.
  repeat split; try assumption. now apply mul_positive.
Qed.

Lemma frequencyStr_inj h h' :
  Harmonic.frequencyStr h = Harmonic.frequencyStr h' ->
  Harmonic._frequency h = Harmonic._frequency h'.
Proof. apply toFraction_inj. Qed.

End HarmonicFacts.

(** ** Spectrum: the map and its harmonics *)

Section SpectrumFacts.
Implicit Types (m : Spectrum.t) (h : Harmonic.t) (r : Qc).

Lemma keyed_entries m : keyed m -> m = map entry (JsMap.values m).
Proof.
  intros [_ Hk]. induction m as [| [k h] m IH]; simpl; [reflexivity |].
  inversion Hk as [| ? ? Hk1 Hk2]; subst. simpl in Hk1. subst k.
  unfold entry at 1. f_equal. now apply IH.
Qed.

Lemma keys_entries (hs : list Harmonic.t) :
  JsMap.keys (map entry hs) = map Harmonic.frequencyStr hs.
Proof. unfold JsMap.keys. rewrite map_map. reflexivity. Qed.

Lemma values_entries (hs : list Harmonic.t) :
  JsMap.values (map entry hs) = hs.
Proof. unfold JsMap.values. rewrite map_map. simpl. apply map_id. Qed.

Lemma keyed_keys m :
  keyed m -> JsMap.keys m = map Harmonic.frequencyStr (JsMap.values m).
Proof.
  intros Hk. rewrite (keyed_entries Hk) at 1. apply keys_entries.
Qed.

Lemma keyed_frequencies m :
  keyed m -> NoDup (map Harmonic._frequency (JsMap.values m)).
Proof.
  intros Hk. pose proof Hk as [Hnd _]. unfold distinct_keys in Hnd.
  rewrite (keyed_keys Hk) in Hnd.
  change Harmonic.frequencyStr
    with (fun h => Fraction.toFraction (Harmonic._frequency h)) in Hnd.
  rewrite <- (map_map Harmonic._frequency Fraction.toFraction) in Hnd.
  now apply NoDup_map_inv in Hnd.
Qed.

Lemma keyed_in m h : keyed m -> In h (JsMap.values m) -> In (entry h) m.
Proof.
  intros Hk Hin. rewrite (keyed_entries Hk). now apply in_map.
Qed.

Lemma keyed_get m h :
  keyed m -> In h (JsMap.values m) ->
  JsMap.get (Harmonic.frequencyStr h) m = Some h.
Proof.
  intros Hk Hin. apply get_in; [apply Hk |]. now apply keyed_in.
Qed.

Lemma keyed_in_entry m (e : string * Harmonic.t) :
  keyed m -> In e m -> e = entry (snd e) /\ In (snd e) (JsMap.values m).
Proof.
  intros [_ Hk] Hin. rewrite Forall_forall in Hk. split.
  - specialize (Hk e Hin). destruct e as [k h]. simpl in *. now subst.
  - now apply in_map.
Qed.

(** A harmonic found through its own key is a stored harmonic with the
    same frequency. *)
Lemma keyed_get_some m k h :
  keyed m -> JsMap.get k m = Some h ->
  k = Harmonic.frequencyStr h /\ In h (JsMap.values m).
Proof.
  intros Hk Hg. apply get_some_in in Hg.
  destruct (keyed_in_entry _ Hk Hg) as [He Hin]. simpl in *.
  split; [now injection He | assumption].
Qed.

End SpectrumFacts.

(** ** Lists sorted by a relation *)

Section SortedFacts.
Variable A : Type.
Implicit Types (R : A -> A -> Prop) (l : list A).

Lemma StronglySorted_weaken R R' l :
  (forall a b, In a l -> In b l -> R a b -> R' a b) ->
  StronglySorted R l -> StronglySorted R' l.
Proof.
  intros Himp Hs. induction Hs as [| x l Hs IH Hall]; [constructor |].
  constructor.
  - apply IH. intros a b Ha Hb. apply Himp; now right.
  - rewrite Forall_forall in *. intros y Hy.
    apply Himp; [now left | now right | now apply Hall].
Qed.

Lemma StronglySorted_snoc R l x :
  StronglySorted R l -> Forall (fun a => R a x) l ->
  StronglySorted R (l ++ [x]).
Proof.
  induction 1 as [| y l Hs IH Hall]; simpl; intros Hx.
  - repeat constructor.
  - inversion Hx as [| ? ? Hyx Hlx]; subst. constructor; [now apply IH |].
    apply Forall_app. split; [assumption | now constructor].
Qed.

Lemma StronglySorted_rev R l :
  StronglySorted R l -> StronglySorted (fun a b => R b a) (rev l).
Proof.
  induction 1 as [| x l Hs IH Hall]; simpl; [constructor |].
  apply StronglySorted_snoc; [assumption |].
  rewrite Forall_forall in *. intros y Hy. apply Hall.
  now apply in_rev.
Qed.

End SortedFacts.

(** ** Spectrum.transposeHarmonic and the loops of Spectrum.transpose *)

Section Transposition.
Variable r : Qc.
Hypothesis r_nonzero : r <> 0%Qc.

Local Abbreviation freq := Harmonic._frequency.
Local Abbreviation step :=
  (fun h => Spectrum.transposeHarmonic (Spectrum.ByHarmonic h) (Fraction.OfFraction r)).

(** One harmonic is moved: its entry leaves the map and the moved harmonic
    enters under a key that no other entry has. *)
Lemma transposeHarmonic_moves (m : Spectrum.t) (h : Harmonic.t) (X : list Harmonic.t) :
  keyed m -> Permutation (JsMap.values m) (h :: X) ->
  Harmonic.validate h = Ok tt ->
  (freq h * r)%Qc <> freq h ->
  (forall x, In x X -> freq x <> (freq h * r)%Qc) ->
  exists m', step h m = (Ok tt, m') /\ keyed m' /\
             Permutation (JsMap.values m') (moved r h :: X).
Proof.
  intros Hk Hp Hv Hne HX.
  assert (In h (JsMap.values m)) as Hin
    by (eapply Permutation_in; [symmetry; exact Hp | now left]).
  pose proof (keyed_get h Hk Hin) as Hget.
  destruct (delete_present (Harmonic.frequencyStr h) h (proj1 Hk)
              (keyed_in h Hk Hin)) as [Hpm Hnot].
  remember (JsMap.delete (Harmonic.frequencyStr h) m) as m1 eqn:Em1.
  assert (forall e, In e m1 -> e = entry (snd e) /\ In (snd e) X) as Hm1.
  { intros e He. assert (In e m) as Hem by (subst m1; eapply in_delete; eauto).
    destruct (keyed_in_entry e Hk Hem) as [Hee Hev]. split; [assumption |].
    eapply Permutation_in in Hev; [| exact Hp].
    destruct Hev as [Hh | Hx]; [| assumption].
    exfalso. apply Hnot. rewrite Hh, Hee. simpl.
    change (Harmonic.frequencyStr (snd e)) with (fst (entry (snd e))).
    rewrite <- Hee. now apply in_map. }
  assert (~ In (Harmonic.frequencyStr (moved r h)) (JsMap.keys m1)) as Hfresh.
  { intros Hin1. apply in_map_iff in Hin1. destruct Hin1 as [e [He Hine]].
    destruct (Hm1 e Hine) as [Hee HeX]. rewrite Hee in He. simpl in He.
    apply frequencyStr_inj in He. simpl in He. now apply (HX _ HeX). }
  exists (m1 ++ [entry (moved r h)]). split; [| split].
  - unfold Spectrum.transposeHarmonic, bind, read, Spectrum.get,
      Spectrum.key_of, bindr, lift, modify, ret.
    rewrite Hget, (toTransposed_valid h r Hv).
    destruct (String.eqb_spec (Harmonic.frequencyStr h)
                (Harmonic.frequencyStr (moved r h))) as [E | E].
    + exfalso. apply frequencyStr_inj in E. simpl in E. congruence.
    + rewrite <- Em1. now rewrite set_fresh.
  - split.
    + unfold entry. rewrite <- (set_fresh _ _ _ Hfresh). apply distinct_keys_set.
      subst m1. apply distinct_keys_delete, Hk.
    + apply Forall_app. split.
      * rewrite Forall_forall. intros e He.
        destruct (Hm1 e He) as [Hee _]. now rewrite Hee.
      * now repeat constructor.
  - unfold JsMap.values. rewrite map_app. simpl.
    rewrite <- Permutation_cons_append. apply perm_skip.
    apply (Permutation_map snd) in Hpm. simpl in Hpm.
    fold (JsMap.values m) (JsMap.values m1) in Hpm.
    apply Permutation_cons_inv with (a := h).
    now rewrite <- Hpm.
Qed.

(** The harmonics are moved one after the other, in an order in which no
    moved frequency is the frequency of a harmonic still to be moved. *)
Lemma transpose_loop (ord : list Harmonic.t) :
  forall (m : Spectrum.t) (X : list Harmonic.t),
    keyed m -> Permutation (JsMap.values m) (ord ++ X) ->
    Forall (fun h => Harmonic.validate h = Ok tt) ord ->
    (forall a, In a ord -> (freq a * r)%Qc <> freq a) ->
    StronglySorted (fun a b => (freq a * r)%Qc <> freq b) ord ->
    (forall a x, In a ord -> In x X -> (freq a * r)%Qc <> freq x) ->
    exists m', for_of ord step m = (Ok tt, m') /\ keyed m' /\
               Permutation (JsMap.values m') (map (moved r) ord ++ X).
Proof.
  induction ord as [| h ord IH]; intros m X Hk Hp Hv Hself Hlater HX.
  - exists m. split; [reflexivity | split; assumption].
  - inversion Hv as [| ? ? Hvh Hvo]; subst.
    inversion Hlater as [| ? ? Hl1 Hl2]; subst.
    rewrite Forall_forall in Hl2.
    assert ((freq h * r)%Qc <> freq h) as Hh by (apply Hself; now left).
    assert (forall x, In x (ord ++ X) -> freq x <> (freq h * r)%Qc) as Hrest.
    { intros x Hx Heq. apply in_app_or in Hx. destruct Hx as [Hx | Hx].
      - now apply (Hl2 x Hx).
      - apply (HX h x); [now left | assumption | now symmetry]. }
    destruct (@transposeHarmonic_moves m h (ord ++ X) Hk Hp Hvh Hh Hrest)
      as [m1 [Hstep [Hk1 Hp1]]].
    assert (NoDup (map freq (h :: ord ++ X))) as Hnd.
    { eapply Permutation_NoDup; [| apply (keyed_frequencies Hk)].
      apply Permutation_map. exact Hp. }
    simpl in Hnd. inversion Hnd as [| ? ? Hnotin _]; subst.
    assert (Permutation (JsMap.values m1) (ord ++ moved r h :: X)) as Hp1'
      by (rewrite Hp1; apply Permutation_middle).
    assert (forall a, In a ord -> (freq a * r)%Qc <> freq a) as Hself'
      by (intros a Ha; apply Hself; now right).
    assert (forall a x, In a ord -> In x (moved r h :: X) ->
                        (freq a * r)%Qc <> freq x) as HX'.
    { intros a x Ha [<- | Hx]; [| apply HX; [now right | assumption]].
      simpl. intros Heq. apply (mul_cancel_r r_nonzero) in Heq.
      apply Hnotin. rewrite <- Heq. apply in_map, in_or_app. now left. }
    destruct (IH m1 (moved r h :: X) Hk1 Hp1' Hvo Hself' Hl1 HX')
      as [m' [Hloop [Hk' Hp']]].
    exists m'. split; [| split; [assumption |]].
    + simpl. unfold bind at 1. now rewrite Hstep.
    + rewrite Hp'. simpl. symmetry. apply Permutation_middle.
Qed.

End Transposition.

(** ** Spectrum.transpose and Spectrum.clone on a well-kept spectrum *)

Section TransposeFacts.
Implicit Types (m : Spectrum.t) (h : Harmonic.t) (r : Qc).

Local Abbreviation freq := Harmonic._frequency.

Lemma moved_one h : moved 1%Qc h = h.
Proof.
  destruct h as [f a p]. unfold moved. simpl. now rewrite Qcmult_1_r.
Qed.

Lemma moved_back h r : r <> 0%Qc -> moved (/ r)%Qc (moved r h) = h.
Proof.
  intros Hr. destruct h as [f a p]. unfold moved. simpl. f_equal.
  rewrite <- Qcmult_assoc, Qcmult_inv_r by assumption. apply Qcmult_1_r.
Qed.

Lemma positive_nonzero r : (0 < r)%Qc -> r <> 0%Qc.
Proof. intros H E. subst. now apply Qclt_not_eq in H. Qed.

Lemma valid_positive m h :
  valid_harmonics m -> In h (JsMap.values m) -> (0 < freq h)%Qc.
Proof.
  unfold valid_harmonics. rewrite Forall_forall. intros Hv Hin.
  now apply validate_ok, Hv.
Qed.

Lemma getHarmonics_perm m : Permutation (Spectrum.getHarmonics m) (JsMap.values m).
Proof. apply (array_sort_perm Harmonic._frequency). Qed.

Lemma getHarmonics_strict m :
  keyed m -> StronglySorted (key_lt Harmonic._frequency) (Spectrum.getHarmonics m).
Proof.
  intros Hk. apply (array_sort_strict Harmonic._frequency).
  now apply keyed_frequencies.
Qed.

(** What both loops of [transpose] achieve, whatever the order [ord] they
    take the harmonics in, when no moved frequency meets a frequency that
    is still to be moved. *)
Lemma transpose_in_order m r (ord : list Harmonic.t) :
  spectrum_ok m -> r <> 0%Qc -> Permutation ord (JsMap.values m) ->
  (forall a, In a ord -> (freq a * r)%Qc <> freq a) ->
  StronglySorted (fun a b => (freq a * r)%Qc <> freq b) ord ->
  exists m',
    for_of ord (fun h => Spectrum.transposeHarmonic (Spectrum.ByHarmonic h)
                           (Fraction.OfFraction r)) m = (Ok tt, m') /\
    keyed m' /\ Permutation (JsMap.values m') (map (moved r) (JsMap.values m)).
Proof.
  intros [Hk Hv] Hr Hp Hself Hlater.
  destruct (@transpose_loop r Hr ord m [] Hk) as [m' [Hrun [Hk' Hp']]].
  - rewrite List.app_nil_r. now symmetry.
  - eapply Permutation_Forall; [symmetry; exact Hp | exact Hv].
  - assumption.
  - assumption.
  - intros a x _ [].
  - exists m'. split; [assumption | split; [assumption |]].
    rewrite Hp', List.app_nil_r. now apply Permutation_map.
Qed.

Lemma transpose_moves_all m (ratio : Fraction.Input) r :
  spectrum_ok m -> Fraction.new ratio = Ok r -> (0 < r)%Qc -> double_agrees r ->
  exists m', Spectrum.transpose ratio m = (Ok tt, m') /\ spectrum_ok m' /\
             Permutation (JsMap.values m') (map (moved r) (JsMap.values m)).
Proof.
  intros Hok Hnew Hpos [Heq [Hle Hgt]].
  assert (exists m', Spectrum.transpose ratio m = (Ok tt, m') /\ keyed m' /\
             Permutation (JsMap.values m') (map (moved r) (JsMap.values m)))
    as [m' [Hrun [Hk' Hp']]].
  { unfold Spectrum.transpose, bind at 1, lift. rewrite Hnew, Heq, Hle, Hgt.
    apply compare_zero_positive in Hpos as Hpos'. rewrite Hpos'.
    unfold Fraction.compare. change (Fraction.of_Z 1) with 1%Qc.
    destruct Hok as [Hk Hv].
    destruct (r ?= 1)%Qc eqn:E; simpl.
    - apply Qceq_alt in E. subst r. exists m.
      split; [reflexivity | split; [assumption |]].
      rewrite (map_ext _ (fun h => h) moved_one), map_id. reflexivity.
    - apply Qclt_alt in E. unfold bind, read.
      apply transpose_in_order.
      + now split.
      + now apply positive_nonzero.
      + apply getHarmonics_perm.
      + intros a Ha. apply Qclt_not_eq, mul_shrinks; [| assumption].
        apply (@valid_positive m); [assumption |].
        eapply Permutation_in; [apply getHarmonics_perm | exact Ha].
      + eapply StronglySorted_weaken; [| apply (getHarmonics_strict Hk)].
        intros a b Ha _ Hab. unfold key_lt in Hab.
        apply Qclt_not_eq. eapply Qclt_trans; [| exact Hab].
        apply mul_shrinks; [| assumption].
        apply (@valid_positive m); [assumption |].
        eapply Permutation_in; [apply getHarmonics_perm | exact Ha].
    - apply Qcgt_alt in E. unfold bind, read.
      apply transpose_in_order.
      + now split.
      + now apply positive_nonzero.
      + rewrite <- Permutation_rev. apply getHarmonics_perm.
      + intros a Ha. apply not_eq_sym, Qclt_not_eq, mul_grows; [| assumption].
        apply (@valid_positive m); [assumption |].
        eapply Permutation_in; [apply getHarmonics_perm |].
        now apply in_rev.
      + eapply StronglySorted_weaken;
          [| apply StronglySorted_rev, (getHarmonics_strict Hk)].
        intros a b Ha _ Hab. unfold key_lt in Hab. simpl in Hab.
        apply not_eq_sym, Qclt_not_eq. eapply Qclt_trans; [exact Hab |].
        apply mul_grows; [| assumption].
        apply (@valid_positive m); [assumption |].
        eapply Permutation_in; [apply getHarmonics_perm |].
        now apply in_rev. }
  exists m'. split; [assumption | split; [split; [assumption |] | assumption]].
  unfold valid_harmonics.
  eapply Permutation_Forall; [symmetry; exact Hp' |].
  apply Forall_map. destruct Hok as [_ Hv].
  eapply Forall_impl; [| exact Hv].
  intros h Hh. now apply validate_moved.
Qed.

(** Cloning copies every entry, in the same order. *)
Lemma clone_loop (hs : list Harmonic.t) :
  forall acc : Spectrum.t,
    Forall (fun h => Harmonic.validate h = Ok tt) hs ->
    NoDup (JsMap.keys acc ++ map Harmonic.frequencyStr hs) ->
    for_of hs (fun harmonic =>
                 bind (lift (Harmonic.clone harmonic))
                   (fun c => Spectrum.addHarmonic c)) acc
    = (Ok tt, acc ++ map entry hs).
Proof.
  induction hs as [| h hs IH]; intros acc Hv Hnd; simpl.
  - now rewrite List.app_nil_r.
  - inversion Hv as [| ? ? Hvh Hvs]; subst.
    unfold bind at 1. unfold bind at 1, lift. rewrite (clone_valid h Hvh).
    unfold Spectrum.addHarmonic, modify.
    rewrite set_fresh.
    + rewrite IH; [now rewrite <- List.app_assoc | assumption |].
      unfold JsMap.keys in *. rewrite map_app, <- List.app_assoc. exact Hnd.
    + apply NoDup_remove_2 in Hnd. intros Hin. apply Hnd.
      apply in_or_app. now left.
Qed.

Lemma clone_same m : spectrum_ok m -> Spectrum.clone m = Ok m.
Proof.
  intros [Hk Hv]. unfold Spectrum.clone, construct.
  rewrite (@clone_loop (JsMap.values m) (JsMap.empty Harmonic.t)).
  - simpl. now rewrite <- (keyed_entries Hk).
  - exact Hv.
  - simpl. rewrite <- (keyed_keys Hk). apply Hk.
Qed.

Lemma keyed_same_values m m' :
  keyed m -> keyed m' -> Permutation (JsMap.values m') (JsMap.values m) ->
  same_keys m' m.
Proof.
  intros Hk Hk' Hp k. rewrite (keyed_keys Hk), (keyed_keys Hk').
  split; apply Permutation_in; apply Permutation_map;
    [assumption | now symmetry].
Qed.

End TransposeFacts.

(** ** The invariants are established and kept by the methods *)

Section Invariants.

Lemma for_of_keeps {S A} (P : S -> Prop) (body : A -> M S unit) (xs : list A) :
  (forall x s, P s -> P (state_after (body x) s)) ->
  forall s, P s -> P (state_after (for_of xs body) s).
Proof.
  intros Hbody. induction xs as [| x xs IH]; intros s Hs; simpl.
  - exact Hs.
  - unfold state_after, bind in *. specialize (Hbody x s Hs).
    destruct (body x s) as [[[] | e] s1]; simpl in *.
    + now apply IH.
    + exact Hbody.
Qed.

Lemma interval_set_set_ok (m : IntervalSet.t) (f : Fraction.t) :
  interval_set_ok m -> interval_set_ok (JsMap.set (Fraction.toFraction f) f m).
Proof.
  intros [Hd Hk]. split; [now apply distinct_keys_set |].
  rewrite Forall_forall in *. intros e He.
  apply in_set in He. destruct He as [-> | He]; [reflexivity | now apply Hk].
Qed.

Lemma interval_set_add_ok (m : IntervalSet.t) (ratio : Fraction.Input) :
  interval_set_ok m -> interval_set_ok (state_after (IntervalSet.add ratio) m).
Proof.
  intros Hok. unfold state_after, IntervalSet.add, bind, lift, modify.
  destruct (Fraction.new ratio) as [f | e]; simpl; [| assumption].
  now apply interval_set_set_ok.
Qed.

Lemma interval_set_delete_ok (m : IntervalSet.t) (ratio : Fraction.Input) :
  interval_set_ok m -> interval_set_ok (state_after (IntervalSet.delete ratio) m).
Proof.
  intros Hok. unfold state_after, IntervalSet.delete, bind, lift, modify.
  destruct (Fraction.new ratio) as [f | e]; simpl; [| assumption].
  destruct Hok as [Hd Hk]. split; [now apply distinct_keys_delete |].
  rewrite Forall_forall in *. intros e He. apply Hk. eapply in_delete; eauto.
Qed.

Lemma interval_set_new_ok (ratios : option (list Fraction.Input)) (m : IntervalSet.t) :
  IntervalSet.new ratios = Ok m -> interval_set_ok m.
Proof.
  unfold IntervalSet.new, construct. intros H.
  assert (interval_set_ok (JsMap.empty Fraction.t)) as H0
    by (split; constructor).
  destruct ratios as [rs |].
  - pose proof (for_of_keeps interval_set_ok IntervalSet.add rs
                  (fun x s => @interval_set_add_ok s x) _ H0) as Hk.
    unfold state_after in Hk.
    destruct (for_of rs IntervalSet.add (JsMap.empty Fraction.t))
      as [[[] | e] s1]; simpl in *; [| discriminate].
    now injection H as <-.
  - simpl in H. now injection H as <-.
Qed.

Lemma keyed_set (m : Spectrum.t) (h : Harmonic.t) :
  keyed m -> keyed (JsMap.set (Harmonic.frequencyStr h) h m).
Proof.
  intros [Hd Hk]. split; [now apply distinct_keys_set |].
  rewrite Forall_forall in *. intros e He.
  apply in_set in He. destruct He as [-> | He]; [reflexivity | now apply Hk].
Qed.

Lemma valid_set (m : Spectrum.t) (h : Harmonic.t) :
  Harmonic.validate h = Ok tt -> valid_harmonics m ->
  valid_harmonics (JsMap.set (Harmonic.frequencyStr h) h m).
Proof.
  unfold valid_harmonics, JsMap.values. rewrite !Forall_forall.
  intros Hv Hm x Hx. apply in_map_iff in Hx. destruct Hx as [e [<- He]].
  apply in_set in He. destruct He as [-> | He]; [exact Hv |].
  apply Hm. now apply in_map.
Qed.

Lemma new_validates (args : Harmonic.Args) (h : Harmonic.t) :
  Harmonic.new args = Ok h -> Harmonic.validate h = Ok tt.
Proof.
  unfold Harmonic.new, bindr. intros H.
  destruct (match args with
            | Harmonic.OfData _ => _
            | Harmonic.OfParts _ _ _ => _
            end) as [h0 | e]; [| discriminate].
  destruct (Harmonic.validate h0) as [[] | e] eqn:E; [| discriminate].
  now injection H as <-.
Qed.

(** [add] keeps a spectrum well kept; a [Harmonic] handed over as it is
    must be valid. *)
Lemma spectrum_add_ok (m : Spectrum.t) (x : Spectrum.AddArgs) :
  (forall h, x = Spectrum.AddHarmonic h -> Harmonic.validate h = Ok tt) ->
  spectrum_ok m -> spectrum_ok (state_after (Spectrum.add x) m).
Proof.
  intros Hx [Hk Hv]. unfold state_after.
  destruct x as [h | d | f a p]; simpl.
  - split; [now apply keyed_set | apply valid_set; auto].
  - unfold bind, lift.
    destruct (Harmonic.new (Harmonic.OfData d)) as [h | e] eqn:E; simpl.
    + apply new_validates in E.
      split; [now apply keyed_set | now apply valid_set].
    + now split.
  - unfold bind, lift.
    destruct (Harmonic.new _) as [h | e] eqn:E; simpl.
    + apply new_validates in E.
      split; [now apply keyed_set | now apply valid_set].
    + now split.
Qed.

Lemma spectrum_remove_ok (m : Spectrum.t) (x : Spectrum.Ref) :
  spectrum_ok m -> spectrum_ok (state_after (Spectrum.remove x) m).
Proof.
  intros [[Hd Hk] Hv]. unfold state_after, Spectrum.remove, bind, lift, modify.
  destruct (Spectrum.key_of x) as [k | e]; simpl; [| now repeat split].
  repeat split.
  - now apply distinct_keys_delete.
  - rewrite Forall_forall in *. intros e He. apply Hk. eapply in_delete; eauto.
  - unfold valid_harmonics, JsMap.values in *. rewrite Forall_forall in *.
    intros h Hh. apply in_map_iff in Hh. destruct Hh as [e [<- He]].
    apply Hv, in_map. eapply in_delete; eauto.
Qed.

Lemma spectrum_new_ok (data : option (list Harmonic.Data)) (m : Spectrum.t) :
  Spectrum.new data = Ok m -> spectrum_ok m.
Proof.
  unfold Spectrum.new, construct. intros H.
  assert (spectrum_ok (JsMap.empty Harmonic.t)) as H0
    by (repeat split; constructor).
  destruct data as [ds |].
  - pose proof (for_of_keeps spectrum_ok
                  (fun d => Spectrum.add (Spectrum.AddData d)) ds) as Hk.
    unfold state_after in Hk. simpl in Hk.
    specialize (Hk (fun d s Hs => @spectrum_add_ok s (Spectrum.AddData d)
                                    (fun h E => ltac:(discriminate E)) Hs) _ H0).
    match type of Hk with spectrum_ok (snd ?c) =>
      destruct c as [[[] | e] s1]; simpl in *; [| discriminate] end.
    now injection H as <-.
  - simpl in H. now injection H as <-.
Qed.

(** Property X17. [transpose] by a ratio above 0 whose double compares
    with 0 and 1 as the ratio does keeps a spectrum valid and well
    keyed: every harmonic still passes [validate] and is stored under the
    key of its frequency. *)
Lemma spectrum_transpose_ok (m : Spectrum.t) (ratio : Fraction.Input) (r : Fraction.t) :
  spectrum_ok m -> Fraction.new ratio = Ok r -> (0 < r)%Qc -> double_agrees r ->
  spectrum_ok (state_after (Spectrum.transpose ratio) m).
Proof.
  intros Hok Hnew Hpos Hd.
  destruct (@transpose_moves_all m ratio r Hok Hnew Hpos Hd) as [m' [Hrun [Hok' _]]].
  unfold state_after. now rewrite Hrun.
Qed.

End Invariants.

(** ** Every object the classes make satisfies the invariants *)

Section Built.

Lemma keyed_delete (m : Spectrum.t) (k : string) :
  keyed m -> keyed (JsMap.delete k m).
Proof.
  intros [Hd Hk]. split; [now apply distinct_keys_delete |].
  rewrite Forall_forall in *. intros e He. apply Hk. eapply in_delete; eauto.
Qed.

Lemma keyed_empty : keyed (JsMap.empty Harmonic.t).
Proof. split; constructor. Qed.

Lemma keyed_add (m : Spectrum.t) (x : Spectrum.AddArgs) :
  keyed m -> keyed (state_after (Spectrum.add x) m).
Proof.
  intros Hk. unfold state_after.
  destruct x as [h | d | f a p]; simpl.
  - now apply keyed_set.
  - unfold bind, lift. destruct (Harmonic.new _) as [h | e]; simpl;
      [now apply keyed_set | assumption].
  - unfold bind, lift. destruct (Harmonic.new _) as [h | e]; simpl;
      [now apply keyed_set | assumption].
Qed.

Lemma keyed_transposeHarmonic (m : Spectrum.t) (x : Spectrum.Ref)
  (ratio : Fraction.Input) :
  keyed m -> keyed (state_after (Spectrum.transposeHarmonic x ratio) m).
Proof.
  intros Hk. unfold state_after, Spectrum.transposeHarmonic, bind, read.
  destruct (Spectrum.get x m) as [[old |] | e]; simpl; try assumption.
  unfold lift. destruct (Harmonic.toTransposed ratio old) as [h | e]; simpl;
    [| assumption].
  destruct (String.eqb _ _); simpl; [assumption |].
  now apply keyed_set, keyed_delete.
Qed.

Lemma keyed_transpose (m : Spectrum.t) (ratio : Fraction.Input) :
  keyed m -> keyed (state_after (Spectrum.transpose ratio) m).
Proof.
  intros Hk. unfold state_after, Spectrum.transpose, bind at 1, lift.
  destruct (Fraction.new ratio) as [r | e]; simpl; [| assumption].
  destruct (PrimFloat.eqb _ _); simpl; [assumption |].
  destruct (PrimFloat.leb _ _); simpl; [assumption |].
  unfold bind, read.
  destruct (PrimFloat.ltb _ _);
    apply (for_of_keeps keyed); try assumption;
    intros h s Hs; now apply keyed_transposeHarmonic.
Qed.

Lemma keyed_scaleAmplitudes (m : Spectrum.t) (factor : float) :
  keyed m -> keyed (state_after (Spectrum.scaleAmplitudes factor) m).
Proof.
  intros [Hd Hk]. unfold state_after, Spectrum.scaleAmplitudes, modify. simpl.
  split.
  - unfold distinct_keys, JsMap.keys in *. rewrite map_map. simpl. exact Hd.
  - rewrite Forall_forall in *. intros e He.
    apply in_map_iff in He. destruct He as [e0 [<- He0]]. simpl.
    now apply Hk.
Qed.

Lemma keyed_clone (m m' : Spectrum.t) : Spectrum.clone m = Ok m' -> keyed m'.
Proof.
  unfold Spectrum.clone, construct. intros H.
  assert (keyed (state_after
                   (for_of (JsMap.values m)
                      (fun harmonic =>
                         bind (lift (Harmonic.clone harmonic))
                           (fun c => Spectrum.addHarmonic c)))
                   (JsMap.empty Harmonic.t))) as Hk.
  { apply (for_of_keeps keyed); [| exact keyed_empty].
    intros h s Hs. unfold state_after, bind, lift.
    destruct (Harmonic.clone h) as [c | e]; simpl;
      [now apply keyed_set | assumption]. }
  unfold state_after in Hk.
  match type of Hk with keyed (snd ?c) =>
    destruct c as [[[] | e] s1]; simpl in *; [| discriminate] end.
  now injection H as <-.
Qed.

(** [forEach] keeps the keys; it keeps the invariant when the callback
    leaves the frequency of the harmonic alone. *)
Lemma forEach_keys (callback : string -> M Harmonic.t unit) (m : Spectrum.t) :
  JsMap.keys (state_after (Spectrum.forEach callback) m) = JsMap.keys m.
Proof.
  unfold state_after, JsMap.keys.
  induction m as [| [key harmonic] rest IH]; simpl; [reflexivity |].
  destruct (callback key harmonic) as [[u | e] harmonic']; simpl.
  - destruct (Spectrum.forEach callback rest) as [r rest']. simpl in *.
    now rewrite IH.
  - reflexivity.
Qed.

(** Property X16. For a callback that acts only on the harmonic it is
    handed (it does not call the spectrum or touch the map): when the
    callback never changes the frequency of a harmonic, [forEach] leaves
    every harmonic under the key of its frequency, also when the
    callback changes amplitudes or phases and when it throws part of the
    way. *)
Lemma keyed_forEach (callback : string -> M Harmonic.t unit) (m : Spectrum.t) :
  (forall key h,
      Harmonic.frequency (state_after (callback key) h) = Harmonic.frequency h) ->
  keyed m -> keyed (state_after (Spectrum.forEach callback) m).
Proof.
  intros Hsame [Hd Hk]. split.
  - unfold distinct_keys in *. now rewrite forEach_keys.
  - clear Hd. unfold state_after in *.
    induction m as [| [key harmonic] rest IH]; simpl; [constructor |].
    inversion Hk as [| e l He Hrest]; subst. simpl in He.
    assert (key = Harmonic.frequencyStr (snd (callback key harmonic))) as Hkey.
    { unfold Harmonic.frequencyStr. fold (Harmonic.frequency (snd (callback key harmonic))).
      rewrite (Hsame key harmonic). exact He. }
    destruct (callback key harmonic) as [[u | e] harmonic']; simpl in *.
    + specialize (IH Hrest).
      destruct (Spectrum.forEach callback rest) as [r rest']. simpl in *.
      constructor; assumption.
    + constructor; assumption.
Qed.

Lemma spectrum_built_keyed (m : Spectrum.t) : spectrum_built m -> keyed m.
Proof.
  induction 1 as [data m Hnew | x m _ IH | x m _ IH | m _ IH | x ratio m _ IH
                 | ratio m _ IH | factor m _ IH | m m' _ IH Hclone].
  - now apply spectrum_new_ok in Hnew as [Hk _].
  - now apply keyed_add.
  - unfold state_after, Spectrum.remove, bind, lift, modify.
    destruct (Spectrum.key_of x) as [k | e]; simpl;
      [now apply keyed_delete | assumption].
  - exact keyed_empty.
  - now apply keyed_transposeHarmonic.
  - now apply keyed_transpose.
  - now apply keyed_scaleAmplitudes.
  - now apply keyed_clone in Hclone.
Qed.

Lemma interval_set_empty_ok : interval_set_ok (JsMap.empty Fraction.t).
Proof. split; constructor. Qed.

Lemma range_numerators_ok (fuel : nat) :
  forall (minFraction maxFraction : Fraction.t)
         (denominator numerator maxNumerator : float) (m m' : IntervalSet.t),
    interval_set_ok m ->
    IntervalSet.range_numerators fuel minFraction maxFraction denominator
      numerator maxNumerator m = Some (Ok m') ->
    interval_set_ok m'.
Proof.
  induction fuel as [| fuel IH]; intros lo hi d n nmax m m' Hm; simpl;
    destruct (PrimFloat.leb n nmax); try discriminate;
    try (intros [= <-]; assumption).
  destruct (Fraction.of_numbers n d) as [f | e]; [| discriminate].
  apply IH. destruct (_ && _); [| assumption].
  now apply (interval_set_add_ok (Fraction.OfFraction f)).
Qed.

Lemma range_denominators_ok (fuel inner : nat) :
  forall (minFraction maxFraction : Fraction.t)
         (denominator maxDenominator : float) (m m' : IntervalSet.t),
    interval_set_ok m ->
    IntervalSet.range_denominators fuel inner minFraction maxFraction
      denominator maxDenominator m = Some (Ok m') ->
    interval_set_ok m'.
Proof.
  induction fuel as [| fuel IH]; intros lo hi d dmax m m' Hm; simpl;
    destruct (PrimFloat.leb d dmax); try discriminate;
    try (intros [= <-]; assumption).
  destruct (IntervalSet.range_numerators _ _ _ _ _ _ _) as [[m1 | e] |] eqn:E;
    try discriminate.
  apply IH. eapply range_numerators_ok; eauto.
Qed.

Lemma range_ok (fuel : nat) (min max : Fraction.Input) (maxDenominator : float)
  (m : IntervalSet.t) :
  IntervalSet.range fuel min max maxDenominator = Some (Ok m) ->
  interval_set_ok m.
Proof.
  unfold IntervalSet.range.
  destruct (PrimFloat.ltb maxDenominator 1); [discriminate |].
  destruct (Fraction.new min) as [lo | e]; [| discriminate].
  destruct (Fraction.new max) as [hi | e]; [| discriminate].
  destruct (Fraction.compare lo hi); try discriminate;
    apply range_denominators_ok, interval_set_empty_ok.
Qed.

Lemma add_number_ok (approximate : float -> result Fraction.t) (x : float)
  (m : IntervalSet.t) :
  interval_set_ok m ->
  interval_set_ok (state_after (IntervalSet.add_number approximate x) m).
Proof.
  intros Hok. unfold state_after, IntervalSet.add_number, bind, lift, modify.
  destruct (IntervalSet.of_number approximate x) as [f | e]; simpl;
    [now apply interval_set_set_ok | assumption].
Qed.

Lemma check_gap_ok (approximate : float -> result Fraction.t) (g : float)
  (sorted : list Fraction.t) (i : nat) (s : IntervalSet.t * bool) :
  interval_set_ok (fst s) ->
  interval_set_ok (fst (state_after (IntervalSet.check_gap approximate g sorted i) s)).
Proof.
  intros Hok. unfold state_after, IntervalSet.check_gap.
  destruct (nth_error sorted i) as [lo |]; [| exact Hok].
  destruct (nth_error sorted (i + 1)) as [hi |]; [| exact Hok].
  unfold bind at 1, lift.
  destruct (Fraction.div hi lo) as [q | e]; [| exact Hok].
  cbv beta iota zeta.
  destruct (PrimFloat.ltb g (Fraction.valueOf q)); [| exact Hok].
  unfold bind, IntervalSet.on_set, modify.
  pose proof (add_number_ok approximate
                (PrimFloat.sqrt (PrimFloat.mul (Fraction.valueOf lo)
                                   (Fraction.valueOf hi))) Hok) as Hadd.
  unfold state_after in Hadd.
  destruct (IntervalSet.add_number approximate _ (fst s)) as [[[] | e] m1];
    simpl in *; exact Hadd.
Qed.

Lemma densify_pass_ok (approximate : float -> result Fraction.t) (g : float)
  (s : IntervalSet.t * bool) :
  interval_set_ok (fst s) ->
  interval_set_ok (fst (state_after (IntervalSet.densify_pass approximate g) s)).
Proof.
  intros Hok. unfold IntervalSet.densify_pass, state_after, bind, receiver, modify.
  simpl.
  apply (for_of_keeps (fun s : IntervalSet.t * bool => interval_set_ok (fst s)));
    [| exact Hok].
  intros i s' Hs'. now apply check_gap_ok.
Qed.

Lemma densify_loop_ok (approximate : float -> result Fraction.t) (g : float)
  (fuel : nat) :
  forall (m m' : IntervalSet.t) (r : result unit),
    interval_set_ok m ->
    IntervalSet.densify_loop approximate fuel g m = Some (r, m') ->
    interval_set_ok m'.
Proof.
  induction fuel as [| fuel IH]; intros m m' r Hok; simpl; [discriminate |].
  pose proof (@densify_pass_ok approximate g (m, true) Hok) as Hpass.
  unfold state_after in Hpass.
  destruct (IntervalSet.densify_pass approximate g (m, true))
    as [[[] | e] [m1 [|]]]; simpl in Hpass.
  - now apply IH.
  - now intros [= _ <-].
  - now intros [= _ <-].
  - now intros [= _ <-].
Qed.

Lemma interval_set_delete_key_ok (m : IntervalSet.t) (k : string) :
  interval_set_ok m -> interval_set_ok (JsMap.delete k m).
Proof.
  intros [Hd Hk]. split; [now apply distinct_keys_delete |].
  rewrite Forall_forall in *. intros e He. apply Hk. eapply in_delete; eauto.
Qed.

Lemma minMax_ok (min max : Fraction.Input) (m : IntervalSet.t) :
  interval_set_ok m -> interval_set_ok (state_after (IntervalSet.minMax min max) m).
Proof.
  intros Hok. unfold state_after, IntervalSet.minMax, bind at 1, lift.
  destruct (Fraction.new min) as [lo | e]; simpl; [| assumption].
  unfold bind at 1. destruct (Fraction.new max) as [hi | e]; simpl; [| assumption].
  destruct (Fraction.compare lo hi); try assumption;
    unfold bind, receiver;
    apply (for_of_keeps interval_set_ok); try assumption;
    intros ratio s Hs; unfold state_after, modify, ret;
    destruct (_ || _); simpl; try assumption;
    now apply interval_set_delete_key_ok.
Qed.

Lemma affinitive_ok (context complement : Spectrum.t) (m : IntervalSet.t) :
  IntervalSet.affinitive context complement = Ok m -> interval_set_ok m.
Proof.
  unfold IntervalSet.affinitive, construct. intros H.
  match type of H with (let (_, _) := ?c ?init in _) = _ =>
    assert (interval_set_ok (state_after c init)) as Hk end.
  { apply (for_of_keeps interval_set_ok); [| exact interval_set_empty_ok].
    intros h1 s Hs.
    apply (for_of_keeps interval_set_ok); [| exact Hs].
    intros h2 s' Hs'. unfold state_after, bind, lift.
    destruct (Fraction.div _ _) as [q | e]; simpl; [| assumption].
    now apply interval_set_set_ok. }
  unfold state_after in Hk.
  match type of Hk with interval_set_ok (snd ?c) =>
    destruct c as [[[] | e] s1]; simpl in *; [| discriminate] end.
  now injection H as <-.
Qed.

Lemma interval_set_built_ok (m : IntervalSet.t) :
  interval_set_built m -> interval_set_ok m.
Proof.
  induction 1 as [ratios m Hnew | fuel lo hi d m Hrange | ratio m _ IH
                 | ratio m _ IH | context complement m Haff | lo hi m _ IH
                 | m _ IH | m m' _ IH Hclone
                 | pow approximate fuel c m r m' _ IH Hd].
  - now apply interval_set_new_ok in Hnew.
  - now apply range_ok in Hrange.
  - now apply interval_set_add_ok.
  - now apply interval_set_delete_ok.
  - now apply affinitive_ok in Haff.
  - now apply minMax_ok.
  - exact interval_set_empty_ok.
  - unfold IntervalSet.clone in Hclone.
    now apply interval_set_new_ok in Hclone.
  - unfold IntervalSet.densify in Hd.
    destruct (PrimFloat.leb c 0).
    + now injection Hd as _ <-.
    + eapply densify_loop_ok; eauto.
Qed.

End Built.

(** ** Collision-safe transposition *)

(** Property X30. For a spectrum whose harmonics are valid and stored
    under their own canonical frequency keys, and a ratio [r > 0] whose
    double [r.valueOf()] compares with 0 and 1 as [r] does,
    [transpose(r)] returns and leaves the spectrum re-keyed by [r]: the
    keys are exactly the canonical keys of the frequencies multiplied by
    [r], every moved harmonic is found under its new key with its
    amplitude and phase, and the number of entries is the same, for
    [r > 1], [r = 1] and [r < 1] alike. No entry is lost to a key that is
    taken for a moment: the loop moves the harmonics in the order in
    which the new key is always free. *)
Theorem transpose_rekeys (m : Spectrum.t) (ratio : Fraction.Input) (r : Fraction.t) :
  spectrum_ok m -> Fraction.new ratio = Ok r -> (0 < r)%Qc -> double_agrees r ->
  outcome (Spectrum.transpose ratio) m = Ok tt /\
  rekeyed r m (state_after (Spectrum.transpose ratio) m).
Proof.
  intros Hok Hnew Hpos Hd.
  destruct (@transpose_moves_all m ratio r Hok Hnew Hpos Hd) as [m' [Hrun [[Hk' _] Hp]]].
  unfold outcome, state_after. rewrite Hrun. simpl.
  split; [reflexivity |]. destruct Hok as [Hk _]. repeat split.
  - rewrite (keyed_keys Hk'). intros Hin.
    apply in_map_iff in Hin. destruct Hin as [h' [<- Hin]].
    eapply Permutation_in in Hin; [| exact Hp].
    apply in_map_iff in Hin. destruct Hin as [h [<- Hin]].
    exists h. split; [assumption | reflexivity].
  - intros [h [Hin ->]]. rewrite (keyed_keys Hk').
    change (Fraction.toFraction (Harmonic._frequency h * r)%Qc)
      with (Harmonic.frequencyStr (moved r h)).
    apply in_map. eapply Permutation_in; [symmetry; exact Hp |].
    now apply in_map.
  - intros h Hin. apply keyed_get; [assumption |].
    eapply Permutation_in; [symmetry; exact Hp |]. now apply in_map.
  - unfold Spectrum.size, JsMap.size.
    rewrite <- (length_map snd m'), <- (length_map snd m).
    fold (JsMap.values m') (JsMap.values m).
    rewrite (Permutation_length Hp). apply length_map.
Qed.

Lemma octaves_ok : spectrum_ok octaves.
Proof.
  repeat split.
  - unfold distinct_keys. vm_compute.
    repeat constructor; simpl; intuition discriminate.
  - repeat constructor.
  - repeat constructor.
Qed.

(** The octaves 1, 2 and 4 transposed by 2: the new keys of 1 and of 2
    are keys of the spectrum when the call starts. *)
Lemma transpose_rekeys_octaves :
  spectrum_ok octaves /\
  Fraction.new (Fraction.OfInteger 2) = Ok (Fraction.of_Z 2) /\
  (0 < Fraction.of_Z 2)%Qc /\ double_agrees (Fraction.of_Z 2) /\
  Spectrum.getKeys octaves = ["2"; "4"; "1"]%string /\
  Spectrum.getKeys (state_after (Spectrum.transpose (Fraction.OfInteger 2)) octaves)
    = ["8"; "4"; "2"]%string /\
  outcome (Spectrum.transpose (Fraction.OfInteger 2)) octaves = Ok tt /\
  rekeyed (Fraction.of_Z 2) octaves
    (state_after (Spectrum.transpose (Fraction.OfInteger 2)) octaves).
Proof.
  assert (spectrum_ok octaves) as H1 by exact octaves_ok.
  assert (Fraction.new (Fraction.OfInteger 2) = Ok (Fraction.of_Z 2)) as H2
    by reflexivity.
  assert (0 < Fraction.of_Z 2)%Qc as H3 by reflexivity.
  assert (double_agrees (Fraction.of_Z 2)) as H4 by (vm_compute; repeat split).
  repeat (split; [assumption |]).
  split; [reflexivity |]. split; [vm_compute; reflexivity |].
  exact (@transpose_rekeys octaves (Fraction.OfInteger 2) _ H1 H2 H3 H4).
Defined.

(** Claim C1 fails on the code for a ratio above 1 whose double is 1.
    [Spectrum.transpose] tests the double [r.valueOf()] where it means
    the ratio: for [r = (2^53 + 1) / 2^53], given as a fraction or as
    the string of one, it takes [r] for the identity, returns and leaves
    the harmonic under the key ["1"], so the keys are not the keys of
    the frequencies multiplied by [r]. [transposeHarmonic], which the
    loop would have called, compares the keys and does move the harmonic
    to ["9007199254740993/9007199254740992"] for the same ratio. *)
Theorem transpose_skips_ratio_near_one :
  spectrum_ok [entry unison] /\ (0 < near_one)%Qc /\
  Spectrum.transpose (Fraction.OfFraction near_one) [entry unison]
    = (Ok tt, [entry unison]) /\
  ~ rekeyed near_one [entry unison]
      (state_after (Spectrum.transpose (Fraction.OfFraction near_one))
         [entry unison]) /\
  Fraction.new (Fraction.OfString "9007199254740993/9007199254740992")
    = Ok near_one /\
  Spectrum.transpose (Fraction.OfString "9007199254740993/9007199254740992")
    [entry unison]
    = (Ok tt, [entry unison]) /\
  Spectrum.transposeHarmonic (Spectrum.ByHarmonic unison)
    (Fraction.OfFraction near_one) [entry unison]
    = (Ok tt, [entry (moved near_one unison)]) /\
  Harmonic.frequencyStr (moved near_one unison)
    = "9007199254740993/9007199254740992"%string.
Proof.
  split; [| split; [| split; [| split; [| split; [| split]]]]].
  - repeat split.
    + unfold distinct_keys. vm_compute.
      repeat constructor; simpl; intuition discriminate.
    + repeat constructor.
    + repeat constructor.
  - reflexivity.
  - vm_compute. reflexivity.
  - intros [_ [Hget _]].
    specialize (Hget unison (or_introl eq_refl)).
    vm_compute in Hget. discriminate.
  - vm_compute. reflexivity.
  - vm_compute. reflexivity.
  - split; vm_compute; reflexivity.
Qed.

(** The two conditions of [transpose_rekeys] on the spectrum are needed
    as well. A harmonic that [Harmonic.transpose] has left with the
    frequency 0 stops the loop half way: the harmonic at 1 has moved to
    2 when cloning the one at 0 throws. A harmonic whose frequency is no
    longer the one it was stored under is not found and stays where it
    is. *)
Lemma transpose_stops_at_invalid_harmonic :
  let m := state_after (Spectrum.add (Spectrum.AddParts (Fraction.OfInteger 1) None None))
             (state_after (Spectrum.add (Spectrum.AddHarmonic silenced))
                (JsMap.empty Harmonic.t)) in
  Spectrum.getKeys m = ["0"; "1"]%string /\
  outcome (Spectrum.transpose (Fraction.OfInteger 2)) m
    = Throw "Frequency must be positive" /\
  Spectrum.getKeys (state_after (Spectrum.transpose (Fraction.OfInteger 2)) m)
    = ["0"; "2"]%string.
Proof. vm_compute. repeat split. Qed.

Lemma transpose_skips_stale_key :
  let m := [("1"%string, Harmonic.mk (Fraction.of_Z 3) 1 0)] in
  Spectrum.transpose (Fraction.OfInteger 2) m = (Ok tt, m).
Proof. vm_compute. reflexivity. Qed.

(** ** Setters *)

(** [setAmplitude] and [setPhase] check before they assign: a refused
    value leaves the harmonic as it was. *)
Lemma setAmplitude_refused (h : Harmonic.t) (a : float) :
  Harmonic.bad_amplitude a = true ->
  Harmonic.setAmplitude a h = (Throw "Amplitude must be between 0 and 1", h).
Proof. intros H. unfold Harmonic.setAmplitude. now rewrite H. Qed.

Lemma setPhase_refused (h : Harmonic.t) (p : float) :
  Harmonic.bad_phase p = true ->
  Harmonic.setPhase p h = (Throw "Phase must be between 0 and 2π", h).
Proof. intros H. unfold Harmonic.setPhase. now rewrite H. Qed.

(** Claim C2 fails for [setFrequency], which assigns before it checks:
    [setFrequency(-1)] on the harmonic at frequency 1 throws, and the
    harmonic is left with the frequency -1, with which it no longer
    passes [validate]. *)
Theorem setFrequency_commits_before_check :
  Harmonic.validate unison = Ok tt /\
  Harmonic.frequencyStr unison = "1"%string /\
  outcome (Harmonic.setFrequency (Fraction.OfInteger (-1))) unison
    = Throw "Frequency must be positive" /\
  Harmonic.frequencyStr
    (state_after (Harmonic.setFrequency (Fraction.OfInteger (-1))) unison)
    = "-1"%string /\
  state_after (Harmonic.setFrequency (Fraction.OfInteger (-1))) unison <> unison /\
  Harmonic.validate
    (state_after (Harmonic.setFrequency (Fraction.OfInteger (-1))) unison)
    = Throw "Frequency must be positive".
Proof.
  repeat split; try reflexivity.
  intros H. apply (f_equal Harmonic.frequencyStr) in H. discriminate H.
Qed.

(** ** IntervalSet.range *)

(** Whatever [range] generates lies between the bounds: every numerator
    passes the exact comparison with both before it is added. *)
Lemma range_numerators_within (lo hi : Fraction.t) (fuel : nat) :
  forall (denominator numerator maxNumerator : float) (m m' : IntervalSet.t),
    Forall (fun f => (lo <= f <= hi)%Qc) (JsMap.values m) ->
    IntervalSet.range_numerators fuel lo hi denominator numerator maxNumerator m
    = Some (Ok m') ->
    Forall (fun f => (lo <= f <= hi)%Qc) (JsMap.values m').
Proof.
  induction fuel as [| fuel IH]; intros d n nmax m m' Hm; simpl;
    destruct (PrimFloat.leb n nmax); try discriminate;
    try (intros [= <-]; assumption).
  destruct (Fraction.of_numbers n d) as [f | e]; [| discriminate].
  apply IH.
  destruct (IntervalSet.at_least _) eqn:E1; simpl; [| assumption].
  destruct (IntervalSet.at_most _) eqn:E2; simpl; [| assumption].
  unfold state_after, IntervalSet.add, bind, lift, modify. simpl.
  unfold JsMap.values in *. rewrite Forall_forall in *.
  intros x Hx. apply in_map_iff in Hx. destruct Hx as [e [<- He]].
  apply in_set in He. destruct He as [-> | He]; [| apply Hm; now apply in_map].
  simpl. unfold Fraction.compare in E1, E2. split.
  - destruct (f ?= lo)%Qc eqn:E; try discriminate.
    + apply Qceq_alt in E. subst. apply Qcle_refl.
    + apply Qcgt_alt in E. now apply Qclt_le_weak.
  - destruct (f ?= hi)%Qc eqn:E; try discriminate.
    + apply Qceq_alt in E. subst. apply Qcle_refl.
    + apply Qclt_alt in E. now apply Qclt_le_weak.
Qed.

Lemma range_denominators_within (lo hi : Fraction.t) (fuel inner : nat) :
  forall (denominator maxDenominator : float) (m m' : IntervalSet.t),
    Forall (fun f => (lo <= f <= hi)%Qc) (JsMap.values m) ->
    IntervalSet.range_denominators fuel inner lo hi denominator maxDenominator m
    = Some (Ok m') ->
    Forall (fun f => (lo <= f <= hi)%Qc) (JsMap.values m').
Proof.
  induction fuel as [| fuel IH]; intros d dmax m m' Hm; simpl;
    destruct (PrimFloat.leb d dmax); try discriminate;
    try (intros [= <-]; assumption).
  destruct (IntervalSet.range_numerators _ _ _ _ _ _ _) as [[m1 | e] |] eqn:E;
    try discriminate.
  apply IH. eapply range_numerators_within; eauto.
Qed.

(** Property X27. Whatever the doubles of the loop bounds are, a set
    that [range(min, max, maxDenominator)] returns holds no ratio below
    [min] or above [max]. *)
Lemma range_within_bounds (fuel : nat) (min max : Fraction.Input)
  (maxDenominator : float) (lo hi : Fraction.t) (m : IntervalSet.t) :
  Fraction.new min = Ok lo -> Fraction.new max = Ok hi ->
  IntervalSet.range fuel min max maxDenominator = Some (Ok m) ->
  Forall (fun f => (lo <= f <= hi)%Qc) (JsMap.values m).
Proof.
  intros Hlo Hhi. unfold IntervalSet.range. rewrite Hlo, Hhi.
  destruct (PrimFloat.ltb maxDenominator 1); [discriminate |].
  destruct (Fraction.compare lo hi); try discriminate;
    apply range_denominators_within; constructor.
Qed.

(** Claim C3 fails where the bounds computed with doubles miss an integer:
    for [range(1, '15/11', 11)] the product [(15/11) * 11] is a double
    just below 15, its floor is 14, and the reduced fraction 15/11, with
    denominator 11 and inside the bounds, is not generated. The two
    examples of the claim hold. *)
Theorem range_misses_upper_bound :
  (exists m,
      IntervalSet.range 16 (Fraction.OfInteger 1) (Fraction.OfString "15/11") 11
      = Some (Ok m) /\
      IntervalSet.has (Fraction.OfString "15/11") m = Ok false /\
      IntervalSet.toStrings m
      = ["1"; "12/11"; "11/10"; "10/9"; "9/8"; "8/7"; "7/6"; "13/11"; "6/5";
         "11/9"; "5/4"; "14/11"; "9/7"; "13/10"; "4/3"]%string) /\
  Fraction.toFraction (Q2Qc (15 # 11)) = "15/11"%string /\
  (Fraction.of_Z 1 <= Q2Qc (15 # 11) <= Q2Qc (15 # 11))%Qc /\
  PrimFloat.mul (Fraction.valueOf (Q2Qc (15 # 11))) 11 = 0x1.dffffffffffffp+3%float /\
  (exists m,
      IntervalSet.range 4 (Fraction.OfInteger 1) (Fraction.OfInteger 3) 1
      = Some (Ok m) /\
      IntervalSet.toStrings m = ["1"; "2"; "3"]%string) /\
  (exists m,
      IntervalSet.range 4 (Fraction.OfInteger 1) (Fraction.OfInteger 2) 1
      = Some (Ok m) /\
      IntervalSet.size m = 2%nat).
Proof.
  split; [| split; [| split; [| split; [| split]]]].
  - eexists. split; [vm_compute; reflexivity |]. split; vm_compute; reflexivity.
  - vm_compute. reflexivity.
  - split; unfold Qcle, Qle; simpl; lia.
  - vm_compute. reflexivity.
  - eexists. split; [vm_compute; reflexivity |]. vm_compute. reflexivity.
  - eexists. split; [vm_compute; reflexivity |]. vm_compute. reflexivity.
Qed.

(** ** Harmonic invariants *)

(** Claim C4 fails for [transpose] (and with it [toTransposed]), which
    does not validate: [transpose(-1)] on the valid harmonic at frequency
    1 returns, and the harmonic is left with the frequency -1. *)
Theorem transpose_breaks_positive_frequency :
  Harmonic.validate unison = Ok tt /\
  outcome (Harmonic.transpose (Fraction.OfInteger (-1))) unison = Ok tt /\
  Harmonic.frequencyStr
    (state_after (Harmonic.transpose (Fraction.OfInteger (-1))) unison)
    = "-1"%string /\
  Harmonic.validate
    (state_after (Harmonic.transpose (Fraction.OfInteger (-1))) unison)
    = Throw "Frequency must be positive" /\
  (exists h, Harmonic.toTransposed (Fraction.OfInteger 0) unison = Ok h /\
             Harmonic.frequencyStr h = "0"%string).
Proof.
  repeat split; try reflexivity.
  eexists. split; reflexivity.
Qed.

(** ** Transposing there and back *)

(** Claim C5, as the code has it. For a well-kept spectrum and a ratio
    [r > 0] such that the doubles of [r] and [1/r] compare with 0 and 1
    as the ratios do, [S.clone().transpose(r).transpose(1/r)] returns a
    spectrum with the keys of [S]. *)
Theorem transpose_there_and_back (m : Spectrum.t) (r : Fraction.t) :
  spectrum_ok m -> (0 < r)%Qc -> double_agrees r -> double_agrees (/ r)%Qc ->
  exists m', there_and_back r m = Ok m' /\ same_keys m' m.
Proof.
  intros Hok Hpos Hd Hd'.
  assert (0 < / r)%Qc as Hpos'.
  { apply Qclt_alt. unfold Qccompare. simpl.
    rewrite <- Qlt_alt. apply Qlt_le_trans with (y := Qinv r).
    - apply Qinv_lt_0_compat. exact Hpos.
    - rewrite Qred_correct. apply Qle_refl. }
  destruct (@transpose_moves_all m (Fraction.OfFraction r) r Hok eq_refl Hpos Hd)
    as [m1 [Hrun1 [Hok1 Hp1]]].
  destruct (@transpose_moves_all m1 (Fraction.OfFraction (/ r)%Qc) (/ r)%Qc Hok1 eq_refl Hpos' Hd')
    as [m2 [Hrun2 [Hok2 Hp2]]].
  exists m2. split.
  - unfold there_and_back. rewrite (clone_same Hok). simpl.
    unfold construct, bind. now rewrite Hrun1, Hrun2.
  - apply keyed_same_values; [apply Hok | apply Hok2 |].
    rewrite Hp2, Hp1, map_map.
    rewrite (map_ext _ (fun h => h)), map_id; [reflexivity |].
    intros h. apply moved_back. now apply positive_nonzero.
Qed.

Lemma transpose_there_and_back_octaves :
  spectrum_ok octaves /\ (0 < Q2Qc (3 # 2))%Qc /\
  double_agrees (Q2Qc (3 # 2)) /\ double_agrees (/ Q2Qc (3 # 2))%Qc /\
  exists m', there_and_back (Q2Qc (3 # 2)) octaves = Ok m' /\ same_keys m' octaves.
Proof.
  assert (spectrum_ok octaves) as H1 by exact octaves_ok.
  assert (0 < Q2Qc (3 # 2))%Qc as H2 by reflexivity.
  assert (double_agrees (Q2Qc (3 # 2))) as H3 by (vm_compute; repeat split).
  assert (double_agrees (/ Q2Qc (3 # 2))%Qc) as H4 by (vm_compute; repeat split).
  repeat (split; [assumption |]).
  exact (@transpose_there_and_back octaves _ H1 H2 H3 H4).
Defined.

(** The claim as stated fails for a negative ratio, which is not zero:
    [transpose] refuses it, so no spectrum comes back. *)
Lemma there_and_back_negative_throws :
  Q2Qc (-1 # 1) <> 0%Qc /\
  there_and_back (Q2Qc (-1 # 1)) octaves = Throw "Ratio must be greater than 0".
Proof.
  split; [discriminate |]. vm_compute. reflexivity.
Qed.

(** ** IntervalSet.densify *)

Section DensifyFacts.
Variable Math_pow : float -> float -> float.
Variable approximate : float -> result Fraction.t.
Variable g : float.
Variable sorted : list Fraction.t.

Local Abbreviation check := (IntervalSet.check_gap approximate g sorted).

(** The gap at position [i] of the snapshot is not above the threshold. *)
Local Abbreviation closed_at :=
  (fun i : nat =>
     exists lo hi q,
       nth_error sorted i = Some lo /\ nth_error sorted (i + 1) = Some hi /\
       Fraction.div hi lo = Ok q /\
       PrimFloat.ltb g (Fraction.valueOf q) = false).

(** What one check does: nothing when the gap is closed, and otherwise
    it sets [needsMorePoints] or throws. *)
Lemma check_gap_cases (i : nat) (s : IntervalSet.t * bool) :
  (check i s = (Ok tt, s) /\ closed_at i) \/
  (exists m', check i s = (Ok tt, (m', true))) \/
  (exists e s', check i s = (Throw e, s')).
Proof.
  unfold IntervalSet.check_gap.
  destruct (nth_error sorted i) as [lo |];
    [| right; right; do 2 eexists; reflexivity].
  destruct (nth_error sorted (i + 1)) as [hi |];
    [| right; right; do 2 eexists; reflexivity].
  unfold bind, lift, IntervalSet.on_set, modify.
  destruct (Fraction.div hi lo) as [q | e] eqn:Eq;
    [| right; right; do 2 eexists; reflexivity].
  cbv beta iota zeta.
  destruct (PrimFloat.ltb g (Fraction.valueOf q)) eqn:Eg.
  - right.
    match goal with |- context [IntervalSet.add_number approximate ?x (fst s)] =>
      destruct (IntervalSet.add_number approximate x (fst s)) as [[[] | e] m1]
    end; simpl; [left | right]; eauto.
  - left. split; [reflexivity |]. exists lo, hi, q. now repeat split.
Qed.

Lemma flag_stays (n : nat) :
  forall (a : nat) (m m' : IntervalSet.t) (b : bool),
    for_of (seq a n) check (m, true) = (Ok tt, (m', b)) -> b = true.
Proof.
  induction n as [| n IH]; intros a m m' b; simpl.
  - now intros [= _ <-].
  - unfold bind at 1.
    destruct (check_gap_cases a (m, true)) as [[-> _] | [[m1 ->] | [e [s' ->]]]].
    + apply IH.
    + apply IH.
    + discriminate.
Qed.

(** A pass that ends with [needsMorePoints] false has changed nothing and
    has found every gap of the snapshot closed. *)
Lemma quiet_checks (n : nat) :
  forall (a : nat) (s : IntervalSet.t * bool) (m' : IntervalSet.t),
    for_of (seq a n) check s = (Ok tt, (m', false)) ->
    s = (m', false) /\ forall i, (a <= i < a + n)%nat -> closed_at i.
Proof.
  induction n as [| n IH]; intros a s m'; simpl.
  - intros [= ->]. split; [reflexivity | intros i Hi; lia].
  - unfold bind at 1.
    destruct (check_gap_cases a s) as [[-> Hc] | [[m1 ->] | [e [s' ->]]]].
    + intros H. destruct (IH _ _ _ H) as [-> Hrest]. split; [reflexivity |].
      intros i Hi. destruct (Nat.eq_dec i a) as [-> | Hne]; [exact Hc |].
      apply Hrest. lia.
    + intros H. apply flag_stays in H. discriminate.
    + discriminate.
Qed.

End DensifyFacts.

Section DensifyResult.
Variable Math_pow : float -> float -> float.
Variable approximate : float -> result Fraction.t.

(** The gap between the ratios at positions [i] and [i + 1] of the sorted
    sequence of [m], as the double [right.div(left).valueOf()], is not
    above [g]. *)
Local Abbreviation gap_closed :=
  (fun (g : float) (m : IntervalSet.t) (i : nat) =>
     exists lo hi q,
       nth_error (IntervalSet.getRatios m) i = Some lo /\
       nth_error (IntervalSet.getRatios m) (i + 1) = Some hi /\
       Fraction.div hi lo = Ok q /\
       PrimFloat.ltb g (Fraction.valueOf q) = false).

Lemma densify_pass_quiet (g : float) (m m' : IntervalSet.t) (b : bool) :
  IntervalSet.densify_pass approximate g (m, b) = (Ok tt, (m', false)) ->
  m' = m /\
  forall i, (i + 1 < List.length (IntervalSet.getRatios m))%nat -> gap_closed g m i.
Proof.
  unfold IntervalSet.densify_pass, bind, receiver, modify. simpl. intros H.
  apply quiet_checks in H. destruct H as [[= ->] Hc].
  split; [reflexivity |]. intros i Hi. apply Hc. lia.
Qed.

Lemma densify_loop_gaps (g : float) (fuel : nat) :
  forall m m' : IntervalSet.t,
    IntervalSet.densify_loop approximate fuel g m = Some (Ok tt, m') ->
    forall i, (i + 1 < List.length (IntervalSet.getRatios m'))%nat ->
              gap_closed g m' i.
Proof.
  induction fuel as [| fuel IH]; intros m m'; simpl; [discriminate |].
  destruct (IntervalSet.densify_pass approximate g (m, true))
    as [[[] | e] [m1 [|]]] eqn:E.
  - apply IH.
  - intros [= <-]. apply densify_pass_quiet in E. destruct E as [-> Hc].
    exact Hc.
  - discriminate.
  - discriminate.
Qed.

(** Property X28. When [densify] returns, no gap of the sorted sequence,
    as the double [right.div(left).valueOf()], is above the threshold
    [Math.pow(2, maxGapCents / 1200)]. A threshold that is not positive
    is refused and the set is left as it was ([densify_refuses]). *)
Lemma densify_gaps_closed (fuel : nat) (maxGapCents : float)
  (m m' : IntervalSet.t) :
  IntervalSet.densify Math_pow approximate fuel maxGapCents m = Some (Ok tt, m') ->
  forall i, (i + 1 < List.length (IntervalSet.getRatios m'))%nat ->
            gap_closed (Math_pow 2 (PrimFloat.div maxGapCents 1200)) m' i.
Proof.
  unfold IntervalSet.densify.
  destruct (PrimFloat.leb maxGapCents 0); [discriminate |].
  apply densify_loop_gaps.
Qed.

Lemma densify_refuses (fuel : nat) (maxGapCents : float) (m : IntervalSet.t) :
  PrimFloat.leb maxGapCents 0 = true ->
  IntervalSet.densify Math_pow approximate fuel maxGapCents m
  = Some (Throw "maxGapCents must be positive", m).
Proof. intros H. unfold IntervalSet.densify. now rewrite H. Qed.

Lemma densify_pass_wide_pair :
  IntervalSet.densify_pass approximate 1 (wide_pair, true)
  = (Ok tt, (wide_pair, true)).
Proof. vm_compute. reflexivity. Qed.

Lemma densify_loop_wide_pair (fuel : nat) :
  IntervalSet.densify_loop approximate fuel 1 wide_pair = None.
Proof.
  induction fuel as [| fuel IH]; simpl; [reflexivity |].
  now rewrite densify_pass_wide_pair.
Qed.

(** Whenever the platform's [Math.pow(2, c / 1200)] is 1, [densify(c)]
    on the two neighbouring doubles does not return. *)
Lemma densify_hangs (fuel : nat) (maxGapCents : float) :
  PrimFloat.leb maxGapCents 0 = false ->
  Math_pow 2 (PrimFloat.div maxGapCents 1200) = 1%float ->
  IntervalSet.densify Math_pow approximate fuel maxGapCents wide_pair = None.
Proof.
  intros Hpos Hpow. unfold IntervalSet.densify. rewrite Hpos, Hpow.
  apply densify_loop_wide_pair.
Qed.

End DensifyResult.

(** Claim C6 fails in its first part: [densify] does not always
    terminate. For the set of the ratios 2^53 and 2^53 + 2 and a
    threshold ratio of 1 (what [Math.pow(2, c / 1200)] is for a tiny
    positive [c]), the gap [1 + 2^-52] is above the threshold, the
    geometric mean as a double is 2^53 again, [add] finds its key in the
    map, and every pass ends as it began with [needsMorePoints] set: no
    number of passes is enough, whatever fraction.js does with doubles
    that are not integers. *)
Theorem densify_never_finishes :
  IntervalSet.new (Some [Fraction.OfInteger 9007199254740992;
                         Fraction.OfInteger 9007199254740994]) = Ok wide_pair /\
  PrimFloat.ltb 1 (Fraction.valueOf (Q2Qc (9007199254740994 # 9007199254740992)))
    = true /\
  PrimFloat.sqrt (PrimFloat.mul 9007199254740992 9007199254740994)
    = 9007199254740992%float /\
  forall (approximate : float -> result Fraction.t) (fuel : nat),
    IntervalSet.densify_loop approximate fuel 1 wide_pair = None.
Proof.
  split; [reflexivity |]. split; [vm_compute; reflexivity |].
  split; [vm_compute; reflexivity |].
  intros approximate fuel. apply densify_loop_wide_pair.
Qed.

(** ** One entry per canonical identity *)

Lemma has_after_set {V} (m : JsMap.t V) (k : string) (v : V) :
  JsMap.has k (JsMap.set k v m) = true.
Proof. unfold JsMap.has. now rewrite get_set, String.eqb_refl. Qed.

(** Whatever its signature, [add] stores the harmonic under the key of
    its frequency. *)
Lemma add_stores (x : Spectrum.AddArgs) (h : Harmonic.t) (m : Spectrum.t) :
  added x h ->
  Spectrum.add x m = (Ok tt, JsMap.set (Harmonic.frequencyStr h) h m).
Proof.
  destruct x as [g | d | frequency amplitude phase]; simpl; intros Hx.
  - now subst.
  - unfold bind, lift, Spectrum.addHarmonic. now rewrite Hx.
  - unfold bind, lift, Spectrum.addHarmonic. now rewrite Hx.
Qed.

(** Claim C7. Two inputs with the same canonical fraction [f] take one
    entry: adding the second to an interval set or to a spectrum leaves
    the keys as they were after the first, and in a spectrum the entry
    then holds the amplitude and phase of the second add; started from an
    empty set or spectrum, exactly that one entry is there. In a
    spectrum this holds for the three signatures of [add], a harmonic,
    harmonic data and a frequency with amplitude and phase, in any
    combination: two adds of harmonics with the same frequency leave the
    second harmonic in the entry of the first. With ['6/4'] and ['3/2'],
    [IntervalSet(['6/4','3/2'])] has size 1. *)
Theorem canonical_dedup
  (ratios : IntervalSet.t) (spectrum : Spectrum.t)
  (a b : Fraction.Input) (f : Fraction.t) (amp1 ph1 amp2 ph2 : float) :
  Fraction.new a = Ok f -> Fraction.new b = Ok f ->
  (let m1 := state_after (IntervalSet.add a) ratios in
   let m2 := state_after (IntervalSet.add b) m1 in
   JsMap.keys m2 = JsMap.keys m1 /\ IntervalSet.size m2 = IntervalSet.size m1 /\
   JsMap.get (Fraction.toFraction f) m2 = Some f /\
   (ratios = JsMap.empty Fraction.t -> m2 = [(Fraction.toFraction f, f)])) /\
  (Harmonic.validate (Harmonic.mk f amp1 ph1) = Ok tt ->
   Harmonic.validate (Harmonic.mk f amp2 ph2) = Ok tt ->
   let s1 := state_after
               (Spectrum.add (Spectrum.AddParts a (Some amp1) (Some ph1)))
               spectrum in
   let s2 := state_after
               (Spectrum.add (Spectrum.AddParts b (Some amp2) (Some ph2))) s1 in
   JsMap.keys s2 = JsMap.keys s1 /\ Spectrum.size s2 = Spectrum.size s1 /\
   JsMap.get (Fraction.toFraction f) s2 = Some (Harmonic.mk f amp2 ph2) /\
   (spectrum = JsMap.empty Harmonic.t ->
    s2 = [(Fraction.toFraction f, Harmonic.mk f amp2 ph2)])) /\
  (forall (x1 x2 : Spectrum.AddArgs) (h1 h2 : Harmonic.t),
     added x1 h1 -> added x2 h2 ->
     Harmonic.frequency h1 = Harmonic.frequency h2 ->
     let s1 := state_after (Spectrum.add x1) spectrum in
     let s2 := state_after (Spectrum.add x2) s1 in
     outcome (Spectrum.add x1) spectrum = Ok tt /\
     outcome (Spectrum.add x2) s1 = Ok tt /\
     JsMap.keys s2 = JsMap.keys s1 /\ Spectrum.size s2 = Spectrum.size s1 /\
     JsMap.get (Harmonic.frequencyStr h1) s1 = Some h1 /\
     JsMap.get (Harmonic.frequencyStr h1) s2 = Some h2 /\
     (spectrum = JsMap.empty Harmonic.t ->
      s2 = [(Harmonic.frequencyStr h1, h2)])) /\
  (exists m, IntervalSet.new (Some [Fraction.OfString "6/4"; Fraction.OfString "3/2"])
             = Ok m /\ IntervalSet.size m = 1%nat).
Proof.
  intros Ha Hb. split; [| split; [| split]].
  - unfold state_after, IntervalSet.add, bind, lift, modify.
    rewrite Ha, Hb. simpl. repeat split.
    + apply keys_set_present, has_true_iff, has_after_set.
    + unfold IntervalSet.size. now rewrite size_set, has_after_set.
    + now rewrite get_set, String.eqb_refl.
    + intros ->. simpl. now rewrite String.eqb_refl.
  - intros Hv1 Hv2.
    unfold state_after, Spectrum.add, bind, lift, Spectrum.addHarmonic, modify,
      Harmonic.new, bindr. simpl.
    rewrite Ha, Hb, Hv1. simpl. rewrite Hv2. simpl.
    unfold Harmonic.frequencyStr. simpl. repeat split.
    + apply keys_set_present, has_true_iff, has_after_set.
    + unfold Spectrum.size. now rewrite size_set, has_after_set.
    + now rewrite get_set, String.eqb_refl.
    + intros ->. simpl. now rewrite String.eqb_refl.
  - intros x1 x2 h1 h2 H1 H2 Hf.
    assert (Harmonic.frequencyStr h2 = Harmonic.frequencyStr h1) as Hkey
      by (unfold Harmonic.frequencyStr, Harmonic.frequency in *; now rewrite Hf).
    unfold state_after, outcome.
    rewrite (@add_stores x1 h1 spectrum H1). simpl.
    rewrite (@add_stores x2 h2 (JsMap.set (Harmonic.frequencyStr h1) h1 spectrum) H2).
    simpl. rewrite Hkey.
    split; [reflexivity |]. split; [reflexivity |].
    split; [apply keys_set_present, has_true_iff, has_after_set |].
    split; [unfold Spectrum.size; now rewrite size_set, has_after_set |].
    split; [now rewrite get_set, String.eqb_refl |].
    split; [now rewrite get_set, String.eqb_refl |].
    intros ->. simpl. now rewrite String.eqb_refl.
  - eexists. split; [vm_compute; reflexivity | reflexivity].
Qed.

Lemma make_reduces (n d n' : Z) (d' : positive) :
  d <> 0%Z -> (inject_Z n / inject_Z d == n' # d')%Q ->
  Fraction.make n d = Ok (Q2Qc (n' # d')).
Proof.
  intros Hd Heq. unfold Fraction.make.
  destruct (Z.eqb_spec d 0); [contradiction |].
  apply (f_equal Ok), Qc_is_canon. unfold Q2Qc, this.
  now rewrite !Qred_correct.
Qed.

(** A fifth written ['6/4'] and then ['3/2'], added as two frequencies
    with amplitude and phase, and added as a harmonic and then as
    harmonic data [{frequency: {n: 6, d: 4}, amplitude: 0.75, phase: 1}]. *)
Lemma canonical_dedup_fifths :
  Fraction.new (Fraction.OfString "6/4") = Ok (Q2Qc (3 # 2)) /\
  Fraction.new (Fraction.OfString "3/2") = Ok (Q2Qc (3 # 2)) /\
  Harmonic.validate (Harmonic.mk (Q2Qc (3 # 2)) 0.5 0) = Ok tt /\
  Harmonic.validate (Harmonic.mk (Q2Qc (3 # 2)) 0.75 1) = Ok tt /\
  added (Spectrum.AddHarmonic (Harmonic.mk (Q2Qc (3 # 2)) 0.5 0))
    (Harmonic.mk (Q2Qc (3 # 2)) 0.5 0) /\
  added (Spectrum.AddData (Harmonic.mkData 6 4 0.75 1))
    (Harmonic.mk (Q2Qc (3 # 2)) 0.75 1) /\
  state_after (IntervalSet.add (Fraction.OfString "3/2"))
    (state_after (IntervalSet.add (Fraction.OfString "6/4"))
       (JsMap.empty Fraction.t))
  = [("3/2"%string, Q2Qc (3 # 2))] /\
  state_after
    (Spectrum.add (Spectrum.AddParts (Fraction.OfString "3/2")
                     (Some 0.75%float) (Some 1%float)))
    (state_after
       (Spectrum.add (Spectrum.AddParts (Fraction.OfString "6/4")
                        (Some 0.5%float) (Some 0%float)))
       (JsMap.empty Harmonic.t))
  = [("3/2"%string, Harmonic.mk (Q2Qc (3 # 2)) 0.75 1)] /\
  state_after
    (Spectrum.add (Spectrum.AddData (Harmonic.mkData 6 4 0.75 1)))
    (state_after
       (Spectrum.add (Spectrum.AddHarmonic (Harmonic.mk (Q2Qc (3 # 2)) 0.5 0)))
       (JsMap.empty Harmonic.t))
  = [("3/2"%string, Harmonic.mk (Q2Qc (3 # 2)) 0.75 1)].
Proof.
  assert (Fraction.new (Fraction.OfString "6/4") = Ok (Q2Qc (3 # 2))) as H1
    by (apply (@make_reduces 6 4 3 2); [discriminate | reflexivity]).
  assert (Fraction.new (Fraction.OfString "3/2") = Ok (Q2Qc (3 # 2))) as H2
    by (apply (@make_reduces 3 2 3 2); [discriminate | reflexivity]).
  assert (Harmonic.validate (Harmonic.mk (Q2Qc (3 # 2)) 0.5 0) = Ok tt) as H3
    by reflexivity.
  assert (Harmonic.validate (Harmonic.mk (Q2Qc (3 # 2)) 0.75 1) = Ok tt) as H4
    by reflexivity.
  assert (added (Spectrum.AddHarmonic (Harmonic.mk (Q2Qc (3 # 2)) 0.5 0))
            (Harmonic.mk (Q2Qc (3 # 2)) 0.5 0)) as H5 by reflexivity.
  assert (added (Spectrum.AddData (Harmonic.mkData 6 4 0.75 1))
            (Harmonic.mk (Q2Qc (3 # 2)) 0.75 1)) as H6.
  { unfold added, Harmonic.new, Fraction.new.
    cbn [Harmonic.data_n Harmonic.data_d Harmonic.data_amplitude
         Harmonic.data_phase].
    rewrite (@make_reduces 6 4 3 2); [reflexivity | discriminate | reflexivity]. }
  repeat (split; [assumption |]).
  pose proof (@canonical_dedup (JsMap.empty Fraction.t) (JsMap.empty Harmonic.t)
                (Fraction.OfString "6/4") (Fraction.OfString "3/2") (Q2Qc (3 # 2))
                0.5%float 0%float 0.75%float 1%float H1 H2) as [Hi [Hs [Hg _]]].
  split; [| split].
  - exact (proj2 (proj2 (proj2 Hi)) eq_refl).
  - exact (proj2 (proj2 (proj2 (Hs H3 H4))) eq_refl).
  - exact (proj2 (proj2 (proj2 (proj2 (proj2 (proj2
             (Hg _ _ _ _ H5 H6 eq_refl)))))) eq_refl).
Defined.

(** ** Sorted snapshots *)

Lemma interval_set_keys (m : IntervalSet.t) :
  interval_set_ok m -> JsMap.keys m = map Fraction.toFraction (JsMap.values m).
Proof.
  intros [_ Hk]. induction m as [| [k f] m IH]; simpl; [reflexivity |].
  inversion Hk as [| ? ? Hk1 Hk2]; subst. simpl in Hk1. subst k.
  f_equal. now apply IH.
Qed.

Lemma interval_set_values_distinct (m : IntervalSet.t) :
  interval_set_ok m -> NoDup (JsMap.values m).
Proof.
  intros Hok. pose proof Hok as [Hnd _]. unfold distinct_keys in Hnd.
  rewrite (interval_set_keys Hok) in Hnd. now apply NoDup_map_inv in Hnd.
Qed.

(** Claim C8, with the condition that the spectrum holds each harmonic
    under the key of the frequency it has now. For every interval set
    that the class makes, [getRatios()] is strictly ascending by rational
    value, and for every such spectrum [getHarmonics()] is strictly
    ascending by frequency; the same entries inserted in another order
    give the same snapshot. *)
Theorem snapshots_strictly_ascending
  (m m' : IntervalSet.t) (s s' : Spectrum.t) :
  interval_set_built m -> keyed s ->
  StronglySorted Qclt (IntervalSet.getRatios m) /\
  StronglySorted (fun a b => (Harmonic.frequency a < Harmonic.frequency b)%Qc)
    (Spectrum.getHarmonics s) /\
  (Permutation m m' -> IntervalSet.getRatios m' = IntervalSet.getRatios m) /\
  (Permutation s s' -> Spectrum.getHarmonics s' = Spectrum.getHarmonics s).
Proof.
  intros Hm Hs. apply interval_set_built_ok in Hm.
  assert (NoDup (map (fun f : Fraction.t => f) (JsMap.values m))) as Hdm
    by (rewrite map_id; now apply interval_set_values_distinct).
  pose proof (keyed_frequencies Hs) as Hds.
  repeat split.
  - exact (array_sort_strict (fun f : Fraction.t => f) (JsMap.values m) Hdm).
  - exact (array_sort_strict Harmonic._frequency (JsMap.values s) Hds).
  - intros Hp. symmetry.
    apply (array_sort_order_free (fun f : Fraction.t => f)); [assumption |].
    now apply Permutation_map.
  - intros Hp. symmetry.
    apply (array_sort_order_free Harmonic._frequency); [assumption |].
    now apply Permutation_map.
Qed.

Lemma major_chord_built : interval_set_built major_chord.
Proof.
  apply (made_new (Some [Fraction.OfFraction (Q2Qc (3 # 2)); Fraction.OfInteger 1;
                         Fraction.OfInteger 2; Fraction.OfFraction (Q2Qc (5 # 4))])).
  vm_compute. reflexivity.
Qed.

(** The spectrum [octaves] is made by three calls of [add], and every
    spectrum so made is among those of the theorem. *)
Lemma octaves_built : spectrum_built octaves.
Proof.
  change octaves with
    (state_after (Spectrum.add (Spectrum.AddHarmonic (Harmonic.mk (Fraction.of_Z 1) 1 0)))
       (state_after (Spectrum.add (Spectrum.AddHarmonic (Harmonic.mk (Fraction.of_Z 4) 0.25 0)))
          (state_after (Spectrum.add (Spectrum.AddHarmonic (Harmonic.mk (Fraction.of_Z 2) 0.5 0)))
             (JsMap.empty Harmonic.t)))).
  do 3 apply built_add. now apply (built_new None).
Qed.

Lemma snapshots_strictly_ascending_samples :
  interval_set_built major_chord /\ keyed octaves /\
  StronglySorted Qclt (IntervalSet.getRatios major_chord) /\
  StronglySorted (fun a b => (Harmonic.frequency a < Harmonic.frequency b)%Qc)
    (Spectrum.getHarmonics octaves) /\
  (Permutation major_chord (rev major_chord) ->
   IntervalSet.getRatios (rev major_chord) = IntervalSet.getRatios major_chord) /\
  (Permutation octaves (rev octaves) ->
   Spectrum.getHarmonics (rev octaves) = Spectrum.getHarmonics octaves).
Proof.
  assert (interval_set_built major_chord) as H1 by exact major_chord_built.
  assert (keyed octaves) as H2 by exact (spectrum_built_keyed octaves_built).
  repeat (split; [assumption |]).
  exact (@snapshots_strictly_ascending major_chord (rev major_chord)
           octaves (rev octaves) H1 H2).
Defined.

(** The claim as stated fails for a spectrum whose harmonics a callback
    of [forEach] has retuned: after [forEach(h => h.setFrequency(5))] on
    the spectrum of the harmonics at 2, 4 and 1, the map still has the
    keys ["2"], ["4"] and ["1"], its three harmonics have the frequency
    5, and [getHarmonics()] returns them one after the other. *)
Lemma snapshot_repeats_retuned_frequency :
  spectrum_built octaves /\
  Spectrum.forEach (fun _ => Harmonic.setFrequency (Fraction.OfInteger 5)) octaves
    = (Ok tt, retuned) /\
  Spectrum.getKeys retuned = ["2"; "4"; "1"]%string /\
  map Harmonic.frequencyStr (Spectrum.getHarmonics retuned)
    = ["5"; "5"; "5"]%string /\
  ~ StronglySorted (fun a b => (Harmonic.frequency a < Harmonic.frequency b)%Qc)
      (Spectrum.getHarmonics retuned).
Proof.
  split; [exact octaves_built |].
  split; [vm_compute; reflexivity |].
  split; [vm_compute; reflexivity |].
  split; [vm_compute; reflexivity |].
  intros H.
  change (Spectrum.getHarmonics retuned)
    with [Harmonic.mk (Fraction.of_Z 5) 0.5 0; Harmonic.mk (Fraction.of_Z 5) 0.25 0;
          Harmonic.mk (Fraction.of_Z 5) 1 0] in H.
  inversion H as [| h l _ Hall]; subst.
  inversion Hall as [| h' l' Hlt _]; subst.
  exact (Qclt_not_eq _ _ Hlt eq_refl).
Qed.

(** ** Lookup by frequency *)

(** Claim C9, with the condition that the spectrum holds each harmonic
    under the key of the frequency it has now. [get], [has] and [remove]
    with a [Harmonic] argument [h] look at the frequency of [h] alone:
    the key they use is the same for every amplitude and phase, and when
    such a spectrum stores a harmonic [g] with the frequency of [h],
    whatever the amplitude and phase of [g], they find, report and remove
    [g], and [remove] leaves the others. *)
Theorem lookup_by_frequency (m : Spectrum.t) (g h : Harmonic.t) :
  keyed m -> In g (JsMap.values m) ->
  Harmonic.frequency g = Harmonic.frequency h ->
  (forall amplitude phase,
      Spectrum.key_of (Spectrum.ByHarmonic
                         (Harmonic.mk (Harmonic.frequency h) amplitude phase))
      = Spectrum.key_of (Spectrum.ByHarmonic h)) /\
  Spectrum.get (Spectrum.ByHarmonic h) m = Ok (Some g) /\
  Spectrum.has (Spectrum.ByHarmonic h) m = Ok true /\
  outcome (Spectrum.remove (Spectrum.ByHarmonic h)) m = Ok tt /\
  ~ In g (JsMap.values (state_after (Spectrum.remove (Spectrum.ByHarmonic h)) m)) /\
  Permutation (JsMap.values m)
    (g :: JsMap.values (state_after (Spectrum.remove (Spectrum.ByHarmonic h)) m)).
Proof.
  intros Hk Hin Hf. split; [reflexivity |].
  assert (Harmonic.frequencyStr h = Harmonic.frequencyStr g) as Hkey
    by (unfold Harmonic.frequencyStr, Harmonic.frequency in *; now rewrite Hf).
  pose proof (keyed_get g Hk Hin) as Hget.
  destruct (delete_present (Harmonic.frequencyStr g) g (proj1 Hk)
              (keyed_in g Hk Hin)) as [Hperm Hnot].
  unfold Spectrum.get, Spectrum.has, Spectrum.remove, outcome, state_after,
    bind, lift, modify, JsMap.has. simpl.
  rewrite Hkey, Hget.
  split; [reflexivity |]. split; [reflexivity |]. split; [reflexivity |].
  split.
  - intros Hg. apply Hnot.
    apply in_map_iff in Hg. destruct Hg as [e [He Hine]].
    assert (In e m) as Hem by (eapply in_delete; eauto).
    destruct (keyed_in_entry e Hk Hem) as [Hee _].
    rewrite He in Hee. rewrite Hee in Hine.
    change (Harmonic.frequencyStr g) with (fst (entry g)).
    now apply in_map.
  - apply (Permutation_map snd) in Hperm. exact Hperm.
Qed.

Lemma lookup_by_frequency_octaves :
  keyed octaves /\
  In (Harmonic.mk (Fraction.of_Z 2) 0.5 0) (JsMap.values octaves) /\
  Spectrum.has (Spectrum.ByHarmonic (Harmonic.mk (Fraction.of_Z 2) 1 0.25)) octaves
    = Ok true /\
  Spectrum.get (Spectrum.ByHarmonic (Harmonic.mk (Fraction.of_Z 2) 1 0.25)) octaves
    = Ok (Some (Harmonic.mk (Fraction.of_Z 2) 0.5 0)).
Proof.
  assert (keyed octaves) as H1 by exact (proj1 octaves_ok).
  assert (In (Harmonic.mk (Fraction.of_Z 2) 0.5 0) (JsMap.values octaves)) as H2
    by (simpl; tauto).
  repeat (split; [assumption |]).
  pose proof (@lookup_by_frequency octaves
                (Harmonic.mk (Fraction.of_Z 2) 0.5 0)
                (Harmonic.mk (Fraction.of_Z 2) 1 0.25) H1 H2 eq_refl) as H.
  split; [apply H | apply H].
Defined.

(** The claim as stated fails for a spectrum whose harmonics a callback
    of [forEach] has retuned: after [forEach(h => h.setFrequency(5))] on
    the spectrum of the harmonics at 2, 4 and 1, the spectrum stores a
    harmonic with the frequency 5 and the amplitude 0.5, under the key
    ["2"]; [has] and [get] with a harmonic at 5 look under the key ["5"]
    and find nothing, and [remove] leaves the stored harmonic where it
    is. *)
Lemma lookup_misses_retuned_harmonic :
  Spectrum.forEach (fun _ => Harmonic.setFrequency (Fraction.OfInteger 5)) octaves
    = (Ok tt, retuned) /\
  In (Harmonic.mk (Fraction.of_Z 5) 0.5 0) (JsMap.values retuned) /\
  Harmonic.frequency (Harmonic.mk (Fraction.of_Z 5) 0.5 0)
    = Harmonic.frequency (Harmonic.mk (Fraction.of_Z 5) 1 0) /\
  Spectrum.has (Spectrum.ByHarmonic (Harmonic.mk (Fraction.of_Z 5) 1 0)) retuned
    = Ok false /\
  Spectrum.get (Spectrum.ByHarmonic (Harmonic.mk (Fraction.of_Z 5) 1 0)) retuned
    = Ok None /\
  Spectrum.remove (Spectrum.ByHarmonic (Harmonic.mk (Fraction.of_Z 5) 1 0)) retuned
    = (Ok tt, retuned).
Proof.
  split; [vm_compute; reflexivity |].
  split; [vm_compute; tauto |].
  split; [reflexivity |].
  split; [vm_compute; reflexivity |].
  split; [vm_compute; reflexivity |].
  vm_compute; reflexivity.
Qed.

(** ** Sweep intervals *)

Section SweepFacts.
Variable ratios : list Fraction.t.

Local Abbreviation quotient :=
  (fun i => (nth i ratios 0 / nth (i - 1)%nat ratios 0)%Qc).

Lemma successor_nonzero (P : Fraction.t -> Prop) (l : list Fraction.t) :
  Forall P (removelast l) ->
  forall i x, (S i < List.length l)%nat -> nth_error l i = Some x -> P x.
Proof.
  induction l as [| y l IH]; intros HP i x Hi Hx; [simpl in Hi; lia |].
  destruct l as [| z l]; [simpl in Hi; lia |].
  change (removelast (y :: z :: l)) with (y :: removelast (z :: l)) in HP.
  inversion HP as [| ? ? Hy Hrest]; subst.
  destruct i as [| i]; simpl in Hx.
  - now injection Hx as <-.
  - apply (IH Hrest i); [simpl in *; lia | exact Hx].
Qed.

Lemma push_loop (n : nat) :
  forall (a : nat) (acc : list Fraction.t),
    (1 <= a)%nat -> (a + n <= List.length ratios)%nat ->
    (forall i x, (S i < List.length ratios)%nat ->
                 nth_error ratios i = Some x -> x <> 0%Qc) ->
    for_of (seq a n) (IntervalSet.push_interval ratios) acc
    = (Ok tt, acc ++ map quotient (seq a n)).
Proof.
  induction n as [| n IH]; intros a acc Ha Hlen Hnz; simpl.
  - now rewrite List.app_nil_r.
  - unfold bind at 1, IntervalSet.push_interval.
    rewrite (nth_error_nth' ratios 0%Qc) by lia.
    rewrite (nth_error_nth' ratios 0%Qc) by lia.
    unfold bind, lift, modify, Fraction.div.
    destruct (Qc_eq_dec (nth (a - 1)%nat ratios 0%Qc) 0%Qc) as [E | E].
    + exfalso.
      apply (Hnz (a - 1)%nat (nth (a - 1)%nat ratios 0%Qc)); [lia | | exact E].
      apply nth_error_nth'. lia.
    + rewrite IH by (try assumption; lia).
      now rewrite <- List.app_assoc.
Qed.

End SweepFacts.

(** Claim C10, as the code has it. [toSweepIntervals()] of an empty set
    is the empty list. For a set of [n > 0] ratios in which every ratio
    that has a successor in ascending order is not zero, it is a list of
    [n] fractions that starts with 1 and whose element [i], for
    [1 <= i < n], is the [i]-th sorted ratio divided by the one before. *)
Theorem sweep_intervals (m : IntervalSet.t) :
  Forall (fun f => f <> 0%Qc) (removelast (IntervalSet.getRatios m)) ->
  exists intervals,
    IntervalSet.toSweepIntervals m = Ok intervals /\
    List.length intervals = IntervalSet.size m /\
    (IntervalSet.size m = 0%nat -> intervals = []) /\
    ((0 < IntervalSet.size m)%nat ->
     nth_error intervals 0 = Some (Fraction.of_Z 1)) /\
    forall i, (1 <= i < IntervalSet.size m)%nat ->
      exists cur prev,
        nth_error (IntervalSet.getRatios m) i = Some cur /\
        nth_error (IntervalSet.getRatios m) (i - 1)%nat = Some prev /\
        nth_error intervals i = Some (cur / prev)%Qc.
Proof.
  intros Hnz.
  assert (List.length (IntervalSet.getRatios m) = IntervalSet.size m) as Hlen.
  { unfold IntervalSet.getRatios, IntervalSet.size, JsMap.size, JsMap.values.
    rewrite (array_sort_length (fun f : Fraction.t => f)). apply length_map. }
  unfold IntervalSet.toSweepIntervals, construct.
  remember (IntervalSet.getRatios m) as ratios eqn:Er.
  destruct (Nat.eqb_spec (List.length ratios) 0) as [E0 | E0].
  - exists []. simpl. repeat split; lia.
  - unfold bind, modify.
    rewrite (@push_loop ratios (List.length ratios - 1)%nat 1%nat
               ([] ++ [Fraction.of_Z 1]));
      [| lia | lia | now apply successor_nonzero].
    eexists. split; [reflexivity |]. simpl. split; [| split; [| split]].
    + rewrite length_map, length_seq. lia.
    + lia.
    + reflexivity.
    + intros i Hi. exists (nth i ratios 0%Qc), (nth (i - 1)%nat ratios 0%Qc).
      split; [apply nth_error_nth'; lia |].
      split; [apply nth_error_nth'; lia |].
      destruct i as [| i]; [lia |]. simpl.
      rewrite nth_error_map, nth_error_seq.
      destruct (Nat.ltb_spec i (List.length ratios - 1)%nat); [| lia].
      simpl. reflexivity.
Qed.

Lemma sweep_intervals_major_chord :
  Forall (fun f => f <> 0%Qc) (removelast (IntervalSet.getRatios major_chord)) /\
  exists intervals,
    IntervalSet.toSweepIntervals major_chord = Ok intervals /\
    map Fraction.toFraction intervals = ["1"; "5/4"; "6/5"; "4/3"]%string.
Proof.
  assert (Forall (fun f => f <> 0%Qc)
            (removelast (IntervalSet.getRatios major_chord))) as H1.
  { vm_compute. repeat constructor; intros H; discriminate (f_equal this H). }
  split; [assumption |].
  destruct (@sweep_intervals major_chord H1) as [intervals [Hrun _]].
  exists intervals. split; [assumption |].
  vm_compute in Hrun. injection Hrun as <-. reflexivity.
Defined.

(** The claim as stated fails for the set of the ratios 0 and 1: it is
    not empty, and dividing 1 by 0 throws. *)
Lemma sweep_intervals_zero_throws :
  IntervalSet.new (Some [Fraction.OfInteger 0; Fraction.OfInteger 1])
    = Ok zero_and_one /\
  IntervalSet.size zero_and_one = 2%nat /\
  IntervalSet.toSweepIntervals zero_and_one = Throw "Division by Zero".
Proof.
  repeat split.
Qed.

(** ** Harmonic: what its operations keep *)

Section HarmonicOperations.
Implicit Types (h : Harmonic.t) (r : Qc).

Lemma ltb_zero_asym (y : float) :
  PrimFloat.ltb 0 y = true -> PrimFloat.ltb y 0 = false.
Proof.
  rewrite !ltb_spec. change (Prim2SF 0) with (S754_zero false).
  unfold SFltb.
  destruct (Prim2SF y) as [s | s | | s m e]; simpl; try discriminate;
    destruct s; simpl; congruence.
Qed.

Lemma clamp_accepted (x : float) :
  Harmonic.bad_amplitude (Js.Math_max 0 (Js.Math_min 1 x)) = false.
Proof.
  unfold Js.Math_min.
  change (PrimFloat.is_nan 1) with false. rewrite orb_false_l.
  destruct (PrimFloat.is_nan x) eqn:Hnan; [reflexivity |].
  assert (exists y, (if PrimFloat.ltb 1 x then 1%float
                     else if PrimFloat.ltb x 1 then x
                     else if Js.is_neg_zero 1 then 1%float else x) = y /\
                    PrimFloat.is_nan y = false /\ PrimFloat.ltb 1 y = false)
    as [y [-> [Hy Hle]]].
  { destruct (PrimFloat.ltb 1 x) eqn:H1.
    - exists 1%float. repeat split.
    - exists x. split; [| split; assumption].
      destruct (PrimFloat.ltb x 1); reflexivity. }
  unfold Js.Math_max.
  change (PrimFloat.is_nan 0) with false. rewrite Hy. simpl.
  unfold Harmonic.bad_amplitude.
  destruct (PrimFloat.ltb 0 y) eqn:H0.
  - now rewrite (@ltb_zero_asym y H0), Hle.
  - destruct (PrimFloat.ltb y 0); reflexivity.
Qed.

(** Property X1. [scale(factor)] never throws and changes the amplitude
    alone; for every factor, a negative one, an infinity and NaN
    included, the amplitude it leaves passes the test of [validate]. *)
Theorem scale_clamps h (factor : float) :
  exists a,
    Harmonic.scale factor h
    = (Ok tt, Harmonic.mk (Harmonic.frequency h) a (Harmonic.phase h)) /\
    Harmonic.bad_amplitude a = false.
Proof.
  eexists. split; [reflexivity |]. apply clamp_accepted.
Qed.

(** Property X2. Starting from a harmonic that passes [validate], every
    setter that returns, [scale] with any factor, and [transpose] by a
    ratio above 0 leave a harmonic that passes [validate]. *)
Theorem operations_keep_validity h :
  Harmonic.validate h = Ok tt ->
  (forall x, outcome (Harmonic.setFrequency x) h = Ok tt ->
     Harmonic.validate (state_after (Harmonic.setFrequency x) h) = Ok tt) /\
  (forall a, outcome (Harmonic.setAmplitude a) h = Ok tt ->
     Harmonic.validate (state_after (Harmonic.setAmplitude a) h) = Ok tt) /\
  (forall p, outcome (Harmonic.setPhase p) h = Ok tt ->
     Harmonic.validate (state_after (Harmonic.setPhase p) h) = Ok tt) /\
  (forall factor,
     Harmonic.validate (state_after (Harmonic.scale factor) h) = Ok tt) /\
  (forall x r, Fraction.new x = Ok r -> (0 < r)%Qc ->
     Harmonic.transpose x h = (Ok tt, moved r h) /\
     Harmonic.validate (moved r h) = Ok tt).
Proof.
  intros Hv. pose proof Hv as Hv'. apply validate_ok in Hv' as [Hf [Ha Hp]].
  split; [| split; [| split; [| split]]].
  - intros x. unfold outcome, state_after, Harmonic.setFrequency, bind, lift,
      receiver, assign, throw, ret.
    destruct (Fraction.new x) as [f | e]; simpl; [| discriminate].
    destruct (Harmonic.not_positive (Fraction.compare f (Fraction.of_Z 0)))
      eqn:Hpos; simpl; [discriminate |].
    intros _. apply validate_ok. simpl.
    split; [now apply compare_zero_positive | split; assumption].
  - intros a. unfold outcome, state_after, Harmonic.setAmplitude, bind,
      receiver, assign, throw.
    destruct (Harmonic.bad_amplitude a) eqn:Hbad; simpl; [discriminate |].
    intros _. apply validate_ok. simpl. repeat split; assumption.
  - intros p. unfold outcome, state_after, Harmonic.setPhase, bind,
      receiver, assign, throw.
    destruct (Harmonic.bad_phase p) eqn:Hbad; simpl; [discriminate |].
    intros _. apply validate_ok. simpl. repeat split; assumption.
  - intros factor. apply validate_ok.
    unfold state_after, Harmonic.scale, bind, receiver, assign. simpl.
    split; [assumption | split; [apply clamp_accepted | assumption]].
  - intros x r Hx Hr. split.
    + unfold Harmonic.transpose, Fraction.mul, bind, lift, receiver, assign.
      rewrite Hx. reflexivity.
    + now apply validate_moved.
Qed.

Lemma operations_keep_validity_unison :
  Harmonic.validate unison = Ok tt /\
  Harmonic.validate (state_after (Harmonic.scale 4) unison) = Ok tt.
Proof.
  assert (Harmonic.validate unison = Ok tt) as H1 by reflexivity.
  split; [exact H1 |].
  exact (proj1 (proj2 (proj2 (proj2 (@operations_keep_validity unison H1))))
           4%float).
Defined.

(** Property X3. [new Harmonic(x)] with a frequency alone succeeds
    exactly when [x] is read as a fraction above 0, and gives that
    frequency the amplitude 1 and the phase 0. *)
Theorem constructor_defaults (x : Fraction.Input) h :
  Harmonic.new (Harmonic.OfParts x None None) = Ok h <->
  exists f, Fraction.new x = Ok f /\ (0 < f)%Qc /\ h = Harmonic.mk f 1 0.
Proof.
  unfold Harmonic.new, bindr. split.
  - destruct (Fraction.new x) as [f | e]; [| discriminate].
    simpl Harmonic.default.
    destruct (Harmonic.validate (Harmonic.mk f 1 0)) as [[] | e] eqn:Hv;
      [| discriminate].
    intros [= <-]. exists f. apply validate_ok in Hv as [Hf _].
    repeat split. exact Hf.
  - intros [f [-> [Hf ->]]]. simpl Harmonic.default.
    assert (Harmonic.validate (Harmonic.mk f 1 0) = Ok tt) as ->.
    { apply validate_ok. simpl. repeat split. exact Hf. }
    reflexivity.
Qed.

Lemma clone_succeeds h c :
  Harmonic.clone h = Ok c -> Harmonic.validate h = Ok tt /\ c = h.
Proof.
  intros Hc. assert (Harmonic.validate c = Ok tt) as Hv
    by (unfold Harmonic.clone in Hc; eapply new_validates; exact Hc).
  unfold Harmonic.clone, Harmonic.new, bindr in Hc. simpl in Hc.
  destruct (Harmonic.validate _) as [[] | e] in Hc; [| discriminate].
  injection Hc as <-. destruct h; simpl in *. split; [exact Hv | reflexivity].
Qed.

(** Property X4. [clone] and [toTransposed] construct a new harmonic
    from the fields of the receiver, so they succeed exactly when the
    receiver passes [validate] (and the ratio is read as a fraction):
    [clone] then returns an equal harmonic, [toTransposed] one with the
    frequency multiplied and the amplitude and phase kept. The result of
    [toTransposed] is not checked. *)
Theorem copies_check_the_source h (x : Fraction.Input) :
  (forall c, Harmonic.clone h = Ok c <-> Harmonic.validate h = Ok tt /\ c = h) /\
  (forall c, Harmonic.toTransposed x h = Ok c <->
             Harmonic.validate h = Ok tt /\
             exists r, Fraction.new x = Ok r /\ c = moved r h).
Proof.
  split; intros c.
  - split; [apply clone_succeeds | intros [Hv ->]; now apply clone_valid].
  - unfold Harmonic.toTransposed, bindr. split.
    + destruct (Harmonic.clone h) as [c' | e] eqn:Hc; [| discriminate].
      apply clone_succeeds in Hc as [Hv ->].
      unfold Harmonic.transpose, Fraction.mul, bind, lift, receiver, assign,
        bindr.
      destruct (Fraction.new x) as [r | e]; [| discriminate].
      intros [= <-]. split; [exact Hv |]. exists r. split; reflexivity.
    + intros [Hv [r [Hx ->]]]. rewrite (@clone_valid h Hv).
      unfold Harmonic.transpose, Fraction.mul, bind, lift, receiver, assign,
        bindr.
      rewrite Hx. reflexivity.
Qed.

(** Property X5. Transposing a harmonic by [a] and then by [b] is
    transposing it by the product; transposing by a ratio other than 0
    and then by its inverse gives the harmonic back. *)
Theorem transpose_composes h (a b : Fraction.Input) (fa fb : Fraction.t) :
  Fraction.new a = Ok fa -> Fraction.new b = Ok fb ->
  state_after (Harmonic.transpose b) (state_after (Harmonic.transpose a) h)
  = state_after (Harmonic.transpose (Fraction.OfFraction (fa * fb)%Qc)) h /\
  (fb = (/ fa)%Qc -> fa <> 0%Qc ->
   state_after (Harmonic.transpose b) (state_after (Harmonic.transpose a) h) = h).
Proof.
  intros Ha Hb.
  unfold state_after, Harmonic.transpose, Fraction.mul, bind, lift, receiver,
    assign, bindr.
  rewrite Ha. simpl. rewrite Hb. simpl. split.
  - f_equal. ring.
  - intros -> Hnz. destruct h as [f amp ph]. simpl. f_equal.
    rewrite <- Qcmult_assoc, Qcmult_inv_r, Qcmult_1_r by exact Hnz. reflexivity.
Qed.

Lemma transpose_composes_fifth :
  Fraction.new (Fraction.OfString "3/2") = Ok (Q2Qc (3 # 2)) /\
  Fraction.new (Fraction.OfString "2/3") = Ok (Q2Qc (2 # 3)) /\
  state_after (Harmonic.transpose (Fraction.OfString "2/3"))
    (state_after (Harmonic.transpose (Fraction.OfString "3/2")) unison)
  = state_after
      (Harmonic.transpose (Fraction.OfFraction (Q2Qc (3 # 2) * Q2Qc (2 # 3))%Qc))
      unison.
Proof.
  assert (Fraction.new (Fraction.OfString "3/2") = Ok (Q2Qc (3 # 2))) as H1
    by reflexivity.
  assert (Fraction.new (Fraction.OfString "2/3") = Ok (Q2Qc (2 # 3))) as H2
    by reflexivity.
  repeat (split; [assumption |]).
  exact (proj1 (@transpose_composes unison _ _ _ _ H1 H2)).
Defined.

End HarmonicOperations.

(** ** Spectrum: adding, looking up, removing and moving one harmonic *)

Section SpectrumEntries.
Implicit Types (m : Spectrum.t) (h g : Harmonic.t).

(** Property X6. In every spectrum that the constructor and the methods
    of the class make, the keys are distinct and are the frequency
    strings of the stored harmonics in the same order, no two harmonics
    have the same frequency, and [getHarmonics()] has [size] elements. *)
Theorem built_spectrum_invariant m :
  spectrum_built m ->
  NoDup (Spectrum.getKeys m) /\
  Spectrum.getKeys m = map Harmonic.frequencyStr (JsMap.values m) /\
  NoDup (map Harmonic.frequency (JsMap.values m)) /\
  List.length (Spectrum.getHarmonics m) = Spectrum.size m.
Proof.
  intros Hb. apply spectrum_built_keyed in Hb.
  split; [exact (proj1 Hb) |].
  split; [now apply keyed_keys |].
  split; [now apply keyed_frequencies |].
  unfold Spectrum.size, JsMap.size.
  rewrite (Permutation_length (getHarmonics_perm m)).
  apply length_map.
Qed.

Lemma built_spectrum_invariant_octaves :
  spectrum_built octaves /\
  NoDup (map Harmonic.frequency (JsMap.values octaves)).
Proof.
  assert (spectrum_built octaves) as H1 by exact octaves_built.
  split; [exact H1 |].
  exact (proj1 (proj2 (proj2 (@built_spectrum_invariant octaves H1)))).
Defined.

Lemma get_delete_other {V} (m : JsMap.t V) (k k' : string) :
  k <> k' -> JsMap.get k' (JsMap.delete k m) = JsMap.get k' m.
Proof.
  intros Hne. induction m as [| [k0 v] m IH]; simpl; [reflexivity |].
  destruct (String.eqb k0 k) eqn:E0; simpl.
  - apply String.eqb_eq in E0. subst k0.
    destruct (String.eqb k k') eqn:E1; [| reflexivity].
    apply String.eqb_eq in E1. contradiction.
  - destruct (String.eqb k0 k'); [reflexivity | exact IH].
Qed.

Lemma size_delete {V} (m : JsMap.t V) (k : string) :
  JsMap.size (JsMap.delete k m) =
  if JsMap.has k m then pred (JsMap.size m) else JsMap.size m.
Proof.
  unfold JsMap.size, JsMap.has.
  induction m as [| [k0 v] m IH]; simpl; [reflexivity |].
  destruct (String.eqb k0 k); simpl; [reflexivity |].
  rewrite IH. destruct (JsMap.get k m) eqn:Hg; [| reflexivity].
  destruct m; [discriminate | reflexivity].
Qed.

(** Property X7. After [add(h)] with a harmonic, [get(h)] returns [h],
    [has(h)] is true, the size has grown by one exactly when the
    frequency was not present, and lookups at other frequencies answer
    as before. *)
Theorem add_then_lookup m h :
  let m' := state_after (Spectrum.add (Spectrum.AddHarmonic h)) m in
  Spectrum.get (Spectrum.ByHarmonic h) m' = Ok (Some h) /\
  Spectrum.has (Spectrum.ByHarmonic h) m' = Ok true /\
  Spectrum.size m' =
    (if JsMap.has (Harmonic.frequencyStr h) m
     then Spectrum.size m else S (Spectrum.size m)) /\
  (forall g, Harmonic.frequency g <> Harmonic.frequency h ->
             Spectrum.get (Spectrum.ByHarmonic g) m'
             = Spectrum.get (Spectrum.ByHarmonic g) m).
Proof.
  unfold state_after, Spectrum.add, Spectrum.addHarmonic, modify,
    Spectrum.get, Spectrum.has, Spectrum.size, JsMap.has. simpl.
  rewrite get_set, String.eqb_refl.
  split; [reflexivity |]. split; [reflexivity |].
  split; [apply size_set |].
  intros g Hg. rewrite get_set.
  destruct (String.eqb (Harmonic.frequencyStr h) (Harmonic.frequencyStr g)) eqn:E;
    [| reflexivity].
  apply String.eqb_eq in E. apply frequencyStr_inj in E.
  exfalso. apply Hg. symmetry. exact E.
Qed.

(** Property X8. [add] with harmonic data or with a frequency,
    amplitude and phase constructs the harmonic first: either the
    harmonic passes [validate] and is stored under its frequency string,
    with the amplitude 1 and the phase 0 where they were left out, or the
    call throws and the spectrum is as it was. *)
Theorem add_checks_before_it_stores m (x : Spectrum.AddArgs) :
  (forall g, x <> Spectrum.AddHarmonic g) ->
  (exists h, Harmonic.validate h = Ok tt /\
             Spectrum.add x m = (Ok tt, JsMap.set (Harmonic.frequencyStr h) h m) /\
             forall f a p, x = Spectrum.AddParts f a p ->
                           Harmonic.amplitude h = Harmonic.default a 1 /\
                           Harmonic.phase h = Harmonic.default p 0) \/
  (exists e, Spectrum.add x m = (Throw e, m)).
Proof.
  intros Hx. destruct x as [g | d | f a p].
  - exfalso. now apply (Hx g).
  - unfold Spectrum.add, Spectrum.addHarmonic, bind, lift, modify.
    destruct (Harmonic.new (Harmonic.OfData d)) as [h | e] eqn:Hn.
    + left. exists h. split; [now apply new_validates in Hn |].
      split; [reflexivity | discriminate].
    + right. now exists e.
  - unfold Spectrum.add, Spectrum.addHarmonic, bind, lift, modify.
    destruct (Harmonic.new _) as [h | e] eqn:Hn.
    + left. exists h. split; [now apply new_validates in Hn |].
      split; [reflexivity |].
      intros f' a' p' [= <- <- <-].
      unfold Harmonic.new, bindr in Hn.
      destruct (Fraction.new f) as [q | e]; [| discriminate].
      simpl in Hn.
      destruct (Harmonic.validate _) in Hn; [| discriminate].
      injection Hn as <-. split; reflexivity.
    + right. now exists e.
Qed.

Lemma add_checks_before_it_stores_octaves :
  (forall g, Spectrum.AddParts (Fraction.OfInteger 3) None None
             <> Spectrum.AddHarmonic g) /\
  ((exists h,
       Harmonic.validate h = Ok tt /\
       Spectrum.add (Spectrum.AddParts (Fraction.OfInteger 3) None None) octaves
       = (Ok tt, JsMap.set (Harmonic.frequencyStr h) h octaves) /\
       forall f a p,
         Spectrum.AddParts (Fraction.OfInteger 3) None None
         = Spectrum.AddParts f a p ->
         Harmonic.amplitude h = Harmonic.default a 1 /\
         Harmonic.phase h = Harmonic.default p 0) \/
   (exists e,
       Spectrum.add (Spectrum.AddParts (Fraction.OfInteger 3) None None) octaves
       = (Throw e, octaves))).
Proof.
  assert (forall g, Spectrum.AddParts (Fraction.OfInteger 3) None None
                    <> Spectrum.AddHarmonic g) as H1 by discriminate.
  split; [exact H1 |].
  exact (@add_checks_before_it_stores octaves _ H1).
Defined.

(** Property X9. [remove(x)] never fails for an argument that gives a
    key: afterwards [has(x)] is false and [get(x)] is undefined, the size
    has dropped by one exactly when the key was present, a spectrum
    without the key is left as it was, and the other keys are not
    touched. *)
Theorem remove_then_lookup m (x : Spectrum.Ref) (k : string) :
  NoDup (Spectrum.getKeys m) -> Spectrum.key_of x = Ok k ->
  let m' := state_after (Spectrum.remove x) m in
  outcome (Spectrum.remove x) m = Ok tt /\
  Spectrum.has x m' = Ok false /\
  Spectrum.get x m' = Ok None /\
  Spectrum.size m' =
    (if JsMap.has k m then pred (Spectrum.size m) else Spectrum.size m) /\
  (JsMap.has k m = false -> m' = m) /\
  (forall k', k' <> k -> JsMap.get k' m' = JsMap.get k' m).
Proof.
  intros Hd Hk.
  unfold state_after, outcome, Spectrum.remove, Spectrum.has, Spectrum.get,
    bind, lift, modify, bindr. rewrite Hk. simpl.
  assert (JsMap.get k (JsMap.delete k m) = None) as Hnone.
  { apply get_none_iff. destruct (JsMap.get k m) as [v |] eqn:Hg.
    - apply get_some_in in Hg. now apply (delete_present _ _ Hd Hg).
    - apply get_none_iff in Hg. now rewrite delete_absent. }
  split; [reflexivity |].
  split; [unfold JsMap.has; now rewrite Hnone |].
  split; [now rewrite Hnone |].
  split; [apply size_delete |].
  split.
  - intros Hhas. apply delete_absent. intros Hin.
    apply has_true_iff in Hin. congruence.
  - intros k' Hne. apply get_delete_other. congruence.
Qed.

Lemma remove_then_lookup_octaves :
  NoDup (Spectrum.getKeys octaves) /\
  Spectrum.key_of (Spectrum.ByFrequency (Fraction.OfInteger 2)) = Ok "2"%string /\
  Spectrum.has (Spectrum.ByFrequency (Fraction.OfInteger 2))
    (state_after (Spectrum.remove (Spectrum.ByFrequency (Fraction.OfInteger 2)))
       octaves)
  = Ok false.
Proof.
  assert (NoDup (Spectrum.getKeys octaves)) as H1 by exact (proj1 (proj1 octaves_ok)).
  assert (Spectrum.key_of (Spectrum.ByFrequency (Fraction.OfInteger 2))
          = Ok "2"%string) as H2 by reflexivity.
  repeat (split; [assumption |]).
  exact (proj1 (proj2 (@remove_then_lookup octaves _ _ H1 H2))).
Defined.

(** Property X10. The frequency string of a harmonic, passed as a
    string, is read back to the same key: [get], [has] and [remove] with
    the string do what they do with the harmonic. So every key that
    [getKeys()] lists finds its harmonic again. *)
Theorem lookup_by_key_string m h :
  Spectrum.get (Spectrum.ByFrequency (Fraction.OfString (Harmonic.frequencyStr h))) m
  = Spectrum.get (Spectrum.ByHarmonic h) m /\
  Spectrum.has (Spectrum.ByFrequency (Fraction.OfString (Harmonic.frequencyStr h))) m
  = Spectrum.has (Spectrum.ByHarmonic h) m /\
  Spectrum.remove (Spectrum.ByFrequency (Fraction.OfString (Harmonic.frequencyStr h))) m
  = Spectrum.remove (Spectrum.ByHarmonic h) m /\
  (keyed m ->
   forall k, In k (Spectrum.getKeys m) ->
             exists g, Spectrum.get (Spectrum.ByFrequency (Fraction.OfString k)) m
                       = Ok (Some g) /\ Harmonic.frequencyStr g = k).
Proof.
  assert (forall g, Spectrum.key_of
                      (Spectrum.ByFrequency (Fraction.OfString (Harmonic.frequencyStr g)))
                    = Spectrum.key_of (Spectrum.ByHarmonic g)) as Hkey.
  { intros g. unfold Spectrum.key_of, Fraction.new, Harmonic.frequencyStr, bindr.
    now rewrite parse_toFraction. }
  unfold Spectrum.get, Spectrum.has, Spectrum.remove. rewrite !Hkey.
  repeat (split; [reflexivity |]).
  intros Hk k Hin. unfold Spectrum.getKeys in Hin.
  rewrite (keyed_keys Hk) in Hin. apply in_map_iff in Hin as [g [<- Hg]].
  exists g. rewrite Hkey. simpl. now rewrite (keyed_get g Hk Hg).
Qed.

Lemma toTransposed_parsed h (x : Fraction.Input) (r : Fraction.t) :
  Harmonic.validate h = Ok tt -> Fraction.new x = Ok r ->
  Harmonic.toTransposed x h = Ok (moved r h).
Proof.
  intros Hv Hx. unfold Harmonic.toTransposed, bindr.
  rewrite (clone_valid h Hv).
  unfold Harmonic.transpose, Fraction.mul, bind, lift, receiver, assign, bindr.
  now rewrite Hx.
Qed.

Lemma get_delete_same {V} (m : JsMap.t V) (k : string) :
  distinct_keys m -> JsMap.get k (JsMap.delete k m) = None.
Proof.
  intros Hd. apply get_none_iff. destruct (JsMap.get k m) as [v |] eqn:Hg.
  - apply get_some_in in Hg. now apply (delete_present _ _ Hd Hg).
  - apply get_none_iff in Hg. now rewrite delete_absent.
Qed.

(** Property X11. [transposeHarmonic] onto a frequency that another
    stored harmonic has replaces that harmonic: the call succeeds, the
    size drops by one, the moved harmonic is found at the new frequency
    and nothing is left at the old one. *)
Theorem transposeHarmonic_overwrites m h g (ratio : Fraction.Input)
  (r : Fraction.t) :
  keyed m -> In h (JsMap.values m) -> In g (JsMap.values m) ->
  Harmonic.validate h = Ok tt -> Fraction.new ratio = Ok r ->
  (Harmonic.frequency h * r)%Qc = Harmonic.frequency g ->
  Harmonic.frequency g <> Harmonic.frequency h ->
  let m' := state_after (Spectrum.transposeHarmonic (Spectrum.ByHarmonic h) ratio) m in
  outcome (Spectrum.transposeHarmonic (Spectrum.ByHarmonic h) ratio) m = Ok tt /\
  Spectrum.size m' = pred (Spectrum.size m) /\
  Spectrum.get (Spectrum.ByHarmonic g) m' = Ok (Some (moved r h)) /\
  Spectrum.has (Spectrum.ByHarmonic h) m' = Ok false.
Proof.
  intros Hk Hh Hg Hv Hr Hfg Hne.
  assert (Harmonic.frequencyStr (moved r h) = Harmonic.frequencyStr g) as Hnew
    by (unfold Harmonic.frequencyStr, moved; simpl;
        unfold Harmonic.frequency in Hfg; now rewrite Hfg).
  assert (String.eqb (Harmonic.frequencyStr h) (Harmonic.frequencyStr g) = false)
    as Hkeys.
  { destruct (String.eqb _ _) eqn:E; [| reflexivity].
    apply String.eqb_eq, frequencyStr_inj in E. exfalso. apply Hne.
    symmetry. exact E. }
  unfold state_after, outcome, Spectrum.transposeHarmonic, bind, read, lift,
    modify, ret. simpl.
  rewrite (keyed_get h Hk Hh), (@toTransposed_parsed h ratio r Hv Hr), Hnew, Hkeys.
  simpl.
  split; [reflexivity |].
  unfold Spectrum.size, Spectrum.has, Spectrum.get, JsMap.has. simpl.
  split; [| split].
  - rewrite size_set. unfold JsMap.has.
    rewrite get_delete_other
      by (intros E; rewrite E, String.eqb_refl in Hkeys; discriminate).
    rewrite (keyed_get g Hk Hg), size_delete. unfold JsMap.has.
    now rewrite (keyed_get h Hk Hh).
  - now rewrite get_set, String.eqb_refl.
  - rewrite get_set. rewrite String.eqb_sym, Hkeys.
    now rewrite (@get_delete_same _ m _ (proj1 Hk)).
Qed.

Lemma transposeHarmonic_overwrites_octaves :
  keyed octaves /\
  In (Harmonic.mk (Fraction.of_Z 1) 1 0) (JsMap.values octaves) /\
  In (Harmonic.mk (Fraction.of_Z 2) 0.5 0) (JsMap.values octaves) /\
  Harmonic.validate (Harmonic.mk (Fraction.of_Z 1) 1 0) = Ok tt /\
  Fraction.new (Fraction.OfInteger 2) = Ok (Fraction.of_Z 2) /\
  (Fraction.of_Z 1 * Fraction.of_Z 2)%Qc = Fraction.of_Z 2 /\
  Fraction.of_Z 2 <> Fraction.of_Z 1 /\
  Spectrum.size
    (state_after
       (Spectrum.transposeHarmonic
          (Spectrum.ByHarmonic (Harmonic.mk (Fraction.of_Z 1) 1 0))
          (Fraction.OfInteger 2)) octaves)
  = 2%nat /\
  Spectrum.get (Spectrum.ByHarmonic (Harmonic.mk (Fraction.of_Z 2) 0.5 0))
    (state_after
       (Spectrum.transposeHarmonic
          (Spectrum.ByHarmonic (Harmonic.mk (Fraction.of_Z 1) 1 0))
          (Fraction.OfInteger 2)) octaves)
  = Ok (Some (moved (Fraction.of_Z 2) (Harmonic.mk (Fraction.of_Z 1) 1 0))).
Proof.
  assert (keyed octaves) as H1 by exact (proj1 octaves_ok).
  assert (In (Harmonic.mk (Fraction.of_Z 1) 1 0) (JsMap.values octaves)) as H2
    by (simpl; tauto).
  assert (In (Harmonic.mk (Fraction.of_Z 2) 0.5 0) (JsMap.values octaves)) as H3
    by (simpl; tauto).
  assert (Harmonic.validate (Harmonic.mk (Fraction.of_Z 1) 1 0) = Ok tt) as H4
    by reflexivity.
  assert (Fraction.new (Fraction.OfInteger 2) = Ok (Fraction.of_Z 2)) as H5
    by reflexivity.
  assert ((Fraction.of_Z 1 * Fraction.of_Z 2)%Qc = Fraction.of_Z 2) as H6
    by (apply Qc_is_canon; reflexivity).
  assert (Fraction.of_Z 2 <> Fraction.of_Z 1) as H7.
  { intros E. apply (Qclt_not_eq (Fraction.of_Z 1) (Fraction.of_Z 2));
      [reflexivity | now symmetry]. }
  repeat (split; [assumption |]).
  pose proof (@transposeHarmonic_overwrites octaves _ _ (Fraction.OfInteger 2) _
                H1 H2 H3 H4 H5 H6 H7) as H.
  split; [exact (proj1 (proj2 H)) | exact (proj1 (proj2 (proj2 H)))].
Defined.

End SpectrumEntries.

(** ** The first and the last element of a sorted array *)

Section Extremes.
Variable A : Type.
Variable key : A -> Fraction.t.

Lemma array_index_first (l : list A) :
  array_index l 0 = hd_error l.
Proof. destruct l; reflexivity. Qed.

Lemma array_index_last (l : list A) (x : A) :
  array_index (l ++ [x]) (Z.of_nat (List.length (l ++ [x])) - 1) = Some x.
Proof.
  unfold array_index. rewrite length_app. simpl.
  replace (Z.of_nat (List.length l + 1) - 1)%Z with (Z.of_nat (List.length l))
    by lia.
  destruct (Z.of_nat (List.length l) <? 0)%Z eqn:E; [apply Z.ltb_lt in E; lia |].
  rewrite Nat2Z.id, nth_error_app2, Nat.sub_diag by lia. reflexivity.
Qed.

Lemma array_index_last_none (l : list A) :
  array_index l (Z.of_nat (List.length l) - 1) = None <-> l = [].
Proof.
  split; [| intros ->; reflexivity].
  destruct l as [| a l] using rev_ind; [reflexivity |].
  now rewrite array_index_last.
Qed.

Lemma sorted_snoc_bound (l : list A) (x : A) :
  StronglySorted (key_le key) (l ++ [x]) ->
  Forall (fun y => (key y <= key x)%Qc) (l ++ [x]).
Proof.
  induction l as [| a l IH]; simpl; intros Hs.
  - constructor; [apply Qcle_refl | constructor].
  - inversion Hs as [| ? ? Hs' Hall]; subst.
    constructor; [| now apply IH].
    rewrite Forall_forall in Hall. apply Hall, in_or_app. right. now left.
Qed.

Lemma lowest_of_sorted (l : list A) (x : A) :
  StronglySorted (key_le key) l -> array_index l 0 = Some x ->
  In x l /\ Forall (fun y => (key x <= key y)%Qc) l.
Proof.
  intros Hs. rewrite array_index_first.
  destruct l as [| a l]; [discriminate |]. intros [= ->].
  split; [now left |].
  inversion Hs as [| ? ? _ Hall]; subst.
  constructor; [apply Qcle_refl | exact Hall].
Qed.

Lemma highest_of_sorted (l : list A) (x : A) :
  StronglySorted (key_le key) l ->
  array_index l (Z.of_nat (List.length l) - 1) = Some x ->
  In x l /\ Forall (fun y => (key y <= key x)%Qc) l.
Proof.
  intros Hs. destruct l as [| a l] using rev_ind; [discriminate |].
  rewrite array_index_last. intros [= ->].
  split; [apply in_or_app; right; now left |].
  now apply sorted_snoc_bound.
Qed.

End Extremes.

Section SpectrumExtremes.
Implicit Types (m : Spectrum.t) (h : Harmonic.t).

Lemma getHarmonics_sorted m :
  StronglySorted (key_le Harmonic._frequency) (Spectrum.getHarmonics m).
Proof. apply (array_sort_sorted Harmonic._frequency). Qed.

Lemma getHarmonics_nil m : Spectrum.getHarmonics m = [] <-> m = [].
Proof.
  split; [| intros ->; reflexivity].
  intros H. pose proof (Permutation_length (getHarmonics_perm m)) as Hl.
  rewrite H in Hl. unfold JsMap.values in Hl. rewrite length_map in Hl.
  destruct m; [reflexivity | discriminate].
Qed.

(** Property X12. [getLowestHarmonic()] and [getHighestHarmonic()] are
    undefined exactly for the empty spectrum; otherwise they return
    stored harmonics whose frequencies bound those of every stored
    harmonic from below and from above. *)
Theorem lowest_and_highest m :
  (Spectrum.getLowestHarmonic m = None <-> Spectrum.isEmpty m = true) /\
  (Spectrum.getHighestHarmonic m = None <-> Spectrum.isEmpty m = true) /\
  (forall lo, Spectrum.getLowestHarmonic m = Some lo ->
     In lo (JsMap.values m) /\
     forall h, In h (JsMap.values m) ->
               (Harmonic.frequency lo <= Harmonic.frequency h)%Qc) /\
  (forall hi, Spectrum.getHighestHarmonic m = Some hi ->
     In hi (JsMap.values m) /\
     forall h, In h (JsMap.values m) ->
               (Harmonic.frequency h <= Harmonic.frequency hi)%Qc).
Proof.
  assert (Spectrum.isEmpty m = true <-> m = []) as Hempty.
  { unfold Spectrum.isEmpty, Spectrum.size, JsMap.size.
    rewrite Nat.eqb_eq. destruct m; simpl; split; congruence. }
  unfold Spectrum.getLowestHarmonic, Spectrum.getHighestHarmonic.
  split; [| split; [| split]].
  - rewrite Hempty, array_index_first, <- getHarmonics_nil.
    destruct (Spectrum.getHarmonics m); simpl; split; congruence.
  - rewrite Hempty, array_index_last_none. apply getHarmonics_nil.
  - intros lo Hlo.
    destruct (lowest_of_sorted (getHarmonics_sorted m) Hlo) as [Hin Hall].
    split; [eapply Permutation_in; [apply getHarmonics_perm | exact Hin] |].
    intros h Hh. rewrite Forall_forall in Hall. apply Hall.
    eapply Permutation_in; [symmetry; apply getHarmonics_perm | exact Hh].
  - intros hi Hhi.
    destruct (highest_of_sorted (getHarmonics_sorted m) Hhi) as [Hin Hall].
    split; [eapply Permutation_in; [apply getHarmonics_perm | exact Hin] |].
    intros h Hh. rewrite Forall_forall in Hall.
    apply (Hall h).
    eapply Permutation_in; [symmetry; apply getHarmonics_perm | exact Hh].
Qed.

End SpectrumExtremes.

Section IntervalSetExtremes.
Implicit Types (m : IntervalSet.t) (f : Fraction.t).

Lemma getRatios_sorted m :
  StronglySorted (key_le (fun f : Fraction.t => f)) (IntervalSet.getRatios m).
Proof. apply (array_sort_sorted (fun f : Fraction.t => f)). Qed.

Lemma getRatios_perm m : Permutation (IntervalSet.getRatios m) (JsMap.values m).
Proof. apply (array_sort_perm (fun f : Fraction.t => f)). Qed.

Lemma getRatios_nil m : IntervalSet.getRatios m = [] <-> m = [].
Proof.
  split; [| intros ->; reflexivity].
  intros H. pose proof (Permutation_length (getRatios_perm m)) as Hl.
  rewrite H in Hl. unfold JsMap.values in Hl. rewrite length_map in Hl.
  destruct m; [reflexivity | discriminate].
Qed.

(** Property X23. [min()] and [max()] are undefined exactly for the
    empty set; otherwise they return ratios of the set that bound every
    ratio of the set from below and from above. *)
Theorem min_and_max m :
  (IntervalSet.min m = None <-> IntervalSet.isEmpty m = true) /\
  (IntervalSet.max m = None <-> IntervalSet.isEmpty m = true) /\
  (forall lo, IntervalSet.min m = Some lo ->
     In lo (JsMap.values m) /\
     forall f, In f (JsMap.values m) -> (lo <= f)%Qc) /\
  (forall hi, IntervalSet.max m = Some hi ->
     In hi (JsMap.values m) /\
     forall f, In f (JsMap.values m) -> (f <= hi)%Qc).
Proof.
  assert (IntervalSet.isEmpty m = true <-> m = []) as Hempty.
  { unfold IntervalSet.isEmpty, JsMap.size.
    rewrite Nat.eqb_eq. destruct m; simpl; split; congruence. }
  unfold IntervalSet.min, IntervalSet.max, array_at.
  change (0 <? 0)%Z with false. change (-1 <? 0)%Z with true.
  cbv beta iota.
  change (Z.of_nat (List.length (IntervalSet.getRatios m)) + -1)%Z
    with (Z.of_nat (List.length (IntervalSet.getRatios m)) - 1)%Z.
  split; [| split; [| split]].
  - rewrite Hempty, array_index_first, <- getRatios_nil.
    destruct (IntervalSet.getRatios m); simpl; split; congruence.
  - rewrite Hempty, array_index_last_none. apply getRatios_nil.
  - intros lo Hlo.
    destruct (lowest_of_sorted (getRatios_sorted m) Hlo) as [Hin Hall].
    split; [eapply Permutation_in; [apply getRatios_perm | exact Hin] |].
    intros f Hf. rewrite Forall_forall in Hall. apply Hall.
    eapply Permutation_in; [symmetry; apply getRatios_perm | exact Hf].
  - intros hi Hhi.
    destruct (highest_of_sorted (getRatios_sorted m) Hhi) as [Hin Hall].
    split; [eapply Permutation_in; [apply getRatios_perm | exact Hin] |].
    intros f Hf. rewrite Forall_forall in Hall. apply (Hall f).
    eapply Permutation_in; [symmetry; apply getRatios_perm | exact Hf].
Qed.

End IntervalSetExtremes.

(** ** Spectrum: operations on every harmonic *)

Section SpectrumWhole.
Implicit Types (m : Spectrum.t) (h g : Harmonic.t).

Lemma clone_loop_valid (hs : list Harmonic.t) :
  forall acc acc' : Spectrum.t,
    for_of hs (fun harmonic =>
                 bind (lift (Harmonic.clone harmonic))
                   (fun c => Spectrum.addHarmonic c)) acc = (Ok tt, acc') ->
    Forall (fun h => Harmonic.validate h = Ok tt) hs.
Proof.
  induction hs as [| h hs IH]; intros acc acc' H; [constructor |].
  simpl in H. unfold bind at 1 2, lift in H.
  destruct (Harmonic.clone h) as [c | e] eqn:Hc; [| discriminate].
  apply clone_succeeds in Hc as [Hv ->].
  constructor; [exact Hv |].
  simpl in H. eapply IH. exact H.
Qed.

(** Property X14. [clone()] of a spectrum that holds its harmonics
    under their own keys succeeds exactly when every stored harmonic
    passes [validate], and the copy then has the same entries in the
    same order. *)
Theorem clone_copies_valid_spectrum m m' :
  keyed m ->
  (Spectrum.clone m = Ok m' <-> valid_harmonics m /\ m' = m).
Proof.
  intros Hk. split.
  - intros Hc.
    assert (valid_harmonics m) as Hv.
    { unfold Spectrum.clone, construct in Hc.
      destruct (for_of _ _ _) as [[[] | e] acc'] eqn:Hloop; [| discriminate].
      eapply clone_loop_valid. exact Hloop. }
    split; [exact Hv |].
    rewrite (@clone_same m (conj Hk Hv)) in Hc. now injection Hc.
  - intros [Hv ->]. now apply clone_same.
Qed.

Lemma clone_copies_valid_spectrum_octaves :
  keyed octaves /\ Spectrum.clone octaves = Ok octaves.
Proof.
  assert (keyed octaves) as H1 by exact (proj1 octaves_ok).
  split; [exact H1 |].
  exact (proj2 (@clone_copies_valid_spectrum octaves octaves H1)
           (conj (proj2 octaves_ok) eq_refl)).
Defined.

(** Property X13. [scaleAmplitudes(factor)] never throws; it keeps the
    keys, the frequencies and the phases, leaves every amplitude one that
    [validate] accepts, and keeps a valid, well-keyed spectrum so. *)
Theorem scaleAmplitudes_clamps m (factor : float) :
  let m' := state_after (Spectrum.scaleAmplitudes factor) m in
  outcome (Spectrum.scaleAmplitudes factor) m = Ok tt /\
  Spectrum.getKeys m' = Spectrum.getKeys m /\
  map Harmonic.frequency (JsMap.values m')
    = map Harmonic.frequency (JsMap.values m) /\
  map Harmonic.phase (JsMap.values m') = map Harmonic.phase (JsMap.values m) /\
  Forall (fun h => Harmonic.bad_amplitude (Harmonic.amplitude h) = false)
    (JsMap.values m') /\
  (spectrum_ok m -> spectrum_ok m').
Proof.
  unfold state_after, outcome, Spectrum.scaleAmplitudes, modify,
    Spectrum.getKeys, JsMap.keys, JsMap.values. simpl.
  rewrite !map_map. simpl.
  split; [reflexivity |]. split; [reflexivity |].
  split; [reflexivity |]. split; [reflexivity |].
  assert (Forall
            (fun h => Harmonic.bad_amplitude (Harmonic.amplitude h) = false)
            (map (fun e : string * Harmonic.t =>
                    snd (Harmonic.scale factor (snd e))) m)) as Hamp.
  { apply Forall_forall. intros h Hh.
    apply in_map_iff in Hh as [e [<- _]]. apply clamp_accepted. }
  split; [exact Hamp |].
  intros [Hk Hv]. split.
  - exact (keyed_scaleAmplitudes factor Hk).
  - unfold valid_harmonics, JsMap.values in *. rewrite map_map. simpl.
    apply Forall_forall. intros h Hh.
    apply in_map_iff in Hh as [e [<- He]].
    rewrite Forall_forall in Hv.
    assert (Harmonic.validate (snd e) = Ok tt) as Hve
      by (apply Hv; now apply in_map).
    apply validate_ok in Hve as [Hf [_ Hp]].
    apply validate_ok. simpl.
    split; [exact Hf | split; [apply clamp_accepted | exact Hp]].
Qed.

Section FromFrequencies.
Variables amplitudes phases : option (list float).

Local Abbreviation step :=
  (fun (frequency : Fraction.Input) (i : nat) =>
     Spectrum.add
       (Spectrum.AddParts frequency
          (Some (Harmonic.default (Spectrum.optional_at amplitudes i) 1))
          (Some (Harmonic.default (Spectrum.optional_at phases i) 0)))).

Lemma has_set_keeps {V} (acc : JsMap.t V) (k k' : string) (v : V) :
  JsMap.has k acc = true -> JsMap.has k (JsMap.set k' v acc) = true.
Proof.
  unfold JsMap.has. rewrite get_set.
  destruct (String.eqb k' k); [reflexivity | tauto].
Qed.

Lemma fromFrequencies_loop (frequencies : list Fraction.Input) :
  forall (first : nat) (acc m : Spectrum.t),
    forEach_from first frequencies step acc = (Ok tt, m) ->
    spectrum_ok acc -> spectrum_built acc ->
    spectrum_ok m /\ spectrum_built m /\
    (forall k, JsMap.has k acc = true -> JsMap.has k m = true) /\
    (forall x, In x frequencies ->
               Spectrum.has (Spectrum.ByFrequency x) m = Ok true) /\
    (forall h, In h (JsMap.values m) ->
               In h (JsMap.values acc) \/
               exists i x,
                 nth_error frequencies i = Some x /\
                 Fraction.new x = Ok (Harmonic.frequency h) /\
                 Harmonic.amplitude h
                   = Harmonic.default
                       (Spectrum.optional_at amplitudes (first + i)) 1 /\
                 Harmonic.phase h
                   = Harmonic.default
                       (Spectrum.optional_at phases (first + i)) 0).
Proof.
  induction frequencies as [| x xs IH]; intros first acc m Hrun Hok Hbuilt.
  - injection Hrun as <-.
    split; [exact Hok |]. split; [exact Hbuilt |]. split; [tauto |].
    split; [intros x [] | tauto].
  - simpl in Hrun. unfold bind at 1 in Hrun.
    pose proof (@spectrum_add_ok acc
                  (Spectrum.AddParts x
                     (Some (Harmonic.default (Spectrum.optional_at amplitudes first) 1))
                     (Some (Harmonic.default (Spectrum.optional_at phases first) 0))))
      as Hok1.
    pose proof (built_add
                  (Spectrum.AddParts x
                     (Some (Harmonic.default (Spectrum.optional_at amplitudes first) 1))
                     (Some (Harmonic.default (Spectrum.optional_at phases first) 0)))
                  Hbuilt) as Hbuilt1.
    unfold state_after in Hok1, Hbuilt1.
    unfold Spectrum.add, Spectrum.addHarmonic, bind, lift, modify in Hrun, Hok1, Hbuilt1.
    destruct (Harmonic.new _) as [h |] eqn:Hnew; [| discriminate].
    simpl in Hrun, Hok1, Hbuilt1.
    specialize (Hok1 ltac:(discriminate) Hok).
    destruct (IH _ _ _ Hrun Hok1 Hbuilt1) as [Hm [Hbm [Hmono [Hhas Hfrom]]]].
    assert (Fraction.new x = Ok (Harmonic.frequency h) /\
            Harmonic.amplitude h
              = Harmonic.default (Spectrum.optional_at amplitudes first) 1 /\
            Harmonic.phase h
              = Harmonic.default (Spectrum.optional_at phases first) 0) as Hh.
    { unfold Harmonic.new, bindr in Hnew.
      destruct (Fraction.new x) as [q | e]; [| discriminate].
      simpl in Hnew.
      destruct (Harmonic.validate _) in Hnew; [| discriminate].
      injection Hnew as <-. repeat split. }
    split; [exact Hm |]. split; [exact Hbm |].
    split; [| split].
    + intros k Hk. apply Hmono. now apply has_set_keeps.
    + intros y [<- | Hy]; [| now apply Hhas].
      unfold Spectrum.has, Spectrum.key_of, bindr.
      rewrite (proj1 Hh). f_equal. apply Hmono.
      apply has_after_set.
    + intros g Hg. destruct (Hfrom g Hg) as [Hin | [i [y [Hy [Hn [Ha Hp]]]]]].
      * unfold JsMap.values in Hin. apply in_map_iff in Hin as [e [<- He]].
        apply in_set in He as [-> | He].
        -- right. exists 0%nat, x. rewrite Nat.add_0_r. simpl.
           split; [reflexivity | exact Hh].
        -- left. now apply in_map.
      * right. exists (S i), y. rewrite Nat.add_succ_r. simpl.
        repeat split; assumption.
Qed.

End FromFrequencies.

(** Property X15. When [Spectrum.fromFrequencies] returns, the spectrum
    is valid and well keyed, it has every frequency of the list, and each
    of its harmonics comes from a position of the list, with the
    amplitude and the phase given for that position, or 1 and 0 where
    none is given. *)
Theorem fromFrequencies_result (frequencies : list Fraction.Input)
  (amplitudes phases : option (list float)) m :
  Spectrum.fromFrequencies frequencies amplitudes phases = Ok m ->
  spectrum_ok m /\
  (forall x, In x frequencies ->
             Spectrum.has (Spectrum.ByFrequency x) m = Ok true) /\
  (forall h, In h (JsMap.values m) ->
     exists i x,
       nth_error frequencies i = Some x /\
       Fraction.new x = Ok (Harmonic.frequency h) /\
       Harmonic.amplitude h
         = Harmonic.default (Spectrum.optional_at amplitudes i) 1 /\
       Harmonic.phase h
         = Harmonic.default (Spectrum.optional_at phases i) 0).
Proof.
  unfold Spectrum.fromFrequencies, array_forEach. simpl. unfold construct.
  destruct (forEach_from _ _ _ _) as [[[] | e] m0] eqn:Hrun; [| discriminate].
  intros [= <-].
  destruct (@fromFrequencies_loop amplitudes phases frequencies 0%nat
              (JsMap.empty Harmonic.t) m0 Hrun)
    as [Hok [_ [_ [Hhas Hfrom]]]].
  - split; [exact keyed_empty | constructor].
  - now apply (built_new None).
  - split; [exact Hok |]. split; [exact Hhas |].
    intros h Hh. destruct (Hfrom h Hh) as [[] | Hl]. exact Hl.
Qed.

Lemma fromFrequencies_result_fifth :
  exists m,
    Spectrum.fromFrequencies [Fraction.OfInteger 1; Fraction.OfString "3/2"]
      (Some [0.5%float]) None = Ok m /\
    spectrum_ok m /\
    Spectrum.has (Spectrum.ByFrequency (Fraction.OfString "3/2")) m = Ok true.
Proof.
  eexists. split; [vm_compute; reflexivity |].
  match goal with |- spectrum_ok ?m /\ _ =>
    pose proof (@fromFrequencies_result
                  [Fraction.OfInteger 1; Fraction.OfString "3/2"]
                  (Some [0.5%float]) None m ltac:(vm_compute; reflexivity)) as H
  end.
  split; [exact (proj1 H) |].
  apply (proj1 (proj2 H)). simpl. tauto.
Defined.

(** [forEach] with a callback that sets the amplitude, and [transpose] by
    a fifth, on the spectrum of the octaves. *)
Lemma keyed_forEach_octaves :
  (forall (key : string) (h : Harmonic.t),
      Harmonic.frequency (state_after (Harmonic.setAmplitude 0.5) h)
      = Harmonic.frequency h) /\
  keyed octaves /\
  keyed (state_after (Spectrum.forEach (fun _ => Harmonic.setAmplitude 0.5))
           octaves).
Proof.
  assert (forall (key : string) (h : Harmonic.t),
             Harmonic.frequency (state_after (Harmonic.setAmplitude 0.5) h)
             = Harmonic.frequency h) as H1 by reflexivity.
  assert (keyed octaves) as H2 by exact (proj1 octaves_ok).
  repeat (split; [assumption |]).
  exact (@keyed_forEach (fun _ => Harmonic.setAmplitude 0.5) octaves H1 H2).
Defined.

Lemma spectrum_transpose_ok_octaves :
  spectrum_ok octaves /\
  Fraction.new (Fraction.OfString "3/2") = Ok (Q2Qc (3 # 2)) /\
  (0 < Q2Qc (3 # 2))%Qc /\ double_agrees (Q2Qc (3 # 2)) /\
  spectrum_ok (state_after (Spectrum.transpose (Fraction.OfString "3/2")) octaves).
Proof.
  assert (spectrum_ok octaves) as H1 by exact octaves_ok.
  assert (Fraction.new (Fraction.OfString "3/2") = Ok (Q2Qc (3 # 2))) as H2
    by reflexivity.
  assert (0 < Q2Qc (3 # 2))%Qc as H3 by reflexivity.
  assert (double_agrees (Q2Qc (3 # 2))) as H4 by (vm_compute; repeat split).
  repeat (split; [assumption |]).
  exact (@spectrum_transpose_ok octaves (Fraction.OfString "3/2") _ H1 H2 H3 H4).
Defined.

End SpectrumWhole.

(** ** IntervalSet: adding, looking up, deleting, copying and comparing *)

Section IntervalSetEntries.
Implicit Types (m : IntervalSet.t) (f g : Fraction.t).

Lemma set_set_same {V} (acc : JsMap.t V) (k : string) (v : V) :
  JsMap.set k v (JsMap.set k v acc) = JsMap.set k v acc.
Proof.
  induction acc as [| [k0 v0] acc IH]; simpl.
  - now rewrite String.eqb_refl.
  - destruct (String.eqb k0 k) eqn:E; simpl.
    + now rewrite String.eqb_refl.
    + now rewrite E, IH.
Qed.

Lemma delete_appended {V} (acc : JsMap.t V) (k : string) (v : V) :
  ~ In k (JsMap.keys acc) -> JsMap.delete k (acc ++ [(k, v)]) = acc.
Proof.
  induction acc as [| [k0 v0] acc IH]; simpl; intros Hk.
  - now rewrite String.eqb_refl.
  - destruct (String.eqb k0 k) eqn:E.
    + apply String.eqb_eq in E. tauto.
    + f_equal. apply IH. tauto.
Qed.

(** Property X18. After [add(x)] for an [x] read as the fraction [f],
    [has(x)] is true and [get(x)] returns [f], the size has grown by one
    exactly when [f] was not present, adding [x] again changes nothing,
    and lookups of other fractions answer as before. *)
Theorem interval_add_then_lookup m (x : Fraction.Input) f :
  Fraction.new x = Ok f ->
  let m' := state_after (IntervalSet.add x) m in
  outcome (IntervalSet.add x) m = Ok tt /\
  IntervalSet.has x m' = Ok true /\
  IntervalSet.get x m' = Ok (Some f) /\
  IntervalSet.size m' =
    (if JsMap.has (Fraction.toFraction f) m
     then IntervalSet.size m else S (IntervalSet.size m)) /\
  state_after (IntervalSet.add x) m' = m' /\
  (forall y g, Fraction.new y = Ok g -> g <> f ->
               IntervalSet.get y m' = IntervalSet.get y m).
Proof.
  intros Hx.
  unfold state_after, outcome, IntervalSet.add, IntervalSet.has,
    IntervalSet.get, IntervalSet.size, bind, lift, modify, bindr.
  rewrite Hx. simpl. unfold JsMap.has.
  rewrite get_set, String.eqb_refl.
  repeat (split; [reflexivity |]).
  split; [apply size_set |].
  split; [apply set_set_same |].
  intros y g -> Hne. rewrite get_set.
  destruct (String.eqb (Fraction.toFraction f) (Fraction.toFraction g)) eqn:E;
    [| reflexivity].
  apply toFraction_eqb in E. congruence.
Qed.

Lemma interval_add_then_lookup_major_chord :
  Fraction.new (Fraction.OfInteger 3) = Ok (Fraction.of_Z 3) /\
  IntervalSet.get (Fraction.OfInteger 3)
    (state_after (IntervalSet.add (Fraction.OfInteger 3)) major_chord)
  = Ok (Some (Fraction.of_Z 3)).
Proof.
  assert (Fraction.new (Fraction.OfInteger 3) = Ok (Fraction.of_Z 3)) as H1
    by reflexivity.
  split; [exact H1 |].
  exact (proj1 (proj2 (proj2 (@interval_add_then_lookup major_chord _ _ H1)))).
Defined.

(** Property X19. After [delete(x)], [has(x)] is false, the size has
    dropped by one exactly when the ratio was present and the other
    ratios are still there; deleting a ratio that is absent changes
    nothing, and deleting a ratio just added to a set that lacked it
    gives the set back. *)
Theorem interval_delete_undoes_add m (x : Fraction.Input) f :
  interval_set_ok m -> Fraction.new x = Ok f ->
  let m' := state_after (IntervalSet.delete x) m in
  outcome (IntervalSet.delete x) m = Ok tt /\
  IntervalSet.has x m' = Ok false /\
  IntervalSet.size m' =
    (if JsMap.has (Fraction.toFraction f) m
     then pred (IntervalSet.size m) else IntervalSet.size m) /\
  (forall g, g <> f ->
             IntervalSet.has (Fraction.OfFraction g) m'
             = IntervalSet.has (Fraction.OfFraction g) m) /\
  (IntervalSet.has x m = Ok false ->
   m' = m /\
   state_after (IntervalSet.delete x) (state_after (IntervalSet.add x) m) = m).
Proof.
  intros [Hd _] Hx.
  unfold state_after, outcome, IntervalSet.delete, IntervalSet.add,
    IntervalSet.has, IntervalSet.size, bind, lift, modify, bindr.
  rewrite Hx. simpl. unfold JsMap.has.
  rewrite (@get_delete_same _ m _ Hd).
  split; [reflexivity |]. split; [reflexivity |].
  split; [apply size_delete |].
  split.
  - intros g Hne. rewrite get_delete_other; [reflexivity |].
    intros E. apply toFraction_inj in E. congruence.
  - intros Hhas.
    assert (~ In (Fraction.toFraction f) (JsMap.keys m)) as Hnot.
    { apply get_none_iff.
      destruct (JsMap.get (Fraction.toFraction f) m); [discriminate | reflexivity]. }
    split; [now apply delete_absent |].
    rewrite set_fresh by exact Hnot. now apply delete_appended.
Qed.

Lemma interval_delete_undoes_add_major_chord :
  interval_set_ok major_chord /\
  Fraction.new (Fraction.OfInteger 3) = Ok (Fraction.of_Z 3) /\
  IntervalSet.has (Fraction.OfInteger 3) major_chord = Ok false /\
  state_after (IntervalSet.delete (Fraction.OfInteger 3))
    (state_after (IntervalSet.add (Fraction.OfInteger 3)) major_chord)
  = major_chord.
Proof.
  assert (interval_set_ok major_chord) as H1
    by exact (interval_set_built_ok major_chord_built).
  assert (Fraction.new (Fraction.OfInteger 3) = Ok (Fraction.of_Z 3)) as H2
    by reflexivity.
  assert (IntervalSet.has (Fraction.OfInteger 3) major_chord = Ok false) as H3
    by reflexivity.
  repeat (split; [assumption |]).
  exact (proj2 (proj2 (proj2 (proj2 (proj2
           (@interval_delete_undoes_add major_chord _ _ H1 H2)))) H3)).
Defined.

Lemma add_loop (xs : list Fraction.Input) :
  forall (fs : list Fraction.t) (acc : IntervalSet.t),
    Forall2 (fun x f => Fraction.new x = Ok f) xs fs ->
    NoDup (JsMap.keys acc ++ map Fraction.toFraction fs) ->
    for_of xs IntervalSet.add acc
    = (Ok tt, acc ++ map (fun f => (Fraction.toFraction f, f)) fs).
Proof.
  induction xs as [| x xs IH]; intros fs acc Hall Hnd.
  - inversion Hall; subst. simpl. now rewrite List.app_nil_r.
  - inversion Hall as [| ? f ? fs' Hx Hrest]; subst. simpl.
    unfold bind at 1, IntervalSet.add at 1, bind, lift, modify.
    rewrite Hx. simpl.
    assert (~ In (Fraction.toFraction f) (JsMap.keys acc)) as Hfresh.
    { intros Hin. simpl in Hnd. apply NoDup_remove_2 in Hnd. apply Hnd.
      apply in_or_app. now left. }
    rewrite set_fresh by exact Hfresh.
    rewrite (IH fs' (acc ++ [(Fraction.toFraction f, f)]) Hrest).
    + now rewrite <- List.app_assoc.
    + unfold JsMap.keys in *. rewrite map_app, <- List.app_assoc. exact Hnd.
Qed.

Lemma interval_set_entries m :
  interval_set_ok m ->
  m = map (fun f => (Fraction.toFraction f, f)) (JsMap.values m).
Proof.
  intros [_ Hk]. induction m as [| [k f] m IH]; simpl; [reflexivity |].
  inversion Hk as [| ? ? Hk1 Hk2]; subst. simpl in Hk1. subst k.
  f_equal. now apply IH.
Qed.

(** Property X20. [clone()] of an interval set always succeeds and has
    the same entries in the same order. *)
Theorem interval_clone_is_exact m :
  interval_set_built m -> IntervalSet.clone m = Ok m.
Proof.
  intros Hb. apply interval_set_built_ok in Hb.
  unfold IntervalSet.clone, IntervalSet.new, construct.
  rewrite (@add_loop (map Fraction.OfFraction (JsMap.values m))
             (JsMap.values m) (JsMap.empty Fraction.t)).
  - simpl. now rewrite <- (interval_set_entries Hb).
  - induction (JsMap.values m); simpl; constructor; auto.
  - simpl. rewrite <- (interval_set_keys Hb). apply Hb.
Qed.

Lemma interval_clone_is_exact_major_chord :
  interval_set_built major_chord /\ IntervalSet.clone major_chord = Ok major_chord.
Proof.
  assert (interval_set_built major_chord) as H1 by exact major_chord_built.
  split; [exact H1 |].
  exact (@interval_clone_is_exact major_chord H1).
Defined.

(** Property X21. The strings of [toStrings()] are read back to the
    ratios they render: the interval set constructed from them has the
    same sorted ratios, stored in ascending order, and the same strings. *)
Theorem toStrings_round_trip m :
  interval_set_built m ->
  exists m',
    IntervalSet.new (Some (map Fraction.OfString (IntervalSet.toStrings m)))
    = Ok m' /\
    IntervalSet.getRatios m' = IntervalSet.getRatios m /\
    IntervalSet.getRatios m' = JsMap.values m' /\
    IntervalSet.toStrings m' = IntervalSet.toStrings m.
Proof.
  intros Hb. apply interval_set_built_ok in Hb.
  pose proof (interval_set_values_distinct Hb) as Hnd.
  assert (NoDup (IntervalSet.getRatios m)) as Hnd'
    by (eapply Permutation_NoDup; [symmetry; apply getRatios_perm | exact Hnd]).
  exists (map (fun f => (Fraction.toFraction f, f)) (IntervalSet.getRatios m)).
  assert (JsMap.values
            (map (fun f => (Fraction.toFraction f, f)) (IntervalSet.getRatios m))
          = IntervalSet.getRatios m) as Hvalues
    by (unfold JsMap.values; rewrite map_map; apply map_id).
  assert (IntervalSet.getRatios
            (map (fun f => (Fraction.toFraction f, f)) (IntervalSet.getRatios m))
          = IntervalSet.getRatios m) as Hsame.
  { unfold IntervalSet.getRatios at 1. rewrite Hvalues.
    unfold IntervalSet.getRatios.
    apply (array_sort_order_free (fun f : Fraction.t => f)).
    - rewrite map_id. exact Hnd'.
    - apply getRatios_perm. }
  split; [| split; [exact Hsame | split]].
  - unfold IntervalSet.new, construct, IntervalSet.toStrings.
    rewrite (@add_loop _ (IntervalSet.getRatios m) (JsMap.empty Fraction.t)).
    + reflexivity.
    + generalize (IntervalSet.getRatios m) as l. clear.
      induction l; simpl; constructor; [apply parse_toFraction | assumption].
    + simpl. apply Finite.Injective_map_NoDup; [| exact Hnd'].
      intros a b. apply toFraction_inj.
  - now rewrite Hsame, Hvalues.
  - unfold IntervalSet.toStrings. now rewrite Hsame.
Qed.

Lemma toStrings_round_trip_major_chord :
  interval_set_built major_chord /\
  exists m',
    IntervalSet.new
      (Some (map Fraction.OfString (IntervalSet.toStrings major_chord)))
    = Ok m' /\
    IntervalSet.getRatios m' = IntervalSet.getRatios major_chord /\
    IntervalSet.getRatios m' = JsMap.values m' /\
    IntervalSet.toStrings m' = IntervalSet.toStrings major_chord.
Proof.
  assert (interval_set_built major_chord) as H1 by exact major_chord_built.
  split; [exact H1 |].
  exact (@toStrings_round_trip major_chord H1).
Defined.

Lemma interval_has_iff m f :
  interval_set_ok m ->
  (JsMap.has (Fraction.toFraction f) m = true <-> In f (JsMap.values m)).
Proof.
  intros Hok. rewrite has_true_iff, (interval_set_keys Hok), in_map_iff.
  split.
  - intros [g [Hg Hin]]. apply toFraction_inj in Hg. now subst.
  - intros Hin. now exists f.
Qed.

Lemma equals_loop_true (fs : list Fraction.t) (other : IntervalSet.t) :
  interval_set_ok other ->
  (IntervalSet.equals_loop fs other = Ok true <->
   forall f, In f fs -> In f (JsMap.values other)) /\
  (IntervalSet.equals_loop fs other = Ok true \/
   IntervalSet.equals_loop fs other = Ok false).
Proof.
  intros Hok. induction fs as [| f fs [IH1 IH2]]; simpl.
  - split; [| now left]. split; [intros _ f [] | reflexivity].
  - unfold IntervalSet.has, bindr. simpl.
    destruct (JsMap.has (Fraction.toFraction f) other) eqn:Hhas; simpl.
    + apply (interval_has_iff f Hok) in Hhas. split; [| exact IH2].
      rewrite IH1. split.
      * intros H g [<- | Hg]; auto.
      * intros H g Hg. apply H. now right.
    + split; [| now right]. split; [discriminate |].
      intros H. assert (In f (JsMap.values other)) as Hin by (apply H; now left).
      apply (interval_has_iff f Hok) in Hin. congruence.
Qed.

(** Property X22. [equals] compares the sizes and looks up the ratios
    of the receiver only; still [a.equals(b)] is true exactly when the
    two sets have the same ratios, so it is symmetric, and a set equals
    itself. *)
Theorem equals_is_same_members (a b : IntervalSet.t) :
  interval_set_built a -> interval_set_built b ->
  (IntervalSet.equals a b = Ok true <->
   forall f, In f (JsMap.values a) <-> In f (JsMap.values b)) /\
  IntervalSet.equals a b = IntervalSet.equals b a /\
  IntervalSet.equals a a = Ok true.
Proof.
  assert (forall a b : IntervalSet.t,
             interval_set_ok a -> interval_set_ok b ->
             (IntervalSet.equals a b = Ok true <->
              forall f, In f (JsMap.values a) <-> In f (JsMap.values b)) /\
             (IntervalSet.equals a b = Ok true \/
              IntervalSet.equals a b = Ok false)) as Hiff.
  { clear. intros a b Ha Hb.
    pose proof (interval_set_values_distinct Ha) as Hda.
    pose proof (interval_set_values_distinct Hb) as Hdb.
    destruct (equals_loop_true (IntervalSet.getRatios a) Hb) as [Hloop Hbool].
    unfold IntervalSet.equals, IntervalSet.size, JsMap.size.
    rewrite <- (length_map snd a), <- (length_map snd b).
    fold (JsMap.values a) (JsMap.values b).
    destruct (Nat.eqb (List.length (JsMap.values a))
                (List.length (JsMap.values b))) eqn:Hlen; simpl.
    - apply Nat.eqb_eq in Hlen. split; [| exact Hbool].
      rewrite Hloop. split.
      + intros Hincl.
        assert (incl (JsMap.values a) (JsMap.values b)) as Hab.
        { intros f Hf. apply Hincl.
          eapply Permutation_in; [symmetry; apply getRatios_perm | exact Hf]. }
        intros f. split; [apply Hab |].
        apply (NoDup_length_incl Hda); [lia | exact Hab].
      + intros Hsame f Hf. apply Hsame.
        eapply Permutation_in; [apply getRatios_perm | exact Hf].
    - apply Nat.eqb_neq in Hlen. split; [| now right].
      split; [discriminate |]. intros Hsame. exfalso. apply Hlen.
      apply Nat.le_antisymm; apply NoDup_incl_length; try assumption;
        intros f Hf; now apply Hsame. }
  intros Ha Hb. apply interval_set_built_ok in Ha, Hb.
  split; [apply (Hiff a b Ha Hb) | split].
  - destruct (Hiff a b Ha Hb) as [Hab [Tab | Fab]];
      destruct (Hiff b a Hb Ha) as [Hba [Tba | Fba]]; try congruence.
    + pose proof (proj1 Hab Tab) as Hsame. rewrite Tab. symmetry.
      apply (proj2 Hba). intros f. symmetry. apply Hsame.
    + pose proof (proj1 Hba Tba) as Hsame. rewrite Tba.
      apply (proj2 Hab). intros f. symmetry. apply Hsame.
  - apply (Hiff a a Ha Ha). tauto.
Qed.

Lemma equals_is_same_members_major_chord :
  interval_set_built major_chord /\
  interval_set_built (state_after IntervalSet.clear major_chord) /\
  IntervalSet.equals major_chord (state_after IntervalSet.clear major_chord)
  = IntervalSet.equals (state_after IntervalSet.clear major_chord) major_chord.
Proof.
  assert (interval_set_built major_chord) as H1 by exact major_chord_built.
  assert (interval_set_built (state_after IntervalSet.clear major_chord)) as H2
    by exact (made_clear H1).
  repeat (split; [assumption |]).
  exact (proj1 (proj2 (@equals_is_same_members _ _ H1 H2))).
Defined.

End IntervalSetEntries.

(** ** IntervalSet.minMax *)

Section MinMax.
Variables lo hi : Fraction.t.

Local Abbreviation keep :=
  (fun f : Fraction.t =>
     IntervalSet.at_least (Fraction.compare f lo)
     && IntervalSet.at_most (Fraction.compare f hi)).

Local Abbreviation trim :=
  (fun ratio : Fraction.t =>
     if negb (IntervalSet.at_least (Fraction.compare ratio lo))
        || negb (IntervalSet.at_most (Fraction.compare ratio hi))
     then modify (JsMap.delete (Fraction.toFraction ratio))
     else @ret IntervalSet.t unit tt).

Lemma delete_as_filter {V} (acc : JsMap.t V) (k : string) :
  distinct_keys acc ->
  JsMap.delete k acc = filter (fun e => negb (String.eqb (fst e) k)) acc.
Proof.
  unfold distinct_keys, JsMap.keys.
  induction acc as [| [k0 v] acc IH]; simpl; intros Hd; [reflexivity |].
  inversion Hd as [| ? ? Hnot Hd']; subst.
  destruct (String.eqb k0 k) eqn:E; simpl.
  - apply String.eqb_eq in E. subst k0.
    symmetry. rewrite <- IH by exact Hd'. apply delete_absent. exact Hnot.
  - f_equal. now apply IH.
Qed.

Lemma distinct_keys_filter {V} (acc : JsMap.t V) (p : string * V -> bool) :
  distinct_keys acc -> distinct_keys (filter p acc).
Proof.
  unfold distinct_keys, JsMap.keys.
  induction acc as [| e acc IH]; simpl; intros Hd; [constructor |].
  inversion Hd as [| ? ? Hnot Hd']; subst.
  destruct (p e); simpl; [constructor |]; auto.
  intros Hin. apply Hnot. apply in_map_iff in Hin as [e' [He' Hin]].
  apply filter_In in Hin as [Hin _]. apply in_map_iff. now exists e'.
Qed.

Lemma filter_twice {X} (p q : X -> bool) (l : list X) :
  filter p (filter q l) = filter (fun x => q x && p x) l.
Proof.
  induction l as [| x l IH]; simpl; [reflexivity |].
  destruct (q x); simpl; [destruct (p x) |]; now rewrite IH.
Qed.

Lemma minMax_loop (vs : list Fraction.t) :
  forall acc : IntervalSet.t,
    distinct_keys acc ->
    for_of vs trim acc
    = (Ok tt,
       filter (fun e =>
                 forallb (fun f => keep f
                                   || negb (String.eqb (fst e) (Fraction.toFraction f)))
                   vs) acc).
Proof.
  induction vs as [| f vs IH]; intros acc Hd; simpl.
  - unfold ret. f_equal. clear Hd. induction acc; simpl; congruence.
  - unfold bind at 1. cbv beta.
    destruct (IntervalSet.at_least (Fraction.compare f lo)
              && IntervalSet.at_most (Fraction.compare f hi)) eqn:E.
    + apply andb_true_iff in E as [-> ->]. simpl.
      exact (IH acc Hd).
    + assert (negb (IntervalSet.at_least (Fraction.compare f lo))
              || negb (IntervalSet.at_most (Fraction.compare f hi)) = true) as ->.
      { rewrite <- negb_andb. now rewrite E. }
      unfold modify. simpl.
      rewrite IH by (rewrite delete_as_filter by exact Hd;
                     now apply distinct_keys_filter).
      rewrite delete_as_filter by exact Hd.
      now rewrite filter_twice.
Qed.

Lemma at_least_iff (f a : Fraction.t) :
  IntervalSet.at_least (Fraction.compare f a) = true <-> (a <= f)%Qc.
Proof.
  unfold IntervalSet.at_least, Fraction.compare.
  destruct (f ?= a)%Qc eqn:E.
  - apply Qceq_alt in E. subst. split; [intros _; apply Qcle_refl | reflexivity].
  - apply Qclt_alt in E. split; [discriminate |].
    intros H. exfalso. now apply (Qcle_not_lt _ _ H).
  - apply Qcgt_alt in E. split; [intros _; now apply Qclt_le_weak | reflexivity].
Qed.

Lemma at_most_iff (f b : Fraction.t) :
  IntervalSet.at_most (Fraction.compare f b) = true <-> (f <= b)%Qc.
Proof.
  unfold IntervalSet.at_most, Fraction.compare.
  destruct (f ?= b)%Qc eqn:E.
  - apply Qceq_alt in E. subst. split; [intros _; apply Qcle_refl | reflexivity].
  - apply Qclt_alt in E. split; [intros _; now apply Qclt_le_weak | reflexivity].
  - apply Qcgt_alt in E. split; [discriminate |].
    intros H. exfalso. now apply (Qcle_not_lt _ _ H).
Qed.

End MinMax.

Section MinMaxResult.
Implicit Types (m : IntervalSet.t) (f : Fraction.t).

(** Property X24. [minMax(min, max)] with [min] above [max] throws and
    leaves the set as it was; otherwise it succeeds and keeps, in their
    order, exactly the ratios between [min] and [max], bounds included. *)
Theorem minMax_keeps_the_range m (min max : Fraction.Input)
  (lo hi : Fraction.t) :
  interval_set_built m ->
  Fraction.new min = Ok lo -> Fraction.new max = Ok hi ->
  ((hi < lo)%Qc ->
   IntervalSet.minMax min max m
   = (Throw "min must be less than or equal to max", m)) /\
  ((lo <= hi)%Qc ->
   outcome (IntervalSet.minMax min max) m = Ok tt /\
   JsMap.values (state_after (IntervalSet.minMax min max) m)
   = filter (fun f => IntervalSet.at_least (Fraction.compare f lo)
                      && IntervalSet.at_most (Fraction.compare f hi))
       (JsMap.values m) /\
   forall f, In f (JsMap.values (state_after (IntervalSet.minMax min max) m)) <->
             In f (JsMap.values m) /\ (lo <= f <= hi)%Qc).
Proof.
  intros Hb Hlo Hhi. apply interval_set_built_ok in Hb.
  assert (IntervalSet.minMax min max m
          = match Fraction.compare lo hi with
            | Gt => (Throw "min must be less than or equal to max", m)
            | _ => for_of (JsMap.values m) (fun ratio : Fraction.t =>
                     if negb (IntervalSet.at_least (Fraction.compare ratio lo))
                        || negb (IntervalSet.at_most (Fraction.compare ratio hi))
                     then modify (JsMap.delete (Fraction.toFraction ratio))
                     else ret tt) m
            end) as Hrun.
  { unfold IntervalSet.minMax, bind, lift, receiver, throw.
    rewrite Hlo, Hhi. now destruct (Fraction.compare lo hi). }
  split.
  - intros Hlt. assert ((lo ?= hi)%Qc = Gt) as E by (now apply Qcgt_alt).
    rewrite Hrun. unfold Fraction.compare. now rewrite E.
  - intros Hle.
    assert (Fraction.compare lo hi <> Gt) as Hcmp.
    { unfold Fraction.compare. intros E. apply Qcgt_alt in E.
      now apply (Qcle_not_lt _ _ Hle). }
    unfold outcome, state_after. rewrite Hrun.
    assert (forall A (x y : A),
               match Fraction.compare lo hi with Gt => x | _ => y end = y) as ->
      by (intros; destruct (Fraction.compare lo hi); congruence).
    match goal with |- context [for_of ?vs ?body ?m0] =>
      rewrite (@minMax_loop lo hi (JsMap.values m) m (proj1 Hb)
               : for_of vs body m0 = _)
    end. simpl.
    assert (filter
              (fun e : string * Fraction.t =>
                 forallb
                   (fun f =>
                      IntervalSet.at_least (Fraction.compare f lo)
                      && IntervalSet.at_most (Fraction.compare f hi)
                      || negb (String.eqb (fst e) (Fraction.toFraction f)))
                   (JsMap.values m)) m
            = filter
                (fun e : string * Fraction.t =>
                   IntervalSet.at_least (Fraction.compare (snd e) lo)
                   && IntervalSet.at_most (Fraction.compare (snd e) hi)) m)
      as ->.
    { apply filter_ext_in. intros [k f] He.
      destruct Hb as [_ Hkeys]. rewrite Forall_forall in Hkeys.
      pose proof (Hkeys _ He) as Hk. simpl in Hk. subst k. simpl.
      destruct (IntervalSet.at_least (Fraction.compare f lo)
                && IntervalSet.at_most (Fraction.compare f hi)) eqn:Hkeep.
      - apply forallb_forall. intros g Hg.
        destruct (String.eqb (Fraction.toFraction f) (Fraction.toFraction g))
          eqn:E; [| now rewrite orb_true_r].
        apply toFraction_eqb in E. subst g. now rewrite Hkeep.
      - apply not_true_is_false. intros Hall.
        rewrite forallb_forall in Hall.
        specialize (Hall f (in_map snd _ _ He)). simpl in Hall.
        rewrite Hkeep, String.eqb_refl in Hall. discriminate. }
    split; [reflexivity |].
    assert (JsMap.values
              (filter
                 (fun e : string * Fraction.t =>
                    IntervalSet.at_least (Fraction.compare (snd e) lo)
                    && IntervalSet.at_most (Fraction.compare (snd e) hi)) m)
            = filter (fun f => IntervalSet.at_least (Fraction.compare f lo)
                               && IntervalSet.at_most (Fraction.compare f hi))
                (JsMap.values m)) as ->.
    { unfold JsMap.values. clear. induction m as [| e m IH]; simpl; [reflexivity |].
      destruct (_ && _); simpl; now rewrite IH. }
    split; [reflexivity |].
    intros f. rewrite filter_In, andb_true_iff, at_least_iff, at_most_iff.
    reflexivity.
Qed.

Lemma minMax_keeps_the_range_major_chord :
  interval_set_built major_chord /\
  Fraction.new (Fraction.OfString "5/4") = Ok (Q2Qc (5 # 4)) /\
  Fraction.new (Fraction.OfString "3/2") = Ok (Q2Qc (3 # 2)) /\
  (Q2Qc (5 # 4) <= Q2Qc (3 # 2))%Qc /\
  JsMap.values
    (state_after
       (IntervalSet.minMax (Fraction.OfString "5/4") (Fraction.OfString "3/2"))
       major_chord)
  = filter (fun f =>
              IntervalSet.at_least (Fraction.compare f (Q2Qc (5 # 4)))
              && IntervalSet.at_most (Fraction.compare f (Q2Qc (3 # 2))))
      (JsMap.values major_chord).
Proof.
  assert (interval_set_built major_chord) as H1 by exact major_chord_built.
  assert (Fraction.new (Fraction.OfString "5/4") = Ok (Q2Qc (5 # 4))) as H2
    by reflexivity.
  assert (Fraction.new (Fraction.OfString "3/2") = Ok (Q2Qc (3 # 2))) as H3
    by reflexivity.
  assert (Q2Qc (5 # 4) <= Q2Qc (3 # 2))%Qc as H4 by discriminate.
  repeat (split; [assumption |]).
  exact (proj1 (proj2 (proj2 (@minMax_keeps_the_range major_chord _ _ _ _
                                H1 H2 H3) H4))).
Defined.

End MinMaxResult.

(** ** IntervalSet.affinitive *)

Section Affinitive.
Implicit Types (m acc : IntervalSet.t) (f q : Fraction.t) (h : Harmonic.t).

Lemma in_set_other {V} (m : JsMap.t V) (k : string) (v : V) (e : string * V) :
  In e m -> fst e <> k -> In e (JsMap.set k v m).
Proof.
  induction m as [| [k0 v0] m IH]; simpl; [tauto |].
  intros [<- | Hin] Hne; simpl in *.
  - destruct (String.eqb k0 k) eqn:E.
    + apply String.eqb_eq in E. contradiction.
    + now left.
  - destruct (String.eqb k0 k); right; auto.
Qed.

Lemma in_set_same {V} (m : JsMap.t V) (k : string) (v : V) :
  In (k, v) (JsMap.set k v m).
Proof.
  induction m as [| [k0 v0] m IH]; simpl; [now left |].
  destruct (String.eqb k0 k); [now left | now right].
Qed.

Lemma interval_values_set acc q f :
  interval_set_ok acc ->
  (In f (JsMap.values (JsMap.set (Fraction.toFraction q) q acc)) <->
   f = q \/ In f (JsMap.values acc)).
Proof.
  intros [_ Hk]. unfold JsMap.values. rewrite !in_map_iff. split.
  - intros [e [<- He]]. apply in_set in He as [-> | He]; [now left |].
    right. now exists e.
  - intros [-> | [e [<- He]]].
    + exists (Fraction.toFraction q, q). split; [reflexivity | apply in_set_same].
    + rewrite Forall_forall in Hk. pose proof (Hk e He) as Hkey.
      destruct (String.eqb (fst e) (Fraction.toFraction q)) eqn:E.
      * apply String.eqb_eq in E. rewrite Hkey in E. apply toFraction_inj in E.
        exists (Fraction.toFraction q, q). split; [now rewrite E |].
        apply in_set_same.
      * exists e. split; [reflexivity |]. apply in_set_other; [exact He |].
        intros E'. rewrite E', String.eqb_refl in E. discriminate.
Qed.

Lemma affinitive_inner (f1 : Fraction.t) (hs2 : list Harmonic.t) :
  f1 <> 0%Qc ->
  forall acc,
    interval_set_ok acc ->
    exists acc',
      for_of hs2 (fun h2 : Harmonic.t =>
        bind (lift (Fraction.div (Harmonic.frequency h2) f1))
          (fun ratio => IntervalSet.add (Fraction.OfFraction ratio))) acc
      = (Ok tt, acc') /\
      interval_set_ok acc' /\
      forall f, In f (JsMap.values acc') <->
                In f (JsMap.values acc) \/
                exists h2, In h2 hs2 /\ f = (Harmonic.frequency h2 / f1)%Qc.
Proof.
  intros Hnz. induction hs2 as [| h2 hs2 IH]; intros acc Hok.
  - exists acc. split; [reflexivity |]. split; [exact Hok |].
    intros f. split; [tauto | intros [H | [h2 [[] _]]]; exact H].
  - assert (forall s : IntervalSet.t,
               bind (lift (Fraction.div (Harmonic.frequency h2) f1))
                 (fun ratio => IntervalSet.add (Fraction.OfFraction ratio)) s
               = (Ok tt,
                  JsMap.set (Fraction.toFraction (Harmonic.frequency h2 / f1)%Qc)
                    (Harmonic.frequency h2 / f1)%Qc s)) as Hstep.
    { intros s. unfold bind, lift, Fraction.div, IntervalSet.add, modify.
      destruct (Qc_eq_dec f1 0) as [E | _]; [contradiction | reflexivity]. }
    simpl. unfold bind at 1. rewrite Hstep.
    destruct (IH (JsMap.set (Fraction.toFraction (Harmonic.frequency h2 / f1)%Qc)
                    (Harmonic.frequency h2 / f1)%Qc acc))
      as [acc' [Hrun [Hok' Hmem]]]; [now apply interval_set_set_ok |].
    exists acc'.
    split; [exact Hrun |]. split; [exact Hok' |].
    intros f. rewrite Hmem, (interval_values_set _ _ Hok). split.
    + intros [[-> | H] | [g [Hg ->]]]; [right | now left | right].
      * exists h2. split; [now left | reflexivity].
      * exists g. split; [now right | reflexivity].
    + intros [H | [g [[<- | Hg] ->]]].
      * left. now right.
      * left. now left.
      * right. now exists g.
Qed.

Lemma affinitive_outer (hs1 hs2 : list Harmonic.t) :
  Forall (fun h => Harmonic.frequency h <> 0%Qc) hs1 ->
  forall acc,
    interval_set_ok acc ->
    exists acc',
      for_of hs1 (fun h1 : Harmonic.t =>
        for_of hs2 (fun h2 : Harmonic.t =>
          bind (lift (Fraction.div (Harmonic.frequency h2) (Harmonic.frequency h1)))
            (fun ratio => IntervalSet.add (Fraction.OfFraction ratio)))) acc
      = (Ok tt, acc') /\
      interval_set_ok acc' /\
      forall f, In f (JsMap.values acc') <->
                In f (JsMap.values acc) \/
                exists h1 h2, In h1 hs1 /\ In h2 hs2 /\
                  f = (Harmonic.frequency h2 / Harmonic.frequency h1)%Qc.
Proof.
  induction 1 as [| h1 hs1 Hnz _ IH]; intros acc Hok.
  - exists acc. split; [reflexivity |]. split; [exact Hok |].
    intros f. split; [tauto | intros [H | [h1 [h2 [[] _]]]]; exact H].
  - simpl. unfold bind at 1.
    destruct (affinitive_inner hs2 Hnz Hok) as [acc1 [Hrun1 [Hok1 Hmem1]]].
    rewrite Hrun1.
    destruct (IH acc1 Hok1) as [acc' [Hrun [Hok' Hmem]]].
    exists acc'. split; [exact Hrun |]. split; [exact Hok' |].
    intros f. rewrite Hmem, Hmem1. split.
    + intros [[H | [g2 [Hg2 ->]]] | [g1 [g2 [Hg1 [Hg2 ->]]]]].
      * now left.
      * right. exists h1, g2. repeat split; [now left | exact Hg2].
      * right. exists g1, g2. repeat split; [now right | exact Hg2].
    + intros [H | [g1 [g2 [[<- | Hg1] [Hg2 ->]]]]].
      * left. now left.
      * left. right. now exists g2.
      * right. now exists g1, g2.
Qed.

(** Property X25. When no harmonic of [context] has the frequency 0,
    [IntervalSet.affinitive(context, complement)] returns a set whose
    ratios are exactly the quotients of a frequency of [complement] by a
    frequency of [context]. *)
Theorem affinitive_holds_every_ratio (context complement : Spectrum.t) :
  Forall (fun h => Harmonic.frequency h <> 0%Qc) (JsMap.values context) ->
  exists m,
    IntervalSet.affinitive context complement = Ok m /\
    forall f, In f (JsMap.values m) <->
              exists h1 h2,
                In h1 (JsMap.values context) /\
                In h2 (JsMap.values complement) /\
                f = (Harmonic.frequency h2 / Harmonic.frequency h1)%Qc.
Proof.
  intros Hnz.
  assert (Forall (fun h => Harmonic.frequency h <> 0%Qc)
            (Spectrum.getHarmonics context)) as Hnz'.
  { rewrite Forall_forall in *. intros h Hh. apply Hnz.
    eapply Permutation_in; [apply getHarmonics_perm | exact Hh]. }
  destruct (affinitive_outer (Spectrum.getHarmonics complement) Hnz'
              interval_set_empty_ok) as [m [Hrun [_ Hmem]]].
  exists m. unfold IntervalSet.affinitive, construct.
  split; [now rewrite Hrun |].
  intros f. rewrite Hmem. simpl. split.
  - intros [[] | [h1 [h2 [H1 [H2 ->]]]]]. exists h1, h2.
    repeat split;
      (eapply Permutation_in; [apply getHarmonics_perm | assumption]).
  - intros [h1 [h2 [H1 [H2 ->]]]]. right. exists h1, h2.
    repeat split;
      (eapply Permutation_in; [symmetry; apply getHarmonics_perm | assumption]).
Qed.

Lemma affinitive_holds_every_ratio_octaves :
  Forall (fun h => Harmonic.frequency h <> 0%Qc) (JsMap.values octaves) /\
  exists m,
    IntervalSet.affinitive octaves octaves = Ok m /\
    forall f, In f (JsMap.values m) <->
              exists h1 h2,
                In h1 (JsMap.values octaves) /\
                In h2 (JsMap.values octaves) /\
                f = (Harmonic.frequency h2 / Harmonic.frequency h1)%Qc.
Proof.
  assert (Forall (fun h => Harmonic.frequency h <> 0%Qc) (JsMap.values octaves))
    as H1.
  { apply Forall_forall. intros h Hh. apply positive_nonzero.
    exact (@valid_positive octaves h (proj2 octaves_ok) Hh). }
  split; [exact H1 |].
  exact (@affinitive_holds_every_ratio octaves octaves H1).
Defined.

End Affinitive.

(** ** IntervalSet.toSpectrum *)

Section ToSpectrum.
Variable amp : Fraction.t -> nat -> float.
Hypothesis amp_accepted : forall f i, Harmonic.bad_amplitude (amp f i) = false.

Local Abbreviation made :=
  (fun p : nat * Fraction.t => Harmonic.mk (snd p) (amp (snd p) (fst p)) 0).

Lemma toSpectrum_loop (fs : list Fraction.t) :
  forall (first : nat) (acc : Spectrum.t),
    Forall (fun f => (0 < f)%Qc) fs ->
    NoDup (JsMap.keys acc ++ map Fraction.toFraction fs) ->
    forEach_from first fs (fun ratio index =>
      Spectrum.add (Spectrum.AddParts (Fraction.OfFraction ratio)
                      (Some (amp ratio index)) None)) acc
    = (Ok tt,
       acc ++ map (fun p => entry (made p))
                (combine (seq first (List.length fs)) fs)).
Proof.
  induction fs as [| f fs IH]; intros first acc Hpos Hnd.
  - simpl. now rewrite List.app_nil_r.
  - inversion Hpos as [| ? ? Hf Hrest]; subst.
    assert (forall s : Spectrum.t,
               Spectrum.add (Spectrum.AddParts (Fraction.OfFraction f)
                               (Some (amp f first)) None) s
               = (Ok tt, JsMap.set (Fraction.toFraction f)
                           (Harmonic.mk f (amp f first) 0) s)) as Hstep.
    { intros s.
      unfold Spectrum.add, Spectrum.addHarmonic, bind, lift, modify,
        Harmonic.new, bindr. simpl.
      assert (Harmonic.validate (Harmonic.mk f (amp f first) 0) = Ok tt) as ->.
      { apply validate_ok. simpl.
        split; [exact Hf | split; [apply amp_accepted | reflexivity]]. }
      reflexivity. }
    cbn [forEach_from]. unfold bind at 1. rewrite Hstep.
    assert (~ In (Fraction.toFraction f) (JsMap.keys acc)) as Hfresh.
    { intros Hin. simpl in Hnd. apply NoDup_remove_2 in Hnd. apply Hnd.
      apply in_or_app. now left. }
    rewrite set_fresh by exact Hfresh.
    rewrite (IH (S first) _ Hrest).
    + now rewrite <- List.app_assoc.
    + unfold JsMap.keys in *. rewrite map_app, <- List.app_assoc. exact Hnd.
Qed.

End ToSpectrum.

(** Property X26. For a set of ratios above 0 and a function [amp] with
    values that [validate] accepts, [toSpectrum(amp)] returns a valid
    spectrum with one harmonic per ratio, in ascending order of the
    ratios: the harmonic for the ratio at position [i] has that ratio as
    its frequency, the amplitude [amp(ratio, i)] and the phase 0, and the
    keys are the strings of [toStrings()]. *)
Theorem toSpectrum_one_harmonic_per_ratio
  (amp : Fraction.t -> nat -> float) (m : IntervalSet.t) :
  interval_set_built m ->
  Forall (fun f => (0 < f)%Qc) (JsMap.values m) ->
  (forall f i, Harmonic.bad_amplitude (amp f i) = false) ->
  exists s,
    IntervalSet.toSpectrum amp m = Ok s /\
    spectrum_ok s /\
    Spectrum.getKeys s = IntervalSet.toStrings m /\
    JsMap.values s
    = map (fun p : nat * Fraction.t =>
             Harmonic.mk (snd p) (amp (snd p) (fst p)) 0)
        (combine (seq 0 (List.length (IntervalSet.getRatios m)))
           (IntervalSet.getRatios m)).
Proof.
  intros Hb Hpos Hamp. apply interval_set_built_ok in Hb.
  pose proof (interval_set_values_distinct Hb) as Hnd.
  assert (NoDup (IntervalSet.getRatios m)) as Hnd'
    by (eapply Permutation_NoDup; [symmetry; apply getRatios_perm | exact Hnd]).
  assert (Forall (fun f => (0 < f)%Qc) (IntervalSet.getRatios m)) as Hpos'.
  { rewrite Forall_forall in *. intros f Hf. apply Hpos.
    eapply Permutation_in; [apply getRatios_perm | exact Hf]. }
  eexists. unfold IntervalSet.toSpectrum, array_forEach.
  change (Spectrum.new None) with (Ok (JsMap.empty Harmonic.t)).
  cbn [bindr]. unfold construct.
  rewrite (@toSpectrum_loop amp Hamp (IntervalSet.getRatios m) 0%nat
             (JsMap.empty Harmonic.t) Hpos').
  2:{ simpl. apply Finite.Injective_map_NoDup; [| exact Hnd'].
      intros a b. apply toFraction_inj. }
  simpl. split; [reflexivity |]. unfold IntervalSet.toStrings.
  generalize dependent (IntervalSet.getRatios m). intros l Hnd' Hpos'.
  assert (forall first,
             map fst (map (fun p : nat * Fraction.t =>
                             entry (Harmonic.mk (snd p) (amp (snd p) (fst p)) 0))
                        (combine (seq first (List.length l)) l))
             = map Fraction.toFraction l) as Hkeys.
  { clear. induction l as [| f l IH]; intros first; simpl; [reflexivity |].
    now rewrite IH. }
  split; [| split].
  - split; [split |].
    + unfold distinct_keys, JsMap.keys. rewrite Hkeys.
      apply Finite.Injective_map_NoDup; [| exact Hnd'].
      intros a b. apply toFraction_inj.
    + apply Forall_forall. intros e He. apply in_map_iff in He as [p [<- _]].
      reflexivity.
    + unfold valid_harmonics, JsMap.values. rewrite map_map. simpl.
      apply Forall_forall. intros h Hh. apply in_map_iff in Hh as [p [<- Hp]].
      destruct p as [i f]. apply validate_ok. simpl. apply in_combine_r in Hp.
      rewrite Forall_forall in Hpos'.
      split; [now apply Hpos' | split; [apply Hamp | reflexivity]].
  - unfold Spectrum.getKeys, JsMap.keys, IntervalSet.toStrings. apply Hkeys.
  - unfold JsMap.values. rewrite map_map. reflexivity.
Qed.

Lemma toSpectrum_one_harmonic_per_ratio_major_chord :
  interval_set_built major_chord /\
  Forall (fun f => (0 < f)%Qc) (JsMap.values major_chord) /\
  (forall (f : Fraction.t) (i : nat), Harmonic.bad_amplitude 1 = false) /\
  exists s,
    IntervalSet.toSpectrum (fun _ _ => 1%float) major_chord = Ok s /\
    spectrum_ok s /\
    Spectrum.getKeys s = IntervalSet.toStrings major_chord /\
    JsMap.values s
    = map (fun p : nat * Fraction.t => Harmonic.mk (snd p) 1 0)
        (combine (seq 0 (List.length (IntervalSet.getRatios major_chord)))
           (IntervalSet.getRatios major_chord)).
Proof.
  assert (interval_set_built major_chord) as H1 by exact major_chord_built.
  assert (Forall (fun f => (0 < f)%Qc) (JsMap.values major_chord)) as H2
    by (repeat constructor).
  assert (forall (f : Fraction.t) (i : nat), Harmonic.bad_amplitude 1 = false)
    as H3 by reflexivity.
  repeat (split; [assumption |]).
  exact (@toSpectrum_one_harmonic_per_ratio (fun _ _ => 1%float) major_chord
           H1 H2 H3).
Defined.

(** ** IntervalSet.densify on a set that is dense already *)

Section DensifyDense.
Variable Math_pow : float -> float -> float.
Variable approximate : float -> result Fraction.t.

Local Abbreviation gap_closed :=
  (fun (g : float) (m : IntervalSet.t) (i : nat) =>
     exists lo hi q,
       nth_error (IntervalSet.getRatios m) i = Some lo /\
       nth_error (IntervalSet.getRatios m) (i + 1) = Some hi /\
       Fraction.div hi lo = Ok q /\
       PrimFloat.ltb g (Fraction.valueOf q) = false).

Lemma closed_checks (g : float) (m : IntervalSet.t) (n : nat) :
  forall (a : nat) (s : IntervalSet.t * bool),
    (forall i, (a <= i < a + n)%nat -> gap_closed g m i) ->
    for_of (seq a n)
      (IntervalSet.check_gap approximate g (IntervalSet.getRatios m)) s
    = (Ok tt, s).
Proof.
  induction n as [| n IH]; intros a s Hclosed; [reflexivity |].
  simpl. unfold bind at 1.
  destruct (Hclosed a ltac:(lia)) as [lo [hi [q [Hlo [Hhi [Hq Hgap]]]]]].
  assert (IntervalSet.check_gap approximate g (IntervalSet.getRatios m) a s
          = (Ok tt, s)) as ->.
  { unfold IntervalSet.check_gap. rewrite Hlo, Hhi.
    unfold bind, lift. rewrite Hq. now rewrite Hgap. }
  apply IH. intros i Hi. apply Hclosed. lia.
Qed.

Lemma densify_loop_dense (g : float) (fuel : nat) (m : IntervalSet.t) :
  (forall i, (i + 1 < List.length (IntervalSet.getRatios m))%nat ->
             gap_closed g m i) ->
  IntervalSet.densify_loop approximate (S fuel) g m = Some (Ok tt, m).
Proof.
  intros Hclosed. simpl.
  unfold IntervalSet.densify_pass, bind, receiver, modify. simpl.
  rewrite closed_checks; [reflexivity |].
  intros i Hi. apply Hclosed. lia.
Qed.

(** Property X29. [densify] with a positive threshold returns after one
    pass and changes nothing when no gap of the sorted sequence is above
    the threshold; a set with fewer than two ratios is such a set. *)
Theorem densify_leaves_dense_sets (fuel : nat) (maxGapCents : float)
  (m : IntervalSet.t) :
  PrimFloat.leb maxGapCents 0 = false ->
  (forall i, (i + 1 < List.length (IntervalSet.getRatios m))%nat ->
             gap_closed (Math_pow 2 (PrimFloat.div maxGapCents 1200)) m i) ->
  IntervalSet.densify Math_pow approximate (S fuel) maxGapCents m
  = Some (Ok tt, m).
Proof.
  intros Hpos Hclosed. unfold IntervalSet.densify. rewrite Hpos.
  now apply densify_loop_dense.
Qed.

End DensifyDense.

(** [Math.pow(x, 1)] is [x]; the runs below ask for [Math.pow(2, 1)] and
    for nothing else, and every geometric mean they take is an integer,
    which [new Fraction] converts exactly. *)
Lemma densify_leaves_dense_sets_major_chord :
  PrimFloat.leb 1200 0 = false /\
  (forall i, (i + 1 < List.length (IntervalSet.getRatios major_chord))%nat ->
     exists lo hi q,
       nth_error (IntervalSet.getRatios major_chord) i = Some lo /\
       nth_error (IntervalSet.getRatios major_chord) (i + 1) = Some hi /\
       Fraction.div hi lo = Ok q /\
       PrimFloat.ltb 2 (Fraction.valueOf q) = false) /\
  IntervalSet.densify
    (fun base exponent => if PrimFloat.eqb exponent 1 then base else PrimFloat.nan)
    (fun _ => Throw Fraction.InvalidParameter) 1 1200 major_chord
  = Some (Ok tt, major_chord).
Proof.
  assert (PrimFloat.leb 1200 0 = false) as H1 by reflexivity.
  assert (forall i,
             (i + 1 < List.length (IntervalSet.getRatios major_chord))%nat ->
             exists lo hi q,
               nth_error (IntervalSet.getRatios major_chord) i = Some lo /\
               nth_error (IntervalSet.getRatios major_chord) (i + 1) = Some hi /\
               Fraction.div hi lo = Ok q /\
               PrimFloat.ltb 2 (Fraction.valueOf q) = false) as H2.
  { intros i Hi.
    assert (i = 0 \/ i = 1 \/ i = 2)%nat as [-> | [-> | ->]]
      by (change (List.length (IntervalSet.getRatios major_chord)) with 4%nat in Hi;
          lia);
      do 3 eexists;
      (split; [vm_compute; reflexivity |]);
      (split; [vm_compute; reflexivity |]);
      (split; vm_compute; reflexivity). }
  repeat (split; [assumption |]).
  exact (@densify_leaves_dense_sets
           (fun base exponent =>
              if PrimFloat.eqb exponent 1 then base else PrimFloat.nan)
           (fun _ => Throw Fraction.InvalidParameter) 0 1200 major_chord H1 H2).
Defined.

(** [range(1, 2, 3)]. *)
Lemma range_within_bounds_octave :
  exists m,
    Fraction.new (Fraction.OfInteger 1) = Ok (Fraction.of_Z 1) /\
    Fraction.new (Fraction.OfInteger 2) = Ok (Fraction.of_Z 2) /\
    IntervalSet.range 8 (Fraction.OfInteger 1) (Fraction.OfInteger 2) 3
    = Some (Ok m) /\
    Forall (fun f => (Fraction.of_Z 1 <= f <= Fraction.of_Z 2)%Qc)
      (JsMap.values m).
Proof.
  eexists.
  split; [reflexivity |]. split; [reflexivity |].
  split; [vm_compute; reflexivity |].
  eapply (@range_within_bounds 8 (Fraction.OfInteger 1) (Fraction.OfInteger 2) 3);
    [reflexivity | reflexivity | vm_compute; reflexivity].
Defined.

(** [new IntervalSet([1, 4]).densify(1200)]: the threshold is 2, the
    first pass finds the gap 4 and adds the mean 2, the second pass finds
    the gaps 2 and 2 closed and the call returns with 1, 2 and 4. *)
Lemma densify_gaps_closed_two_octaves :
  IntervalSet.densify
    (fun base exponent => if PrimFloat.eqb exponent 1 then base else PrimFloat.nan)
    (fun _ => Throw Fraction.InvalidParameter) 2 1200
    [("1"%string, Fraction.of_Z 1); ("4"%string, Fraction.of_Z 4)]
  = Some (Ok tt, [("1"%string, Fraction.of_Z 1); ("4"%string, Fraction.of_Z 4);
                  ("2"%string, Fraction.of_Z 2)]) /\
  (1 + 1 < List.length
             (IntervalSet.getRatios
                [("1"%string, Fraction.of_Z 1); ("4"%string, Fraction.of_Z 4);
                 ("2"%string, Fraction.of_Z 2)]))%nat /\
  exists lo hi q,
    nth_error
      (IntervalSet.getRatios
         [("1"%string, Fraction.of_Z 1); ("4"%string, Fraction.of_Z 4);
          ("2"%string, Fraction.of_Z 2)]) 1 = Some lo /\
    nth_error
      (IntervalSet.getRatios
         [("1"%string, Fraction.of_Z 1); ("4"%string, Fraction.of_Z 4);
          ("2"%string, Fraction.of_Z 2)]) (1 + 1) = Some hi /\
    Fraction.div hi lo = Ok q /\
    PrimFloat.ltb 2 (Fraction.valueOf q) = false.
Proof.
  assert (IntervalSet.densify
            (fun base exponent =>
               if PrimFloat.eqb exponent 1 then base else PrimFloat.nan)
            (fun _ => Throw Fraction.InvalidParameter) 2 1200
            [("1"%string, Fraction.of_Z 1); ("4"%string, Fraction.of_Z 4)]
          = Some (Ok tt,
                  [("1"%string, Fraction.of_Z 1); ("4"%string, Fraction.of_Z 4);
                   ("2"%string, Fraction.of_Z 2)])) as H1
    by (vm_compute; reflexivity).
  assert (1 + 1 < List.length
                    (IntervalSet.getRatios
                       [("1"%string, Fraction.of_Z 1); ("4"%string, Fraction.of_Z 4);
                        ("2"%string, Fraction.of_Z 2)]))%nat as H2
    by (vm_compute; lia).
  repeat (split; [assumption |]).
  exact (@densify_gaps_closed
           (fun base exponent =>
              if PrimFloat.eqb exponent 1 then base else PrimFloat.nan)
           (fun _ => Throw Fraction.InvalidParameter) 2 1200 _ _ H1 1%nat H2).
Defined.
